(** * tag-server, cmd/events: diff-to-symbol correlation

    A shallow embedding of [EventsCmd.Execute] (cmd/events/main.go): the
    unified-diff parser, the tag/hunk overlap correlation, the reference
    scanner and the event assembly, with the properties the design
    document states about them. *)

From Stdlib Require Import ZArith NArith Ascii List Lia.
From Stdlib Require String.
From stdpp Require Import gmap strings list fin_maps.

Local Open Scope Z_scope.

(** ** Go's [int] (64 bits on the platforms the tool runs on) *)

Module GoInt.

Definition MaxInt64 : Z := 9223372036854775807.
Definition MinInt64 : Z := -9223372036854775808.

Definition inRange (z : Z) : Prop := MinInt64 ≤ z ≤ MaxInt64.

(** Two's complement wrap-around of a mathematical result. *)
Definition wrap (z : Z) : Z := (z + 2 ^ 63) `mod` 2 ^ 64 - 2 ^ 63.

Definition add (x y : Z) : Z := wrap (x + y).
Definition sub (x y : Z) : Z := wrap (x - y).

End GoInt.

(** ** Strings

  A Go string is a sequence of bytes; so is a Rocq [string].  The regular
  expression matcher below walks over the bytes as a [list ascii]. *)

Abbreviation bytes := (list ascii).

Definition ofBytes (l : bytes) : string := String.string_of_list_ascii l.
Definition toBytes (s : string) : bytes := String.list_ascii_of_string s.

(** [strings.HasPrefix(s, p)] *)
Definition HasPrefix (s p : string) : bool := String.prefix p s.

(** [len(s)] *)
Definition len (s : string) : nat := String.length s.

Definition LF : ascii := ascii_of_nat 10.

(** [strings.Split(s, "\n")]: the pieces between newline bytes; always at
  least one piece. *)
Fixpoint splitLines (cur : bytes) (s : bytes) : list string :=
match s with
| [] => [ofBytes (rev cur)]
| c :: s' =>
    if Ascii.eqb c LF then ofBytes (rev cur) :: splitLines [] s'
    else splitLines (c :: cur) s'
end.

Definition Split (s : string) : list string := splitLines [] (toBytes s).

(** ** UTF-8 rune widths, as [unicode/utf8.DecodeRuneInString] reports them

  The regexp package advances over its input one rune at a time; an
  invalid or truncated encoding is one rune (U+FFFD) of width 1. *)

Module utf8.

Definition code (c : ascii) : N := N_of_ascii c.

Definition between (lo hi : N) (c : ascii) : bool :=
  ((lo <=? code c) && (code c <=? hi))%N.

(** [c < utf8.RuneSelf] *)
Definition isASCII (c : ascii) : bool := (code c <? 128)%N.

(** a continuation byte, 0x80..0xBF *)
Definition isCont (c : ascii) : bool := between 128 191 c.

(** the range accepted for the second byte, by first byte *)
Definition accepts (c0 c1 : ascii) : bool :=
  if (code c0 =? 224)%N then between 160 191 c1        (* E0: A0..BF *)
  else if (code c0 =? 237)%N then between 128 159 c1   (* ED: 80..9F *)
  else if (code c0 =? 240)%N then between 144 191 c1   (* F0: 90..BF *)
  else if (code c0 =? 244)%N then between 128 143 c1   (* F4: 80..8F *)
  else isCont c1.

Definition runeLen (s : bytes) : nat :=
  match s with
  | [] => 0%nat
  | c0 :: t =>
      if between 194 223 c0 then                        (* C2..DF: 2 bytes *)
        match t with
        | c1 :: _ => if accepts c0 c1 then 2%nat else 1%nat
        | _ => 1%nat
        end
      else if between 224 239 c0 then                   (* E0..EF: 3 bytes *)
        match t with
        | c1 :: c2 :: _ =>
            if accepts c0 c1 && isCont c2 then 3%nat else 1%nat
        | _ => 1%nat
        end
      else if between 240 244 c0 then                   (* F0..F4: 4 bytes *)
        match t with
        | c1 :: c2 :: c3 :: _ =>
            if accepts c0 c1 && isCont c2 && isCont c3 then 4%nat else 1%nat
        | _ => 1%nat
        end
      else 1%nat
  end.

End utf8.

(** ** Regular expressions: Go's [regexp] on the patterns of this program

  Go's matcher returns the match a backtracking search finds first
  (leftmost start, then the alternatives in priority order, repetitions
  greedy), and keeps for each group the text of its last iteration.  The
  matcher below is that backtracking search, in continuation-passing
  style. *)

Module regexp.

Inductive regex : Type :=
| Eps                                        (* the empty pattern *)
| Lit (c : ascii)                            (* a literal ASCII byte *)
| Class (p : ascii → bool) (wide : bool)     (* one rune: an ASCII byte in
                                                [p]; when [wide], also any
                                                rune beyond ASCII *)
| Cat (r1 r2 : regex)
| Star (r : regex)                           (* r*, greedy *)
| Cap (i : nat) (r : regex).                 (* capturing group number i *)

(** r+ *)
Definition Plus (r : regex) : regex := Cat r (Star r).

Fixpoint lits (s : string) : regex :=
  match s with
  | EmptyString => Eps
  | String c s' => Cat (Lit c) (lits s')
  end.

Definition catList (rs : list regex) : regex := foldr Cat Eps rs.

(** [Regexp.NumSubexp] *)
Fixpoint NumSubexp (r : regex) : nat :=
  match r with
  | Eps | Lit _ | Class _ _ => 0%nat
  | Cat r1 r2 => NumSubexp r1 `max` NumSubexp r2
  | Star r1 => NumSubexp r1
  | Cap i r1 => i `max` NumSubexp r1
  end.

(** The text of each group, slot 0 being the whole match; a group that did
    not take part holds the empty text, as in the slices
    [FindStringSubmatch] returns. *)
Abbreviation captures := (list bytes).

Section Exec.
Context {R : Type}.

Abbreviation cont := (bytes → captures → option R).

(** Greedy iteration: one more round of [body] is preferred to leaving
    the loop; a round must consume input.  [fuel] bounds the rounds by
    the length of the input. *)
Fixpoint loop (body : bytes → captures → cont → option R) (fuel : nat)
    (s : bytes) (c : captures) (k : cont) : option R :=
  match fuel with
  | O => k s c
  | S fuel' =>
      match body s c (fun s' c' =>
                        if (length s' <? length s)%nat
                        then loop body fuel' s' c' k else None) with
      | Some res => Some res
      | None => k s c
      end
  end.

Fixpoint exec (r : regex) : bytes → captures → cont → option R :=
  match r with
  | Eps => fun s c k => k s c
  | Lit a => fun s c k =>
      match s with
      | x :: s' => if Ascii.eqb x a then k s' c else None
      | [] => None
      end
  | Class p wide => fun s c k =>
      match s with
      | x :: s' =>
          if utf8.isASCII x then (if p x then k s' c else None)
          else if wide then k (drop (utf8.runeLen s) s) c else None
      | [] => None
      end
  | Cat r1 r2 => fun s c k => exec r1 s c (fun s' c' => exec r2 s' c' k)
  | Star r1 => fun s c k => loop (exec r1) (length s) s c k
  | Cap i r1 => fun s c k =>
      exec r1 s c
        (fun s' c' => k s' (<[i := take (length s - length s') s]> c'))
  end.
End Exec.

(** The unanchored search of [doExecute]: the first start position, rune by
    rune, from which the pattern matches.  Returns the number of bytes
    skipped, the input left after the match, and the captures. *)
Fixpoint search (r : regex) (fuel : nat) (skipped : nat) (s : bytes)
    : option (nat * bytes * captures) :=
  match exec r s (replicate (S (NumSubexp r)) []) (fun s' c => Some (s', c)) with
  | Some (s', c) =>
      Some (skipped, s', <[0%nat := take (length s - length s') s]> c)
  | None =>
      match fuel, s with
      | S fuel', _ :: _ =>
          search r fuel' (skipped + utf8.runeLen s) (drop (utf8.runeLen s) s)
      | _, _ => None
      end
  end.

Definition doExecute (r : regex) (s : bytes) : option (nat * bytes * captures) :=
  search r (length s) 0 s.

(** [re.FindStringSubmatch(s)]: nil when there is no match, else the whole
    match followed by the groups. *)
Definition FindStringSubmatch (r : regex) (s : string) : list string :=
  match doExecute r (toBytes s) with
  | Some (_, _, c) => ofBytes <$> c
  | None => []
  end.

(** [re.FindAllStringSubmatch(s, -1)]: successive non-overlapping matches.
    An empty match directly after the previous match is dropped, and the
    scan then moves on by one rune. *)
Fixpoint allMatches (r : regex) (fuel : nat) (s : bytes) (atPrevEnd : bool)
    : list (list string) :=
  match fuel with
  | O => []
  | S fuel' =>
      match doExecute r s with
      | None => []
      | Some (_, rest, c) =>
          if (length rest =? length s)%nat then
            (if atPrevEnd then [] else [ofBytes <$> c]) ++
            match s with
            | [] => []
            | _ :: _ => allMatches r fuel' (drop (utf8.runeLen s) s) false
            end
          else (ofBytes <$> c) :: allMatches r fuel' rest true
      end
  end.

Definition FindAllStringSubmatch (r : regex) (s : string) : list (list string) :=
  allMatches r (S (len s)) (toBytes s) false.

(** Character classes of the patterns. *)
Definition isDigit (c : ascii) : bool := utf8.between 48 57 c.
Definition isUpper (c : ascii) : bool := utf8.between 65 90 c.
Definition isLower (c : ascii) : bool := utf8.between 97 122 c.
Definition isAlnum (c : ascii) : bool := isUpper c || isLower c || isDigit c.
(** \w *)
Definition isWord (c : ascii) : bool := isAlnum c || Ascii.eqb c "_".
(** \s, that is [\t\n\f\r ] *)
Definition isSpace (c : ascii) : bool :=
  let n := utf8.code c in
  ((n =? 9) || (n =? 10) || (n =? 12) || (n =? 13) || (n =? 32))%N.

Definition digit : regex := Class isDigit false.
Definition upper : regex := Class isUpper false.
Definition alnum : regex := Class isAlnum false.
Definition word : regex := Class isWord false.
(** [^\s] *)
Definition notSpace : regex := Class (fun c => negb (isSpace c)) true.
(** . *)
Definition anyChar : regex := Class (fun c => negb (Ascii.eqb c LF)) true.

End regexp.

Import regexp.

(** [diff \-\-git a\/([^\s]+) b\/(?:[^\s]+)] *)
Definition fileHeaderRx : regex :=
  catList [lits "diff --git a/"; Cap 1 (Plus notSpace); lits " b/"; Plus notSpace].

(** [\@\@ \-([0-9]+),([0-9]+) \+([0-9]+),([0-9]+) \@\@] *)
Definition hunkHeaderRx : regex :=
  catList [lits "@@ -"; Cap 1 (Plus digit); lits ","; Cap 2 (Plus digit);
       lits " +"; Cap 3 (Plus digit); lits ","; Cap 4 (Plus digit); lits " @@"].

(** [<([A-Z]\w+).] *)
Definition typescriptRx : regex :=
  catList [lits "<"; Cap 1 (Cat upper (Plus word)); anyChar].

(** [(?:([A-Za-z0-9]+)*\()] *)
Definition functionRx : regex :=
  catList [Star (Cap 1 (Plus alnum)); lits "("].

(** ** [strconv.Atoi]

    An optional sign and decimal digits.  A text that is not a number gives
    0; a number that does not fit an [int] gives the nearest bound.  In both
    cases Go also returns an error, which every call site of this program
    drops ([oldstart, _ := strconv.Atoi(...)]). *)

Definition digitVal (c : ascii) : Z := Z.of_N (utf8.code c) - 48.

Definition MaxUint64 : Z := 18446744073709551615.

(** [strconv.ParseUint(s, 10, 64)] on the text after the sign, from the
    number [n] read so far: [None] for a syntax error; the largest [uint64]
    as soon as the number read exceeds it. *)
Fixpoint parseUint (n : Z) (s : bytes) : option Z :=
  match s with
  | [] => Some n
  | c :: s' =>
      if isDigit c then
        if MaxUint64 <? 10 * n + digitVal c then Some MaxUint64
        else parseUint (10 * n + digitVal c) s'
      else None
  end.

Definition Atoi (s : string) : Z :=
  let '(neg, ds) :=
    match toBytes s with
    | c :: t =>
        if Ascii.eqb c "+" then (false, t)
        else if Ascii.eqb c "-" then (true, t)
        else (false, c :: t)
    | [] => (false, [])
    end in
  match ds with
  | [] => 0
  | _ :: _ =>
      match parseUint 0 ds with
      | None => 0
      | Some un =>
          if neg then (if 2 ^ 63 <? un then GoInt.MinInt64 else - un)
          else (if 2 ^ 63 <=? un then GoInt.MaxInt64 else un)
      end
  end.

(** ** The data of cmd/events/main.go *)

Record Line := { Num : Z; Text : string }.

Record HunkDiff := {
  Filename : string;
  OldStart : Z;
  OldEnd : Z;
  Old : list Line;
  NewStart : Z;
  NewEnd : Z;
  New : list Line
}.

(** [hd.New = append(hd.New, ln)] *)
Definition appendNew (ln : Line) (hd : HunkDiff) : HunkDiff :=
  {| Filename := Filename hd;
     OldStart := OldStart hd; OldEnd := OldEnd hd; Old := Old hd;
     NewStart := NewStart hd; NewEnd := NewEnd hd; New := New hd ++ [ln] |}.

(** [hd.Old = append(hd.Old, ln)] *)
Definition appendOld (ln : Line) (hd : HunkDiff) : HunkDiff :=
  {| Filename := Filename hd;
     OldStart := OldStart hd; OldEnd := OldEnd hd; Old := Old hd ++ [ln];
     NewStart := NewStart hd; NewEnd := NewEnd hd; New := New hd |}.

(** ** The diff parser (main.go, lines 154-209)

    The loop over the lines of [git show --unified=1] keeps the current file
    name, the two line cursors and the hunks opened so far.  [hunkDiffs] is a
    slice of pointers, each to a hunk of its own, so a write through
    [hunkDiffs[len(hunkDiffs)-1]] is an update of the last element. *)

Record parser := {
  filename : string;
  oldline : Z;
  newline : Z;
  hunkDiffs : list HunkDiff
}.

Definition parser0 : parser :=
  {| filename := EmptyString; oldline := -1; newline := -1; hunkDiffs := [] |}.

Definition isMetadata (line : string) : bool :=
  HasPrefix line "diff --git" || HasPrefix line "index "
  || HasPrefix line "---" || HasPrefix line "+++".

(** One iteration of the loop, the effect of each [continue] included. *)
Definition step (st : parser) (line : string) : parser :=
  let fileHeader := FindStringSubmatch fileHeaderRx line in
  if (length fileHeader =? 2)%nat then
    (* detect file header *)
    {| filename := fileHeader !!! 1%nat;
       oldline := -1; newline := -1; hunkDiffs := hunkDiffs st |}
  else if (len (filename st) =? 0)%nat then st   (* first file not yet found *)
  else if isMetadata line then st                (* ignore metadata lines *)
  else
    let hunkHeader := FindStringSubmatch hunkHeaderRx line in
    if (length hunkHeader =? 5)%nat then
      let oldstart := Atoi (hunkHeader !!! 1%nat) in
      let oldoff := Atoi (hunkHeader !!! 2%nat) in
      let oldend := GoInt.sub (GoInt.add oldstart oldoff) 1 in
      let newstart := Atoi (hunkHeader !!! 3%nat) in
      let newoff := Atoi (hunkHeader !!! 4%nat) in
      let newend := GoInt.sub (GoInt.add newstart newoff) 1 in
      {| filename := filename st;
         oldline := oldstart; newline := oldend;
         hunkDiffs := hunkDiffs st ++
           [{| Filename := filename st;
               OldStart := oldstart; OldEnd := oldend; Old := [];
               NewStart := newstart; NewEnd := newend; New := [] |}] |}
    else if (length (hunkDiffs st) =? 0)%nat then st  (* first hunk not yet found *)
    else if HasPrefix line "+" then
      {| filename := filename st;
         oldline := oldline st; newline := GoInt.add (newline st) 1;
         hunkDiffs :=
           alter (appendNew {| Num := newline st; Text := line |})
                 (length (hunkDiffs st) - 1)%nat (hunkDiffs st) |}
    else if HasPrefix line "-" then
      {| filename := filename st;
         oldline := GoInt.add (oldline st) 1; newline := newline st;
         hunkDiffs :=
           alter (appendOld {| Num := oldline st; Text := line |})
                 (length (hunkDiffs st) - 1)%nat (hunkDiffs st) |}
    else
      {| filename := filename st;
         oldline := GoInt.add (oldline st) 1;
         newline := GoInt.add (newline st) 1;
         hunkDiffs := hunkDiffs st |}.

Definition parseLines (lines : list string) : parser := foldl step parser0 lines.

(** The hunks of a diff text [b]. *)
Definition parseDiff (b : string) : list HunkDiff :=
  hunkDiffs (parseLines (Split b)).

(** ** Tags *)

Module ctags.

(** Modelled from the spec: the record [ctags.Tag] that [ctags.Parse2]
    returns is declared in a file of the ctags package that is not part of
    the sources at hand; the data model lists its fields as File, Name, Kind,
    Signature (strings) and Line (an integer), which are the fields main.go
    reads. *)
Record Tag := {
  File : string;
  Name : string;
  Kind : string;
  Signature : string;
  Line : Z
}.

End ctags.

Abbreviation Tag := ctags.Tag.

#[global] Instance Tag_inhabited : Inhabited Tag :=
  populate {| ctags.File := EmptyString; ctags.Name := EmptyString;
              ctags.Kind := EmptyString; ctags.Signature := EmptyString;
              ctags.Line := 0 |}.

(** ** Correlation of tags and hunks (main.go, lines 213-246) *)

(** [files]: the file names of the hunks, consecutive repeats dropped. *)
Definition files (hds : list HunkDiff) : list string :=
  foldl (fun fs hd =>
           match last fs with
           | Some f => if String.eqb f (Filename hd) then fs else fs ++ [Filename hd]
           | None => fs ++ [Filename hd]
           end) [] hds.

(** [hunkDiffM[hd.Filename] = append(hunkDiffM[hd.Filename], hd)] for each
    hunk; a missing key reads as the nil slice. *)
Definition hunkDiffM (hds : list HunkDiff) : gmap string (list HunkDiff) :=
  foldl (fun m hd => <[Filename hd := (m !!! Filename hd) ++ [hd]]> m) ∅ hds.

(** The implicit end line of [tags[i]]. *)
Definition endline (tags : list Tag) (i : nat) : Z :=
  if (i + 1 <? length tags)%nat
  then GoInt.sub (ctags.Line (tags !!! (i + 1)%nat)) 1
  else GoInt.MaxInt64.

(** The test of line 240. *)
Definition overlaps (endl : Z) (tag : Tag) (hd : HunkDiff) : bool :=
  negb ((endl <? NewStart hd) || (NewEnd hd <? ctags.Line tag)).

(** The inner loop: the first overlapping hunk appends the tag and breaks. *)
Fixpoint scanHunks (endl : Z) (tag : Tag) (hds : list HunkDiff) : bool :=
  match hds with
  | [] => false
  | hd :: hds' => if overlaps endl tag hd then true else scanHunks endl tag hds'
  end.

(** One round of the outer loop: does the scan of the hunks of
    [tags[i].File] append [&tags[i]]? *)
Definition hit (m : gmap string (list HunkDiff)) (tags : list Tag) (i : nat) : bool :=
  scanHunks (endline tags i) (tags !!! i) (m !!! ctags.File (tags !!! i)).

(** The outer loop.  [changedTags] holds pointers [&tags[i]]; a pointer into
    the slice is the index [i]. *)
Definition changedTags (m : gmap string (list HunkDiff)) (tags : list Tag)
    : list nat :=
  foldl (fun changed i => if hit m tags i then changed ++ [i] else changed)
        [] (List.seq 0%nat (length tags)).

(** ** Events (main.go, lines 211-316) *)

(** The commit data gathered at the top of [Execute] (lines 114-152). *)
Record Commit := {
  remoteURL : string;
  commitURL : string;
  commitHash : string;
  branch : string;
  authorName : string;
  authorFirstName : string;
  authorEmail : string;
  commitTimestamp : Z
}.

(** Modelled from the spec: the event types below are declared in a file of
    package main that is not part of the sources at hand.  The data model
    gives ChangeEvent the fields ID, Title, Body, URL, Type (Modified or
    Referenced) and Time, and SubscriptionUpdate the fields Src and Dsts; the
    composite literals of main.go use the same field names, and wrap each
    event in an [EvtUpdate] with [Hashes] and [Users]. *)
Inductive EvtType := EvtTypeModified | EvtTypeReferenced.

Record Evt := {
  ID : string;
  Title : string;
  Body : string;
  URL : string;
  Type_ : EvtType;
  Time : Z          (* pbtypes.Timestamp{Seconds: ...} *)
}.

Record EvtUpdate := {
  Hashes : list string;
  Users : list string;
  Event : Evt
}.

Record SubUpdate := { Src : string; Dsts : list string }.

Record EvtsPostOpts := {
  Updates : list EvtUpdate;
  SubscriptionUpdates : list SubUpdate
}.

(** The map [ignore] of lines 69-106. *)
Definition ignore : gmap string bool :=
  list_to_map
    ((fun k => (k, true)) <$>
     ["append"; "cap"; "close"; "copy"; "delete"; "image"; "len"; "make";
      "new"; "print"; "panic"; "println"; "real"; "recover"; "bool"; "byte";
      "complex128"; "complex64"; "float32"; "float64"; "int"; "int16";
      "int32"; "int64"; "int8"; "rune"; "string"; "uint"; "uint16"; "uint32";
      "uint64"; "uint8"; "uintptr"; "func"; "TODO"]).

(** [ignore[k]]: a missing key reads as false. *)
Definition ignored (k : string) : bool := default false (ignore !! k).

Definition nl : string := String LF EmptyString.

(** [fmt.Sprintf] with only [%s] verbs and string arguments is the
    concatenation of the pieces. *)
Definition Sprintf (pieces : list string) : string :=
  foldr String.append EmptyString pieces.

(** The two slices [events] and [subscriptions] that the loops append to. *)
Record output := {
  events : list EvtUpdate;
  subscriptions : list SubUpdate
}.

(** [events = append(events, e)] and
    [subscriptions = append(subscriptions, s1, s2)]. *)
Definition emit (o : output) (e : EvtUpdate) (subs : list SubUpdate) : output :=
  {| events := events o ++ [e];
     subscriptions := subscriptions o ++ subs |}.

(** The two subscription updates of an event, lines 260-263, 286-289 and
    308-311. *)
Definition subsFor (c : Commit) (name : string) : list SubUpdate :=
  [{| Src := authorFirstName c; Dsts := [name] |};
   {| Src := authorName c; Dsts := [name] |}].

(** The event of lines 248-259. *)
Definition modifiedEvent (c : Commit) (tag : Tag) : EvtUpdate :=
  {| Hashes := [ctags.Name tag; ctags.File tag; authorFirstName c; authorEmail c];
     Users := [];
     Event :=
       {| ID := Sprintf ["modified:"; ctags.Name tag; ":"; ctags.File tag; ":";
                         commitURL c];
          Title := Sprintf [authorFirstName c; " modified "; ctags.Kind tag; " ";
                            ctags.Name tag; ctags.Signature tag];
          Body := Sprintf [authorFirstName c; " modified <tt>"; ctags.Kind tag;
                           " "; ctags.Name tag; ctags.Signature tag;
                           "</tt> in <tt>"; ctags.File tag;
                           "</tt> on branch <tt>"; branch c;
                           "</tt> in <tt>"; remoteURL c; "</tt>"];
          URL := commitURL c;
          Type_ := EvtTypeModified;
          Time := commitTimestamp c |} |}.

(** Body of the loop of lines 247-264. *)
Definition emitModified (c : Commit) (o : output) (tag : Tag) : output :=
  emit o (modifiedEvent c tag) (subsFor c (ctags.Name tag)).

(** Lines 247-264: one event per pointer in [changedTags]. *)
Definition modifiedEvents (c : Commit) (tags : list Tag) (changed : list nat)
    (o : output) : output :=
  foldl (fun o i => emitModified c o (tags !!! i)) o changed.

(** The event of lines 272-285, for the identifier [tok]. *)
Definition callEvent (c : Commit) (hd : HunkDiff) (newLine : Line) (tok : string)
    : EvtUpdate :=
  {| Hashes := [tok; Filename hd; authorFirstName c; authorEmail c];
     Users := [];
     Event :=
       {| ID := Sprintf ["referenced:"; tok; ":"; Filename hd; ":"; commitURL c];
          Title := Sprintf [authorFirstName c; " referenced "; tok];
          Body := Sprintf [authorFirstName c; " referenced <tt>"; tok;
                           "</tt> in <tt>"; Filename hd;
                           "</tt> on branch <tt>"; branch c;
                           "</tt> in <tt>"; remoteURL c; "</tt>"; nl; nl;
                           "<pre>"; Text newLine; "</pre>"];
          URL := commitURL c;
          Type_ := EvtTypeReferenced;
          Time := commitTimestamp c |} |}.

(** The test of lines 271 and 293. *)
Definition kept (tok : string) : bool := (0 <? len tok)%nat && negb (ignored tok).

(** Body of the loop of lines 269-291, for one element [mt] of
    [functionRx.FindAllStringSubmatch(newLine.Text, -1)]. *)
Definition emitCall (c : Commit) (hd : HunkDiff) (newLine : Line)
    (o : output) (mt : list string) : output :=
  if kept (mt !!! 1%nat)
  then emit o (callEvent c hd newLine (mt !!! 1%nat)) (subsFor c (mt !!! 1%nat))
  else o.

(** The event of lines 294-307, for the text [mt]. *)
Definition reactEvent (c : Commit) (hd : HunkDiff) (newLine : Line) (mt : string)
    : EvtUpdate :=
  {| Hashes := [mt; Filename hd];
     Users := [];
     Event :=
       {| ID := Sprintf ["referenced(react):"; mt; ":"; Filename hd; ":";
                         commitURL c];
          Title := Sprintf [authorFirstName c; " used React component "; mt];
          Body := Sprintf [authorFirstName c; " used React component <tt>"; mt;
                           "</tt> in <tt>"; Filename hd;
                           "</tt> on branch <tt>"; branch c;
                           "</tt> in <tt>"; remoteURL c; "</tt>"; nl; nl;
                           "<pre>"; Text newLine; "</pre>"];
          URL := commitURL c;
          Type_ := EvtTypeReferenced;
          Time := commitTimestamp c |} |}.

(** Body of the loop of lines 292-313, for one element [mt] of the slice
    [typescriptRx.FindStringSubmatch(newLine.Text)]. *)
Definition emitReact (c : Commit) (hd : HunkDiff) (newLine : Line)
    (o : output) (mt : string) : output :=
  if kept mt then emit o (reactEvent c hd newLine mt) (subsFor c mt) else o.

(** Lines 268-314, for one added line of one hunk. *)
Definition scanLine (c : Commit) (hd : HunkDiff) (o : output) (newLine : Line)
    : output :=
  let o1 := foldl (emitCall c hd newLine) o
                  (FindAllStringSubmatch functionRx (Text newLine)) in
  foldl (emitReact c hd newLine) o1
        (FindStringSubmatch typescriptRx (Text newLine)).

(** Lines 266-316. *)
Definition referenceEvents (c : Commit) (hds : list HunkDiff) (o : output)
    : output :=
  foldl (fun o hd => foldl (scanLine c hd) o (New hd)) o hds.

(** The assembly of events from the tags found changed and the hunks. *)
Definition assemble (c : Commit) (tags : list Tag) (changed : list nat)
    (hds : list HunkDiff) : EvtsPostOpts :=
  let o := referenceEvents c hds
             (modifiedEvents c tags changed
                {| events := []; subscriptions := [] |}) in
  {| Updates := events o; SubscriptionUpdates := subscriptions o |}.

(** [Execute] from the diff text on, given the commit data and the tags as
    [sort.Sort] left them. *)
Definition Execute (c : Commit) (b : string) (sorted : list Tag) : EvtsPostOpts :=
  let hds := parseDiff b in
  assemble c sorted (changedTags (hunkDiffM hds) sorted) hds.

(** * Notions used to state the properties, and sample inputs *)

(** [prefers r w rest c c'] says that on input [w ++ rest] the search takes
    [w] for [r] before anything else and leaves the captures [c']: whenever
    the rest of the pattern succeeds from there, that is the result. *)
Definition prefers (r : regex) (w rest : bytes) (c c' : captures) : Prop :=
  ∀ (R : Type) (k : bytes → captures → option R) (res : R),
    k rest c' = Some res → exec r (w ++ rest) c k = Some res.

(** The input left does not begin with an ASCII byte of the class [p]. *)
Definition stops (p : ascii → bool) (rest : bytes) : Prop :=
  match rest with
  | [] => True
  | x :: _ => (utf8.isASCII x && p x) = false ∨ utf8.isASCII x = false
  end.

(** A non-empty text of decimal digits, what [[0-9]+] captures. *)
Definition digits (s : string) : Prop :=
  s ≠ EmptyString ∧ Forall (fun x => isDigit x = true) (toBytes s).

(** Decimal digits read after the number [acc]; [None] for another byte. *)
Fixpoint decimal (acc : Z) (s : bytes) : option Z :=
  match s with
  | [] => Some acc
  | c :: s' => if isDigit c then decimal (10 * acc + digitVal c) s' else None
  end.

(** The number a text of digits denotes. *)
Definition value (s : string) : Z := default 0 (decimal 0 (toBytes s)).

(** The text of a hunk header with the four numbers [a], [b], [c], [d]. *)
Definition hunkHeaderText (a b c d : string) : string :=
  Sprintf ["@@ -"; a; ","; b; " +"; c; ","; d; " @@"].

(** [hunkHeaderRx] finds in [line] the hunk header [@@ -a,b +c,d @@]: what
    the parser takes for a hunk header, and with which numbers. *)
Definition headerOf (line a b c d : string) : Prop :=
  digits a ∧ digits b ∧ digits c ∧ digits d ∧
  FindStringSubmatch hunkHeaderRx line = [hunkHeaderText a b c d; a; b; c; d] ∧
  ∃ pre post, line = pre +:+ hunkHeaderText a b c d +:+ post.

(** The parser state after a hunk header line. *)
Definition opened (st : parser) (a b c d : string) : parser :=
  let oldend := GoInt.sub (GoInt.add (Atoi a) (Atoi b)) 1 in
  let newend := GoInt.sub (GoInt.add (Atoi c) (Atoi d)) 1 in
  {| filename := filename st;
     oldline := Atoi a; newline := oldend;
     hunkDiffs := hunkDiffs st ++
       [{| Filename := filename st;
           OldStart := Atoi a; OldEnd := oldend; Old := [];
           NewStart := Atoi c; NewEnd := newend; New := [] |}] |}.

(** A parser state inside the file a.go, no hunk opened yet. *)
Definition stA : parser :=
  {| filename := "a.go"; oldline := -1; newline := -1; hunkDiffs := [] |}.

(** [matches r w c c'] says that the text [w] is in the language of [r], and
    that reading it turns the captures [c] into [c']. *)
Inductive matches : regex → bytes → captures → captures → Prop :=
| M_Eps c : matches Eps [] c c
| M_Lit a c : matches (Lit a) [a] c c
| M_Class p wide x c :
    utf8.isASCII x = true → p x = true → matches (Class p wide) [x] c c
| M_Wide p x w c :
    utf8.isASCII x = false → matches (Class p true) (x :: w) c c
| M_Cat r1 r2 w1 w2 c c1 c2 :
    matches r1 w1 c c1 → matches r2 w2 c1 c2 →
    matches (Cat r1 r2) (w1 ++ w2) c c2
| M_Star_nil r c : matches (Star r) [] c c
| M_Star_cons r w1 w2 c c1 c2 :
    w1 ≠ [] → matches r w1 c c1 → matches (Star r) w2 c1 c2 →
    matches (Star r) (w1 ++ w2) c c2
| M_Cap i r w c c' :
    matches r w c c' → matches (Cap i r) w c (<[i := w]> c').

(** What [exec] promises for a pattern: a success comes from a match of a
    prefix of the input followed by a success of the continuation. *)
Definition sound_on (r : regex) : Prop :=
  ∀ (R : Type) (s : bytes) (c : captures) (k : bytes → captures → option R) res,
    exec r s c k = Some res →
    ∃ w s' c', s = w ++ s' ∧ matches r w c c' ∧ k s' c' = Some res.

(** The captures a search starts from. *)
Definition noCaptures (r : regex) : captures := replicate (S (NumSubexp r)) [].

(** A pattern without groups. *)
Fixpoint capFree (r : regex) : bool :=
  match r with
  | Eps | Lit _ | Class _ _ => true
  | Cat r1 r2 => capFree r1 && capFree r2
  | Star r1 => capFree r1
  | Cap _ _ => false
  end.

(** A line the loop skips as metadata. *)
Definition skipped (l : string) : Prop :=
  FindStringSubmatch fileHeaderRx l = [] ∧ isMetadata l = true.

(** A line that is neither a header nor metadata. *)
Definition content (l : string) : Prop :=
  FindStringSubmatch fileHeaderRx l = [] ∧ isMetadata l = false ∧
  FindStringSubmatch hunkHeaderRx l = [].

(** A diff in which a line [+x] follows the header of b.go and one more
    line, before any hunk header of b.go. *)
Definition strayLines : list string :=
  ["diff --git a/a.go b/a.go"; "@@ -1,1 +1,1 @@";
   "diff --git a/b.go b/b.go"; "new file mode 100644"; "+x"].

(** A diff in which the line [+++ b/b.go] follows the header of b.go. *)
Definition metadataLines : list string :=
  ["diff --git a/a.go b/a.go"; "@@ -1,1 +1,1 @@";
   "diff --git a/b.go b/b.go"; "+++ b/b.go"].

(** The tags and the hunk of the first scenario of the design document,
    and a tag of another file between them. *)
Definition tagFoo : Tag :=
  {| ctags.File := "a.go"; ctags.Name := "Foo"; ctags.Kind := "func";
     ctags.Signature := "()"; ctags.Line := 9 |}.

Definition tagBar : Tag :=
  {| ctags.File := "a.go"; ctags.Name := "Bar"; ctags.Kind := "func";
     ctags.Signature := "()"; ctags.Line := 15 |}.

Definition tagOther : Tag :=
  {| ctags.File := "b.go"; ctags.Name := "Other"; ctags.Kind := "func";
     ctags.Signature := "()"; ctags.Line := 12 |}.

Definition hunkA : HunkDiff :=
  {| Filename := "a.go"; OldStart := 10; OldEnd := 10; Old := [];
     NewStart := 10; NewEnd := 12; New := [] |}.

(** Line numbers that leave room for [Line - 1]. *)
Definition linesInRange (tags : list Tag) : Prop :=
  ∀ i t, tags !! i = Some t → GoInt.MinInt64 < ctags.Line t ≤ GoInt.MaxInt64.

(** Two tags of one file at the same line. *)
Definition tieA : Tag :=
  {| ctags.File := "a.go"; ctags.Name := "A"; ctags.Kind := "func";
     ctags.Signature := "()"; ctags.Line := 5 |}.

Definition tieB : Tag :=
  {| ctags.File := "a.go"; ctags.Name := "B"; ctags.Kind := "func";
     ctags.Signature := "()"; ctags.Line := 5 |}.

(** What one element of the call-like matches adds. *)
Definition callHits (c : Commit) (hd : HunkDiff) (ln : Line) (mt : list string)
    : list EvtUpdate :=
  if kept (mt !!! 1%nat) then [callEvent c hd ln (mt !!! 1%nat)] else [].

Definition callSubs (c : Commit) (mt : list string) : list SubUpdate :=
  if kept (mt !!! 1%nat) then subsFor c (mt !!! 1%nat) else [].

(** What one element of the slice of the tag-like match adds. *)
Definition reactHits (c : Commit) (hd : HunkDiff) (ln : Line) (mt : string)
    : list EvtUpdate :=
  if kept mt then [reactEvent c hd ln mt] else [].

Definition reactSubs (c : Commit) (mt : string) : list SubUpdate :=
  if kept mt then subsFor c mt else [].

(** The events and subscription updates of one added line, of the hunks. *)
Definition lineEvents (c : Commit) (hd : HunkDiff) (ln : Line) : list EvtUpdate :=
  (FindAllStringSubmatch functionRx (Text ln) ≫= callHits c hd ln) ++
  (FindStringSubmatch typescriptRx (Text ln) ≫= reactHits c hd ln).

Definition lineSubs (c : Commit) (ln : Line) : list SubUpdate :=
  (FindAllStringSubmatch functionRx (Text ln) ≫= callSubs c) ++
  (FindStringSubmatch typescriptRx (Text ln) ≫= reactSubs c).

Definition refEvents (c : Commit) (hds : list HunkDiff) : list EvtUpdate :=
  hds ≫= (fun hd => New hd ≫= lineEvents c hd).

Definition refSubs (c : Commit) (hds : list HunkDiff) : list SubUpdate :=
  hds ≫= (fun hd => New hd ≫= lineSubs c).

(** The data of a commit. *)
Definition commit0 : Commit :=
  {| remoteURL := "github.com/o/r";
     commitURL := "https://github.com/o/r/commit/abc";
     commitHash := "abc"; branch := "master";
     authorName := "Ada Lovelace"; authorFirstName := "Ada";
     authorEmail := "ada@example.org"; commitTimestamp := 1 |}.

(** The same commit seen with other data around it. *)
Definition commit1 : Commit :=
  {| remoteURL := "example.org/o/r";
     commitURL := "https://github.com/o/r/commit/abc";
     commitHash := "abc"; branch := "main";
     authorName := "Ada Lovelace"; authorFirstName := "Ada";
     authorEmail := "ada@example.com"; commitTimestamp := 2 |}.

(** A diff of a.tsx that adds the line [<Foo>]. *)
Definition diffReact : string :=
  Sprintf ["diff --git a/a.tsx b/a.tsx"; nl; "@@ -1,1 +1,2 @@"; nl; " ctx"; nl;
           "+<Foo>"].

(** A diff of a.go that adds two lines with calls. *)
Definition diffCalls : string :=
  Sprintf ["diff --git a/a.go b/a.go"; nl; "index 1..2 100644"; nl;
           "--- a/a.go"; nl; "+++ b/a.go"; nl; "@@ -10,1 +10,3 @@"; nl;
           " ctx"; nl; "+doStuff(x, y)"; nl; "+x := make([]int, 0)"; nl].

(** The form of an event ID with one of the kinds [kinds]. *)
Definition idForm (kinds : list string) (c : Commit) (id : string) : Prop :=
  ∃ kind subject file,
    kind ∈ kinds ∧ id = Sprintf [kind; ":"; subject; ":"; file; ":"; commitURL c].

(** The lines a hunk holds: added lines begin with [+], removed lines with
    [-]; context lines are not kept. *)
Definition wellMarked (hd : HunkDiff) : Prop :=
  Forall (fun ln => HasPrefix (Text ln) "+" = true) (New hd) ∧
  Forall (fun ln => HasPrefix (Text ln) "-" = true) (Old hd).

(** * More notions, for the properties beyond the design document *)

(** The texts of the added (removed) lines of the hunks, in order. *)
Definition addedTexts (hds : list HunkDiff) : list string :=
  hds ≫= (fun hd => Text <$> New hd).

Definition removedTexts (hds : list HunkDiff) : list string :=
  hds ≫= (fun hd => Text <$> Old hd).

(** The line is taken for a hunk header. *)
Definition hunkHeaderLine (l : string) : bool :=
  (length (FindStringSubmatch hunkHeaderRx l) =? 5)%nat.

(** What a hunk is opened with: its file name and its four numbers. *)
Definition headOf (hd : HunkDiff) : string * Z * Z * Z * Z :=
  (Filename hd, OldStart hd, OldEnd hd, NewStart hd, NewEnd hd).

(** The lines numbered from [n] on. *)
Definition numbered (n : Z) (ls : list string) : list Line :=
  imap (fun j l => {| Num := n + Z.of_nat j; Text := l |}) ls.

(** The subject of an event: the first of its hashes. *)
Definition subject (e : EvtUpdate) : string := Hashes e !!! 0%nat.

(** ** [tagSorter] (main.go, lines 321-333)

    The three methods [sort.Sort] drives.  An index outside the slice makes
    Go panic; that is [None] here. *)

(** [t.tags[i]] *)
Definition tagAt (tags : list Tag) (i : Z) : option Tag :=
  if i <? 0 then None else tags !! Z.to_nat i.

Module tagSorter.

Definition Len (tags : list Tag) : Z := Z.of_nat (length tags).

Definition Less (tags : list Tag) (i j : Z) : option bool :=
  a ← tagAt tags i; b ← tagAt tags j; Some (ctags.Line a <? ctags.Line b).

(** [t.tags[i], t.tags[j] = t.tags[j], t.tags[i]]: both elements are read,
    then both are written. *)
Definition Swap (tags : list Tag) (i j : Z) : option (list Tag) :=
  a ← tagAt tags i; b ← tagAt tags j;
  Some (<[Z.to_nat j := a]> (<[Z.to_nat i := b]> tags)).

End tagSorter.

(** A run of calls of [Swap], as [sort.Sort] makes them. *)
Definition swapAll (tags : list Tag) (ijs : list (Z * Z)) : option (list Tag) :=
  foldl (fun o ij => tags' ← o; tagSorter.Swap tags' ij.1 ij.2) (Some tags) ijs.

(** ** Notions and sample inputs for the order of the tags, the cursors and
    the event IDs *)


(** A hunk of a.go with the new range [20,22]. *)
Definition hunkB : HunkDiff :=
  {| Filename := "a.go"; OldStart := 20; OldEnd := 20; Old := [];
     NewStart := 20; NewEnd := 22; New := [] |}.

(** The head of a diff of a.go whose hunk is of the lines 10 and 11 of the
    old file and 20 to 22 of the new one, as after ten lines were added
    further up. *)
Definition shiftedHeader : list string :=
  ["diff --git a/a.go b/a.go"; "@@ -10,2 +20,3 @@"].

(** The ID [<kind>:<subject>:<file>:<commitURL>]. *)
Definition eventID (c : Commit) (kind subject file : string) : string :=
  Sprintf [kind; ":"; subject; ":"; file; ":"; commitURL c].

(** The identifiers of the call-like references of a line: group 1 of each
    match of [functionRx], when it passes the test of line 271. *)
Definition callTokens (text : string) : list string :=
  List.filter kept
    ((fun mt => mt !!! 1%nat) <$> FindAllStringSubmatch functionRx text).

(** The texts of the tag-like references of a line: the elements of the
    slice [typescriptRx.FindStringSubmatch] returns that pass the test of
    line 293. *)
Definition markupTokens (text : string) : list string :=
  List.filter kept (FindStringSubmatch typescriptRx text).

(** A tag of a.tsx, and a diff of a.tsx that changes it and adds a call
    and a component. *)
Definition tagView : Tag :=
  {| ctags.File := "a.tsx"; ctags.Name := "View"; ctags.Kind := "func";
     ctags.Signature := "()"; ctags.Line := 9 |}.

Definition diffKinds : string :=
  Sprintf ["diff --git a/a.tsx b/a.tsx"; nl; "@@ -9,1 +9,3 @@"; nl; " ctx"; nl;
           "+doStuff(x)"; nl; "+<Foo>"].

(** A diff of a.tsx that adds the line [<TODO>], and one that adds the line
    [TODO(x)]. *)
Definition diffTodo : string :=
  Sprintf ["diff --git a/a.tsx b/a.tsx"; nl; "@@ -1,1 +1,2 @@"; nl; " ctx"; nl;
           "+<TODO>"].

Definition diffTodoCall : string :=
  Sprintf ["diff --git a/a.tsx b/a.tsx"; nl; "@@ -1,1 +1,2 @@"; nl; " ctx"; nl;
           "+TODO(x)"].

(** * The rest of Go's library that the code calls

    As before, each function is Go's on the inputs this program gives it. *)

(** ** Runes: [unicode/utf8] and [unicode.IsSpace] *)

Module rune.

Definition RuneError : Z := 65533.

Definition byteVal (c : ascii) : Z := Z.of_N (utf8.code c).

(** [utf8.DecodeRuneInString]: the rune at the head and its width; an
    invalid or cut encoding is [RuneError] of width 1, the empty text
    [RuneError] of width 0. *)
Definition DecodeRune (s : bytes) : Z * nat :=
  match utf8.runeLen s, s with
  | 1%nat, c0 :: _ =>
      if utf8.isASCII c0 then (byteVal c0, 1%nat) else (RuneError, 1%nat)
  | 2%nat, c0 :: c1 :: _ =>
      (Z.land (byteVal c0) 31 * 64 + Z.land (byteVal c1) 63, 2%nat)
  | 3%nat, c0 :: c1 :: c2 :: _ =>
      (Z.land (byteVal c0) 15 * 4096 + Z.land (byteVal c1) 63 * 64
       + Z.land (byteVal c2) 63, 3%nat)
  | 4%nat, c0 :: c1 :: c2 :: c3 :: _ =>
      (Z.land (byteVal c0) 7 * 262144 + Z.land (byteVal c1) 63 * 4096
       + Z.land (byteVal c2) 63 * 64 + Z.land (byteVal c3) 63, 4%nat)
  | n, _ => (RuneError, n)
  end.

(** [utf8.RuneStart]: not a continuation byte. *)
Definition RuneStart (c : ascii) : bool := negb (utf8.isCont c).

(** The loop of [DecodeLastRuneInString] that walks back from [start] to a
    byte that can start a rune, not beyond [lim]; it runs at most four
    times. *)
Fixpoint scanBack (n : nat) (s : bytes) (lim start : Z) : Z :=
  match n with
  | O => start
  | S n' =>
      if start <? lim then start
      else match s !! Z.to_nat start with
           | Some c => if RuneStart c then start else scanBack n' s lim (start - 1)
           | None => start
           end
  end.

(** [utf8.DecodeLastRuneInString] *)
Definition DecodeLastRune (s : bytes) : Z * nat :=
  match last s with
  | None => (RuneError, 0%nat)
  | Some c =>
      if utf8.isASCII c then (byteVal c, 1%nat)
      else
        let end_ := Z.of_nat (length s) in
        let lim := Z.max 0 (end_ - 4) in
        let start := Z.max 0 (scanBack 4 s lim (end_ - 2)) in
        let '(r, size) := DecodeRune (drop (Z.to_nat start) s) in
        if start + Z.of_nat size =? end_ then (r, size) else (RuneError, 1%nat)
  end.

(** [unicode.IsSpace] *)
Definition IsSpace (r : Z) : bool :=
  (9 <=? r) && (r <=? 13) || (r =? 32) || (r =? 133) || (r =? 160)
  || (r =? 5760) || (8192 <=? r) && (r <=? 8202) || (r =? 8232) || (r =? 8233)
  || (r =? 8239) || (r =? 8287) || (r =? 12288).

End rune.

(** ** [strings] *)

(** [s[lo:hi]] and [s[lo:]] for indices inside the text. *)
Definition slice (s : string) (lo hi : Z) : string :=
  ofBytes (take (Z.to_nat (hi - lo)) (drop (Z.to_nat lo) (toBytes s))).

Definition sliceFrom (s : string) (lo : Z) : string :=
  ofBytes (drop (Z.to_nat lo) (toBytes s)).

Fixpoint hasPrefixB (s p : bytes) : bool :=
  match p, s with
  | [], _ => true
  | c :: p', d :: s' => Ascii.eqb c d && hasPrefixB s' p'
  | _ :: _, [] => false
  end.

(** [strings.Index] from position [i] on: the first position where [sub]
    begins, or -1. *)
Fixpoint indexFrom (sub s : bytes) (i : Z) : Z :=
  if hasPrefixB s sub then i
  else match s with
       | [] => -1
       | _ :: s' => indexFrom sub s' (i + 1)
       end.

Definition Index (s sub : string) : Z := indexFrom (toBytes sub) (toBytes s) 0.

(** [strings.HasSuffix] *)
Definition HasSuffix (s suffix : string) : bool :=
  hasPrefixB (rev (toBytes s)) (rev (toBytes suffix)).

(** [strings.Split(s, sep)] for a separator that is not empty: the pieces
    between the occurrences of [sep], found from left to right, none
    overlapping another.  [skip] counts the bytes of an occurrence still to
    pass over. *)
Fixpoint splitSep (sep : bytes) (skip : nat) (cur : bytes) (s : bytes)
    : list string :=
  match s with
  | [] => [ofBytes (rev cur)]
  | c :: s' =>
      match skip with
      | S k => splitSep sep k cur s'
      | O =>
          if hasPrefixB s sep
          then ofBytes (rev cur) :: splitSep sep (length sep - 1) [] s'
          else splitSep sep 0 (c :: cur) s'
      end
  end.

Definition SplitSep (s sep : string) : list string :=
  splitSep (toBytes sep) 0 [] (toBytes s).

(** [strings.TrimRight(s, cutset)] for a cutset of ASCII bytes: the bytes of
    the cutset are cut off the end. *)
Fixpoint dropWhile {A} (p : A → bool) (l : list A) : list A :=
  match l with
  | [] => []
  | x :: l' => if p x then dropWhile p l' else l
  end.

Definition TrimRight (s cutset : string) : string :=
  ofBytes (rev (dropWhile (fun c => bool_decide (c ∈ toBytes cutset))
                          (rev (toBytes s)))).

(** [strings.TrimLeftFunc(s, unicode.IsSpace)]: [indexFunc] looks, rune by
    rune, for the first rune that is not a space. *)
Fixpoint trimLeftSpace (fuel : nat) (s : bytes) : bytes :=
  match fuel, s with
  | S fuel', _ :: _ =>
      let '(r, size) := rune.DecodeRune s in
      if rune.IsSpace r then trimLeftSpace fuel' (drop size s) else s
  | _, _ => []
  end.

(** [lastIndexFunc(s, unicode.IsSpace, false)]: from the end [i], rune by
    rune backwards, the start of the last rune that is not a space, or -1. *)
Fixpoint lastIndexNotSpace (fuel : nat) (s : bytes) (i : nat) : Z :=
  match fuel, i with
  | S fuel', S _ =>
      let '(r, size) := rune.DecodeLastRune (take i s) in
      if rune.IsSpace r then lastIndexNotSpace fuel' s (i - size)
      else Z.of_nat (i - size)
  | _, _ => -1
  end.

(** [strings.TrimRightFunc(s, unicode.IsSpace)] *)
Definition trimRightSpace (s : bytes) : bytes :=
  let i := lastIndexNotSpace (length s) s (length s) in
  let i' :=
    match (if i <? 0 then None else s !! Z.to_nat i) with
    | Some c =>
        if utf8.isASCII c then i + 1
        else i + Z.of_nat (snd (rune.DecodeRune (drop (Z.to_nat i) s)))
    | None => i + 1
    end in
  take (Z.to_nat i') s.

(** [strings.TrimSpace] *)
Definition TrimSpace (s : string) : string :=
  let b := toBytes s in
  ofBytes (trimRightSpace (trimLeftSpace (length b) b)).

(** [strings.Fields]: the maximal runs of runes that are not spaces.  [cur]
    is the run being read, if any, last byte first. *)
Fixpoint fields (fuel : nat) (cur : option bytes) (s : bytes) : list string :=
  match fuel, s with
  | S fuel', _ :: _ =>
      let '(r, size) := rune.DecodeRune s in
      if rune.IsSpace r then
        match cur with
        | Some w => ofBytes (rev w) :: fields fuel' None (drop size s)
        | None => fields fuel' None (drop size s)
        end
      else
        fields fuel' (Some (rev (take size s) ++ default [] cur)) (drop size s)
  | _, _ => match cur with Some w => [ofBytes (rev w)] | None => [] end
  end.

Definition Fields (s : string) : list string :=
  fields (len s) None (toBytes s).

(** [strings.Replace(s, old, new, n)] for an [old] that is not empty: the
    first [n] occurrences of [old], all of them when [n] is negative, found
    from left to right, none overlapping another.  [skip] counts the bytes
    of an occurrence still to pass over. *)
Fixpoint replaceGo (old new : bytes) (n : Z) (skip : nat) (s : bytes) : bytes :=
  match s with
  | [] => []
  | c :: s' =>
      match skip with
      | S k => replaceGo old new n k s'
      | O =>
          if negb (n =? 0) && hasPrefixB s old
          then new ++ replaceGo old new (if n <? 0 then n else n - 1)
                                (length old - 1) s'
          else c :: replaceGo old new n 0 s'
      end
  end.

Definition Replace (s old new : string) (n : Z) : string :=
  ofBytes (replaceGo (toBytes old) (toBytes new) n 0 (toBytes s)).

(** [strconv.Atoi] and [strconv.ParseInt(s, 10, 0)] return an error
    ([true] here) for a text that is not an optional sign and digits, and
    for a number that does not fit an [int]. *)
Definition AtoiErr (s : string) : bool :=
  let '(neg, ds) :=
    match toBytes s with
    | c :: t =>
        if Ascii.eqb c "+" then (false, t)
        else if Ascii.eqb c "-" then (true, t)
        else (false, c :: t)
    | [] => (false, [])
    end in
  match ds with
  | [] => true
  | _ :: _ =>
      match parseUint 0 ds with
      | None => true
      | Some un => if neg then 2 ^ 63 <? un else 2 ^ 63 <=? un
      end
  end.

(** * The ETags reader (package ctags: [ETagsParser])

    The reader of the tags tables that [ctags -e] writes: a file line
    [name,size] opens the symbols of a file, a symbol line
    [def\x7fname\x01line,offset] gives one of them. *)

From stdpp Require Import pretty.
Local Open Scope Z_scope.

Module etags.

Record ETag := {
  File : string;
  Def : string;
  Name : string;
  Line : Z;
  ByteOff : Z
}.

Definition sepTag : string := String (ascii_of_nat 127) EmptyString.
Definition sepPos : string := String (ascii_of_nat 1) EmptyString.
Definition sepCol : string := ",".

(** The type [Config] is not among the sources.  The code calls one method
    of it, [Lang], from a file name to the name of a language; it is taken
    here as any function. *)
Record Config := { Lang : string → string }.

(** The parser as [NewParser] makes it: [langFiles] is a map that has been
    made, so that writing to it does not panic. *)
Record ETagsParser := {
  config : Config;
  tags : list ETag;
  langFiles : gmap string (list string);
  curFile : string
}.

(** [NewParser()], for the configuration [cfg] that [getConfig], which is
    not among the sources either, returns with no error. *)
Definition NewParser (cfg : Config) : ETagsParser :=
  {| config := cfg; tags := []; langFiles := ∅; curFile := EmptyString |}.

(** The errors of [parseLine], one for each [fmt.Errorf] of it, with the
    line it quotes. *)
Inductive error :=
| ErrFormat (line : string)     (* unrecognized format *)
| ErrSize (line : string)       (* the size of a file line is no number *)
| ErrNoPos (line : string)      (* could not find character U+0001 *)
| ErrNoCol (line : string)      (* could not find character "," *)
| ErrLineNo (line : string)     (* could not parse line number *)
| ErrByteOff (line : string).   (* could not parse byte offset *)

(** [p.Tags()] *)
Definition Tags (p : ETagsParser) : list ETag := tags p.

(** [p.parseLine(line)]: the error, or the parser as the call leaves it.  A
    call that returns an error has changed nothing. *)
Definition parseLine (p : ETagsParser) (line : string) : error + ETagsParser :=
  if (len (TrimSpace line) =? 0)%nat || HasPrefix line "!" then inr p
  else
    let nameIdx := Index line sepTag in
    if nameIdx <? 0 then
      (* File line *)
      let cmps := SplitSep line "," in
      if negb (length cmps =? 2)%nat then inl (ErrFormat line)
      else if AtoiErr (cmps !!! 1%nat) then inl (ErrSize line)
      else
        let file := cmps !!! 0%nat in
        let lang := Lang (config p) file in
        inr {| config := config p; tags := tags p;
               langFiles :=
                 <[lang := default [] (langFiles p !! lang) ++ [file]]>
                   (langFiles p);
               curFile := file |}
    else
      (* Symbol line *)
      let lineNoIdx_ := Index (sliceFrom line nameIdx) sepPos in
      if lineNoIdx_ <? 0 then inl (ErrNoPos line)
      else
        let lineNoIdx := nameIdx + lineNoIdx_ in
        let colIdx_ := Index (sliceFrom line lineNoIdx) sepCol in
        if colIdx_ <? 0 then inl (ErrNoCol line)
        else
          let colIdx := lineNoIdx + colIdx_ in
          if AtoiErr (slice line (lineNoIdx + 1) colIdx) then inl (ErrLineNo line)
          else if AtoiErr (sliceFrom line (colIdx + 1)) then inl (ErrByteOff line)
          else
            inr {| config := config p;
                   tags := tags p ++
                     [{| File := curFile p;
                         Def := slice line 0 nameIdx;
                         Name := slice line (nameIdx + 1) lineNoIdx;
                         Line := Atoi (slice line (lineNoIdx + 1) colIdx);
                         ByteOff := Atoi (sliceFrom line (colIdx + 1)) |}];
                   langFiles := langFiles p;
                   curFile := curFile p |}.

(** What [r.ReadString('\n')] returns with a nil error, call after call, on
    a reader of the text [s]: the lines that end in a newline, each with
    its newline.  A rest without a newline comes with [io.EOF]; [cur] is
    the line being read, last byte first. *)
Fixpoint readStrings (cur : bytes) (s : bytes) : list string :=
  match s with
  | [] => []
  | c :: s' =>
      if Ascii.eqb c LF then ofBytes (rev (c :: cur)) :: readStrings [] s'
      else readStrings (c :: cur) s'
  end.

Definition CRLF : string := String (ascii_of_nat 13) nl.

(** The loop of [Parse]: the parser as it is when the loop ends, and the
    error returned, if any. *)
Fixpoint parseAll (p : ETagsParser) (lines : list string)
    : ETagsParser * option error :=
  match lines with
  | [] => (p, None)
  | line :: lines' =>
      match parseLine p (TrimRight line CRLF) with
      | inl e => (p, Some e)
      | inr p' => parseAll p' lines'
      end
  end.

(** [p.Parse(r)] for a reader of the text [input] that fails with [io.EOF]
    at the end and not before. *)
Definition Parse (p : ETagsParser) (input : string) : ETagsParser * option error :=
  parseAll {| config := config p; tags := tags p; langFiles := langFiles p;
              curFile := EmptyString |}
           (readStrings [] (toBytes input)).

(** [langUnitType] *)
Definition langUnitType (lang : string) : string := "PipPackage".

(** The type [Def] is not among the sources either: these are the fields
    that [Defs] gives a value, under the names of the code but for
    [DefName] and [DefFile], which are the fields [Name] and [File], and
    [Typ], which is [Type]. *)
Record DefKey := { UnitType : string; Unit : string; Path : string }.

Record DefFormatData := {
  FmtName : string;
  Keyword : string;
  Typ : string;
  Kind : string;
  Separator : string
}.

Record Def_ := {
  Key : DefKey;
  DefName : string;
  DefFile : string;
  DefStart : Z;
  DefEnd : Z;
  Exported : bool;
  Local_ : bool;
  Data : option DefFormatData
}.

(** [uint32(x)] *)
Definition uint32 (x : Z) : Z := x `mod` 2 ^ 32.

(** [defFormatDataFromTag(tag)]; [None] is the nil pointer. *)
Definition defFormatDataFromTag (tag : ETag) : option DefFormatData :=
  let nameIdx := Index (Def tag) (Name tag) in
  if nameIdx <? 0 then None
  else
    let keyword := TrimSpace (slice (Def tag) 0 nameIdx) in
    let typ := sliceFrom (Def tag) (nameIdx + Z.of_nat (len (Name tag))) in
    let '(sep, typ) :=
      match toBytes typ with
      | c :: _ =>
          if Ascii.eqb c ":" then (slice typ 0 1, TrimSpace (sliceFrom typ 1))
          else (EmptyString, typ)
      | [] => (EmptyString, typ)
      end in
    Some {| FmtName := Name tag; Keyword := keyword; Typ := typ;
            Kind := keyword; Separator := sep |}.

(** The map [fileDefNames] as the first loop of [Defs] leaves it: an empty
    map for each file of [langFiles].  The order in which Go walks over
    [langFiles] makes no difference to it. *)
Definition fileDefNames0 (p : ETagsParser) : gmap string (gmap string Z) :=
  foldr (fun file m => <[file := ∅]> m) ∅
        (map_to_list (langFiles p) ≫= snd).

(** One turn of the second loop of [Defs]; [None] is a panic: line 83
    writes to [fileDefNames[tag.File]], and that is a nil map when the file
    is not in [langFiles]. *)
Definition defsStep (p : ETagsParser)
    (st : option (gmap string (gmap string Z) * list Def_)) (tag : ETag)
    : option (gmap string (gmap string Z) * list Def_) :=
  '(fileDefNames, defs) ← st;
  let n := default 0 (fileDefNames !! File tag ≫= fun m => m !! Name tag) in
  let name := Sprintf [Name tag; "$"; pretty n] in
  m ← fileDefNames !! File tag;
  let fileDefNames' :=
    <[File tag := <[Name tag := GoInt.add n 1]> m]> fileDefNames in
  let nameIdx := Index (Def tag) (Name tag) in
  if nameIdx <? 0 then Some (fileDefNames', defs)
  else
    let defStart := GoInt.add (ByteOff tag) nameIdx in
    let defEnd := GoInt.add defStart (Z.of_nat (len (Name tag))) in
    Some (fileDefNames',
          defs ++
          [{| Key := {| UnitType := langUnitType (Lang (config p) (File tag));
                        Unit := ".";
                        Path := Sprintf [File tag; ":"; name] |};
              DefName := Name tag;
              DefFile := File tag;
              DefStart := uint32 defStart;
              DefEnd := uint32 defEnd;
              Exported := true;
              Local_ := false;
              Data := defFormatDataFromTag tag |}]).

(** [p.Defs()] *)
Definition Defs (p : ETagsParser) : option (list Def_) :=
  snd <$> foldl (defsStep p) (Some (fileDefNames0 p, [])) (Tags p).

End etags.

(** ** Notions for the tags reader *)

(** An ASCII byte that is not white space. *)
Definition ink (c : ascii) : bool :=
  utf8.isASCII c && negb (rune.IsSpace (rune.byteVal c)).

(** The text has no byte [c]. *)
Definition lacks (c : ascii) (s : string) : Prop := c ∉ toBytes s.

(** The bytes [0x7f] and [0x01] that part a symbol line. *)
Definition DEL : ascii := ascii_of_nat 127.
Definition SOH : ascii := ascii_of_nat 1.

(** A symbol line and a file line of a tags table. *)
Definition symbolLine (def name lineNo byteOff : string) : string :=
  Sprintf [def; etags.sepTag; name; etags.sepPos; lineNo; etags.sepCol; byteOff].

Definition fileLine (file size : string) : string :=
  Sprintf [file; ","; size].

(** The parser after a file line of [file], and after a symbol line that
    gives [tag]. *)
Definition openFile (p : etags.ETagsParser) (file : string) : etags.ETagsParser :=
  let lang := etags.Lang (etags.config p) file in
  {| etags.config := etags.config p; etags.tags := etags.tags p;
     etags.langFiles :=
       <[lang := default [] (etags.langFiles p !! lang) ++ [file]]>
         (etags.langFiles p);
     etags.curFile := file |}.

Definition addTag (p : etags.ETagsParser) (tag : etags.ETag) : etags.ETagsParser :=
  {| etags.config := etags.config p; etags.tags := etags.tags p ++ [tag];
     etags.langFiles := etags.langFiles p; etags.curFile := etags.curFile p |}.

(** A configuration that takes every file for a Go file, and a tags table. *)
Definition allGo : etags.Config := {| etags.Lang := fun _ => "go" |}.

Definition tagsTable : string :=
  Sprintf [String (ascii_of_nat 12) EmptyString; nl;
           fileLine "a.go" "120"; nl;
           symbolLine "func Foo(" "Foo" "3" "40"; etags.CRLF;
           symbolLine "type t struct" "t" "9" "100"; nl;
           symbolLine "func Foo(" "Foo" "30" "400"; nl].

(** The lines [ls], each ended by [eol]. *)
Definition joinLines (eol : string) (ls : list string) : string :=
  Sprintf ((fun l => l +:+ eol) <$> ls).

(** The parser as [Parse] has it when it begins to read. *)
Definition rewound (p : etags.ETagsParser) : etags.ETagsParser :=
  {| etags.config := etags.config p; etags.tags := etags.tags p;
     etags.langFiles := etags.langFiles p; etags.curFile := EmptyString |}.

(** A file line of [p] has given the file name [f]. *)
Definition registered (p : etags.ETagsParser) (f : string) : Prop :=
  ∃ lang fs, etags.langFiles p !! lang = Some fs ∧ f ∈ fs.

(** The files of the language [lang]. *)
Definition filesOf (p : etags.ETagsParser) (lang : string) : list string :=
  default [] (etags.langFiles p !! lang).

(** The name of [tag] is found in its definition text. *)
Definition named (tag : etags.ETag) : bool :=
  0 <=? Index (etags.Def tag) (etags.Name tag).

(** How often [Defs] has met the name [n] in the file [f] so far. *)
Definition counter (fileDefNames : gmap string (gmap string Z)) (f n : string)
    : Z :=
  default 0 (fileDefNames !! f ≫= fun m => m !! n).

(** The path of the def of the name [n] of the file [f] met for the
    [c]-th time, counted from 0. *)
Definition pathOf (f n : string) (c : Z) : string :=
  Sprintf [f; ":"; Sprintf [n; "$"; pretty c]].

(** [d] is the def that [Defs] makes of [tag]: the name and the file of the
    tag; the place of the name in the file, counted in bytes from the offset
    of the tag, as a [uint32]; the formatting data. *)
Definition defOf (p : etags.ETagsParser) (tag : etags.ETag) (d : etags.Def_)
    : Prop :=
  etags.DefName d = etags.Name tag ∧ etags.DefFile d = etags.File tag ∧
  etags.DefStart d
  = etags.uint32 (etags.ByteOff tag + Index (etags.Def tag) (etags.Name tag)) ∧
  etags.DefEnd d
  = etags.uint32 (etags.ByteOff tag + Index (etags.Def tag) (etags.Name tag)
                  + Z.of_nat (len (etags.Name tag))) ∧
  etags.UnitType (etags.Key d) = "PipPackage" ∧
  etags.Unit (etags.Key d) = "." ∧
  etags.Exported d = true ∧ etags.Local_ d = false ∧
  etags.Data d = etags.defFormatDataFromTag tag ∧ is_Some (etags.Data d).

(** No two defs of one name of one file have the same path. *)
Definition distinctPaths (defs : list etags.Def_) : Prop :=
  ∀ i j d1 d2,
    defs !! i = Some d1 → defs !! j = Some d2 → i ≠ j →
    etags.DefFile d1 = etags.DefFile d2 → etags.DefName d1 = etags.DefName d2 →
    etags.Path (etags.Key d1) ≠ etags.Path (etags.Key d2).

(** * The commit (main.go, lines 108-152)

    The top of [Execute] runs git three times and reads the commit data off
    what it prints.  The functions below take the three outputs; a run of
    git that fails makes [Execute] return that error before any of this. *)

(** [HEAD branch: ([A-Za-z0-9]+)\n] *)
Definition branchRx : regex :=
  catList [lits "HEAD branch: "; Cap 1 (Plus alnum); Lit LF].

(** [[A-Za-z0-9\.@:/-]] *)
Definition isRemoteByte (c : ascii) : bool :=
  isAlnum c || bool_decide (c ∈ toBytes ".@:/-").

(** [Fetch\s*URL:\s*([A-Za-z0-9\.@:/-]+)\n] *)
Definition remoteRx : regex :=
  catList [lits "Fetch"; Star (Class isSpace false); lits "URL:";
           Star (Class isSpace false); Cap 1 (Plus (Class isRemoteByte false));
           Lit LF].

(** [generateURL] *)
Definition generateURL (repository commitHash : string) : string :=
  let repository := Replace repository "sourcegraph.com" "github.com" (-1) in
  Sprintf ["https://"; repository; "/commit/"; commitHash].

(** What [Execute] can come to: a value, an error it returns, or a panic. *)
Inductive outcome (A : Type) : Type :=
| Returns (a : A)
| Fails (err : string)
| Panics.
Arguments Returns {A} a.
Arguments Fails {A} err.
Arguments Panics {A}.

(** Lines 127-136, on the output of [git show -s --format=%an::%ae::%ct]:
    the name of the author, the first name, the address and the time.  The
    error of line 129 quotes the output, which stands for it here; the
    error of [strconv.ParseInt] is stood for by the text it was given.
    [strings.Fields(authorName)[0]] panics when the name has no field. *)
Definition authorOf (show : string) : outcome (string * string * string * Z) :=
  let parsedOut := SplitSep show "::" in
  if negb (length parsedOut =? 3)%nat then Fails show
  else
    let authorName := parsedOut !!! 0%nat in
    let authorEmail := parsedOut !!! 1%nat in
    match Fields authorName !! 0%nat with
    | None => Panics
    | Some authorFirstName =>
        let seconds := TrimSpace (parsedOut !!! 2%nat) in
        if AtoiErr seconds then Fails seconds
        else Returns (authorName, authorFirstName, authorEmail, Atoi seconds)
    end.

(** Lines 144-149: the URL of the repository, of the text [remoteRx] found. *)
Definition remoteURLOf (remote : string) : string :=
  let remoteURL := Replace (Replace remote "git@" EmptyString 1) ":" "/" 1 in
  if HasSuffix remoteURL ".git"
  then slice remoteURL 0 (Z.of_nat (len remoteURL) - Z.of_nat (len ".git"))
  else remoteURL.

(** Lines 142-149, on the output of [git remote show origin]: the branch
    and the URL of the repository.  Element 1 of the slice that
    [FindStringSubmatch] returns is read without a look at its length: no
    match is a panic. *)
Definition originOf (origin : string) : outcome (string * string) :=
  match FindStringSubmatch branchRx origin !! 1%nat with
  | None => Panics
  | Some branch =>
      match FindStringSubmatch remoteRx origin !! 1%nat with
      | None => Panics
      | Some remote => Returns (branch, remoteURLOf remote)
      end
  end.

(** Lines 116-152: the commit data, of the outputs of [git rev-parse HEAD],
    of [git show] and of [git remote show origin]. *)
Definition commitData (revParse show origin : string) : outcome Commit :=
  let commitHash := TrimSpace revParse in
  match authorOf show with
  | Fails err => Fails err
  | Panics => Panics
  | Returns (authorName, authorFirstName, authorEmail, commitTimestamp) =>
      match originOf origin with
      | Fails err => Fails err
      | Panics => Panics
      | Returns (branch, remoteURL) =>
          Returns {| remoteURL := remoteURL;
                     commitURL := generateURL remoteURL commitHash;
                     commitHash := commitHash;
                     branch := branch;
                     authorName := authorName;
                     authorFirstName := authorFirstName;
                     authorEmail := authorEmail;
                     commitTimestamp := commitTimestamp |}
      end
  end.

(** ** Notions for the commit data *)

(** An ASCII byte that is white space. *)
Definition blank (c : ascii) : bool :=
  utf8.isASCII c && rune.IsSpace (rune.byteVal c).

(** What [git remote show origin] prints for a clone of this repository. *)
Definition originOut : string :=
  Sprintf ["* remote origin"; nl;
           "  Fetch URL: git@github.com:sourcegraph/tag-server.git"; nl;
           "  Push  URL: git@github.com:sourcegraph/tag-server.git"; nl;
           "  HEAD branch: master"; nl;
           "  Remote branch:"; nl; "    master tracked"; nl].

(** * Properties *)

(** ** Integers *)

Lemma wrap_inRange z : GoInt.inRange (GoInt.wrap z).
Proof.
  unfold GoInt.inRange, GoInt.wrap, GoInt.MinInt64, GoInt.MaxInt64.
  pose proof (Z.mod_pos_bound (z + 2 ^ 63) (2 ^ 64) ltac:(lia)). lia.
Qed.

Lemma wrap_id z : GoInt.inRange z → GoInt.wrap z = z.
Proof.
  unfold GoInt.inRange, GoInt.wrap, GoInt.MinInt64, GoInt.MaxInt64. intros Hz.
  rewrite Z.mod_small; lia.
Qed.

Lemma add_exact x y : GoInt.inRange (x + y) → GoInt.add x y = x + y.
Proof. apply wrap_id. Qed.

Lemma sub_exact x y : GoInt.inRange (x - y) → GoInt.sub x y = x - y.
Proof. apply wrap_id. Qed.

(** ** Bytes and strings *)

Lemma ofBytes_toBytes s : ofBytes (toBytes s) = s.
Proof. apply String.string_of_list_ascii_of_string. Qed.

Lemma toBytes_ofBytes l : toBytes (ofBytes l) = l.
Proof. apply String.list_ascii_of_string_of_list_ascii. Qed.

Lemma toBytes_app s t : toBytes (s +:+ t) = toBytes s ++ toBytes t.
Proof. induction s as [|c s IH]; simpl; [done | by rewrite IH]. Qed.

Lemma ofBytes_app l m : ofBytes (l ++ m) = ofBytes l +:+ ofBytes m.
Proof. induction l as [|c l IH]; simpl; [done | by rewrite IH]. Qed.

Lemma len_toBytes s : length (toBytes s) = len s.
Proof. induction s as [|c s IH]; simpl; [done | by rewrite IH]. Qed.

Lemma runeLen_pos c s : (1 ≤ utf8.runeLen (c :: s))%nat.
Proof.
  unfold utf8.runeLen.
  repeat match goal with
         | |- context [if ?b then _ else _] => destruct b
         | |- context [match ?l with [] => _ | _ :: _ => _ end] => destruct l
         end; lia.
Qed.

(** ** The map of hunks by file name *)

Lemma hunkDiffM_lookup (hds : list HunkDiff) (f : string) :
  hunkDiffM hds !!! f = filter (fun hd => Filename hd = f) hds.
Proof.
  unfold hunkDiffM.
  induction hds as [|hd hds IH] using rev_ind; [done|].
  rewrite foldl_app, filter_app. simpl.
  destruct (decide (Filename hd = f)) as [Heq|Hne].
  - rewrite Heq, lookup_total_insert_eq, IH.
    rewrite filter_cons_True by done. by rewrite filter_nil.
  - rewrite lookup_total_insert_ne by done. rewrite IH.
    rewrite filter_cons_False by done. by rewrite filter_nil, app_nil_r.
Qed.

(** A file without hunks has no entry in the map. *)
Lemma hunkDiffM_None (hds : list HunkDiff) (f : string) :
  (∀ hd, hd ∈ hds → Filename hd ≠ f) → hunkDiffM hds !! f = None.
Proof.
  unfold hunkDiffM.
  induction hds as [|hd hds IH] using rev_ind; intros Hf; [done|].
  rewrite foldl_app. simpl. rewrite lookup_insert_ne.
  - apply IH. intros hd' Hin. apply Hf. set_solver.
  - apply Hf. set_solver.
Qed.

(** ** The correlation loop *)

Lemma overlaps_spec (endl : Z) (tag : Tag) (hd : HunkDiff) :
  overlaps endl tag hd = true ↔
  ¬ (NewStart hd > endl ∨ NewEnd hd < ctags.Line tag).
Proof.
  unfold overlaps. rewrite negb_true_iff, orb_false_iff, !Z.ltb_ge. lia.
Qed.

Lemma scanHunks_spec (endl : Z) (tag : Tag) (hds : list HunkDiff) :
  scanHunks endl tag hds = true ↔ ∃ hd, hd ∈ hds ∧ overlaps endl tag hd = true.
Proof.
  induction hds as [|hd hds IH]; simpl.
  - split; [discriminate | intros (hd & Hin & _); by apply elem_of_nil in Hin].
  - destruct (overlaps endl tag hd) eqn:Ho.
    + split; [intros _; exists hd; split; [apply list_elem_of_here | done] | done].
    + rewrite IH. split.
      * intros (h & Hin & Hh). exists h. split; [by apply list_elem_of_further | done].
      * intros (h & Hin & Hh). apply elem_of_cons in Hin as [->|Hin];
          [congruence | eauto].
Qed.

Lemma foldl_select {A} (P : A → bool) (l acc : list A) :
  foldl (fun changed i => if P i then changed ++ [i] else changed) acc l
  = acc ++ List.filter P l.
Proof.
  revert acc. induction l as [|x l IH]; intros acc; simpl.
  - by rewrite app_nil_r.
  - rewrite IH. destruct (P x); [by rewrite <- app_assoc | done].
Qed.

Lemma changedTags_filter m tags :
  changedTags m tags = List.filter (hit m tags) (List.seq 0%nat (length tags)).
Proof. unfold changedTags. by rewrite (foldl_select (hit m tags)). Qed.

Lemma changedTags_elem m tags i :
  i ∈ changedTags m tags ↔ (i < length tags)%nat ∧ hit m tags i = true.
Proof.
  rewrite changedTags_filter, list_elem_of_In, filter_In, in_seq.
  intuition lia.
Qed.

Lemma changedTags_NoDup m tags : NoDup (changedTags m tags).
Proof.
  rewrite changedTags_filter. apply NoDup_ListNoDup, List.NoDup_filter, seq_NoDup.
Qed.

(** ** The matcher: the match it finds first *)

Lemma prefers_Eps rest c : prefers Eps [] rest c c.
Proof. intros R k res Hk. exact Hk. Qed.

Lemma prefers_Lit a rest c : prefers (Lit a) [a] rest c c.
Proof. intros R k res Hk. simpl. by rewrite Ascii.eqb_refl. Qed.

Lemma prefers_Cat r1 r2 w1 w2 rest c c1 c2 :
  prefers r1 w1 (w2 ++ rest) c c1 → prefers r2 w2 rest c1 c2 →
  prefers (Cat r1 r2) (w1 ++ w2) rest c c2.
Proof.
  intros H1 H2 R k res Hk. simpl. rewrite <- app_assoc.
  apply H1. by apply H2.
Qed.

Lemma prefers_lits s rest c : prefers (lits s) (toBytes s) rest c c.
Proof.
  induction s as [|a s IH]; simpl.
  - apply prefers_Eps.
  - apply (prefers_Cat (Lit a) (lits s) [a] (toBytes s) rest c c c);
      [apply prefers_Lit | apply IH].
Qed.

Lemma prefers_Cap i r w rest c c' :
  prefers r w rest c c' → prefers (Cap i r) w rest c (<[i := w]> c').
Proof.
  intros H R k res Hk. simpl. apply H.
  rewrite length_app, Nat.add_sub, take_app_length. exact Hk.
Qed.

Lemma exec_Class_stops {R} p rest c (k : bytes → captures → option R) :
  stops p rest → exec (Class p false) rest c k = None.
Proof.
  destruct rest as [|x rest]; simpl; [done|].
  destruct (utf8.isASCII x), (p x); simpl; intros [?|?]; done.
Qed.

Lemma loop_Class_all {R} p w rest c (k : bytes → captures → option R) res fuel :
  Forall (fun x => utf8.isASCII x = true ∧ p x = true) w → stops p rest →
  (length w ≤ fuel)%nat → k rest c = Some res →
  loop (exec (Class p false)) fuel (w ++ rest) c k = Some res.
Proof.
  intros Hw Hrest. revert fuel.
  induction Hw as [|x w [Hx Hp] Hw IH]; intros fuel Hfuel Hk.
  - destruct fuel as [|fuel]; cbn [loop app]; [done|].
    by rewrite exec_Class_stops.
  - destruct fuel as [|fuel]; [simpl in Hfuel; lia|].
    cbn [loop app exec]. rewrite Hx, Hp.
    destruct (Nat.ltb_spec (length (w ++ rest)) (length (x :: w ++ rest)));
      [|simpl in *; lia].
    rewrite IH; [done | simpl in Hfuel; lia | done].
Qed.

Lemma prefers_Star_Class p w rest c :
  Forall (fun x => utf8.isASCII x = true ∧ p x = true) w → stops p rest →
  prefers (Star (Class p false)) w rest c c.
Proof.
  intros Hw Hrest R k res Hk. simpl.
  apply loop_Class_all; [done | done | rewrite length_app; lia | done].
Qed.

Lemma prefers_Plus_Class p w rest c :
  w ≠ [] → Forall (fun x => utf8.isASCII x = true ∧ p x = true) w → stops p rest →
  prefers (Plus (Class p false)) w rest c c.
Proof.
  intros Hne Hw Hrest. destruct w as [|x w]; [done|].
  apply Forall_cons in Hw as [[Hx Hp] Hw].
  apply (prefers_Cat _ _ [x] w rest c c c).
  - intros R k res Hk. simpl. by rewrite Hx, Hp.
  - by apply prefers_Star_Class.
Qed.

(** When the pattern is preferred at the very start of the input, the search
    stops there. *)
Lemma doExecute_prefers r w rest c' :
  prefers r w rest (replicate (S (NumSubexp r)) []) c' →
  doExecute r (w ++ rest) = Some (0%nat, rest, <[0%nat := w]> c').
Proof.
  intros H. unfold doExecute.
  pose proof (H _ (fun s' c => Some (s', c)) (rest, c') eq_refl) as He.
  destruct (length (w ++ rest)) as [|n] eqn:Hlen; cbn [search];
    rewrite He; by rewrite length_app, Nat.add_sub, take_app_length.
Qed.

(** ** Hunk headers *)

Lemma isDigit_ascii x : isDigit x = true → utf8.isASCII x = true ∧ isDigit x = true.
Proof.
  intros H. split; [|done]. revert H.
  unfold isDigit, utf8.between, utf8.isASCII.
  rewrite andb_true_iff, !N.leb_le, N.ltb_lt. lia.
Qed.

Lemma digits_bytes s :
  digits s →
  toBytes s ≠ [] ∧
  Forall (fun x => utf8.isASCII x = true ∧ isDigit x = true) (toBytes s).
Proof.
  intros [Hne Hd]. split.
  - destruct s; [done | discriminate].
  - eapply Forall_impl; [exact Hd | apply isDigit_ascii].
Qed.

Lemma prefers_digits i s rest c :
  digits s → stops isDigit rest →
  prefers (Cap i (Plus digit)) (toBytes s) rest c (<[i := toBytes s]> c).
Proof.
  intros Hs Hrest. apply digits_bytes in Hs as [Hne Hall].
  apply prefers_Cap. by apply prefers_Plus_Class.
Qed.

Lemma hunkHeaderRx_match (a b c d rest : string) :
  digits a → digits b → digits c → digits d →
  FindStringSubmatch hunkHeaderRx (hunkHeaderText a b c d +:+ rest)
  = [hunkHeaderText a b c d; a; b; c; d].
Proof.
  intros Ha Hb Hc Hd. unfold FindStringSubmatch, hunkHeaderText, Sprintf.
  cbn [foldr]. rewrite !toBytes_app.
  erewrite doExecute_prefers.
  2:{ unfold hunkHeaderRx, catList. cbn [foldr].
      repeat (eapply prefers_Cat;
              [first [apply prefers_lits
                     | apply prefers_digits; [done | simpl; by left]] | ]).
      apply prefers_Eps. }
  change (replicate _ []) with (replicate 5 (@nil ascii)).
  cbn [replicate insert list_insert fmap list_fmap].
  by rewrite !ofBytes_app, !ofBytes_toBytes.
Qed.

Lemma digitVal_range x : isDigit x = true → 0 ≤ digitVal x ≤ 9.
Proof.
  unfold digitVal, isDigit, utf8.between.
  rewrite andb_true_iff, !N.leb_le. lia.
Qed.

Lemma decimal_digits acc s :
  Forall (fun x => isDigit x = true) s → is_Some (decimal acc s).
Proof.
  intros H. revert acc. induction H as [|x s Hx _ IH]; intros acc; simpl.
  - by eexists.
  - rewrite Hx. apply IH.
Qed.

Lemma decimal_ge acc s v : 0 ≤ acc → decimal acc s = Some v → acc ≤ v.
Proof.
  revert acc. induction s as [|x s IH]; intros acc Hacc; simpl.
  - intros [= <-]. lia.
  - destruct (isDigit x) eqn:Hx; [|done]. intros Hv.
    pose proof (digitVal_range x Hx). apply IH in Hv; lia.
Qed.

(** On digits [parseUint] is the number, cut at the largest [uint64]. *)
Lemma parseUint_digits n s :
  Forall (fun x => isDigit x = true) s → 0 ≤ n ≤ MaxUint64 →
  ∃ v, decimal n s = Some v ∧ parseUint n s = Some (Z.min v MaxUint64).
Proof.
  intros H. revert n. induction H as [|x s Hx Hs IH]; intros n Hn; simpl.
  - exists n. split; [done|]. f_equal. lia.
  - rewrite Hx. pose proof (digitVal_range x Hx) as Hd.
    destruct (Z.ltb_spec MaxUint64 (10 * n + digitVal x)) as [Hov|Hfit].
    + destruct (decimal_digits (10 * n + digitVal x) s Hs) as [v Hv].
      exists v. split; [done|]. f_equal.
      apply decimal_ge in Hv; lia.
    + apply IH. lia.
Qed.

(** On a text of digits [Atoi] is the number, cut at the largest [int]. *)
Lemma Atoi_digits s : digits s → Atoi s = Z.min (value s) GoInt.MaxInt64.
Proof.
  intros [Hne Hd]. unfold Atoi, value.
  destruct (toBytes s) as [|x t] eqn:Hs.
  { destruct s; [done | discriminate]. }
  pose proof (Forall_inv Hd) as Hx.
  assert (Ascii.eqb x "+" = false) as ->.
  { apply Ascii.eqb_neq. intros ->. discriminate. }
  assert (Ascii.eqb x "-" = false) as ->.
  { apply Ascii.eqb_neq. intros ->. discriminate. }
  destruct (parseUint_digits 0 (x :: t) Hd) as (v & Hv & ->);
    [unfold MaxUint64; lia|].
  rewrite Hv. simpl default.
  unfold MaxUint64, GoInt.MaxInt64.
  destruct (Z.leb_spec (2 ^ 63) (Z.min v 18446744073709551615)); lia.
Qed.

Lemma value_nonneg s : 0 ≤ value s.
Proof.
  unfold value. destruct (decimal 0 (toBytes s)) as [v|] eqn:Hv; [|done].
  simpl. by apply decimal_ge in Hv.
Qed.

Lemma Atoi_exact s : digits s → value s ≤ GoInt.MaxInt64 → Atoi s = value s.
Proof. intros Hs Hv. rewrite Atoi_digits by done. lia. Qed.

Lemma digits_10 : digits "10".
Proof. split; [discriminate | repeat constructor]. Qed.
Lemma digits_1 : digits "1".
Proof. split; [discriminate | repeat constructor]. Qed.
Lemma digits_3 : digits "3".
Proof. split; [discriminate | repeat constructor]. Qed.

(** ** The matcher: what a match it reports looks like *)

Lemma loop_sound r : sound_on r →
  ∀ (R : Type) fuel (s : bytes) (c : captures) (k : bytes → captures → option R) res,
    loop (exec r) fuel s c k = Some res →
    ∃ w s' c', s = w ++ s' ∧ matches (Star r) w c c' ∧ k s' c' = Some res.
Proof.
  intros Hr R fuel. induction fuel as [|fuel IH]; intros s c k res; cbn [loop].
  - intros Hk. exists [], s, c. split_and!; [done | constructor | done].
  - destruct (exec r s c _) as [res'|] eqn:Hbody.
    + intros [= ->]. apply Hr in Hbody as (w1 & s1 & c1 & -> & Hm1 & Hk1).
      destruct (Nat.ltb_spec (length s1) (length (w1 ++ s1))) as [Hlt|]; [|done].
      apply IH in Hk1 as (w2 & s2 & c2 & -> & Hm2 & Hk2).
      exists (w1 ++ w2), s2, c2. split_and!; [by rewrite app_assoc | | done].
      apply M_Star_cons with c1; [|done|done].
      intros ->. simpl in Hlt. lia.
    + intros Hk. exists [], s, c. split_and!; [done | constructor | done].
Qed.

Lemma exec_sound r : sound_on r.
Proof.
  induction r as [|a|p wide|r1 IH1 r2 IH2|r IH|i r IH];
    intros R s c k res; cbn [exec].
  - intros Hk. exists [], s, c. split_and!; [done | constructor | done].
  - destruct s as [|x s]; [done|].
    destruct (Ascii.eqb_spec x a) as [->|]; [|done].
    intros Hk. exists [a], s, c. split_and!; [done | constructor | done].
  - destruct s as [|x s]; [done|].
    destruct (utf8.isASCII x) eqn:Hx.
    + destruct (p x) eqn:Hp; [|done].
      intros Hk. exists [x], s, c. split_and!; [done | by constructor | done].
    + destruct wide; [|done]. intros Hk.
      pose proof (runeLen_pos x s) as Hlen.
      destruct (utf8.runeLen (x :: s)) as [|n] eqn:Hn; [lia|].
      exists (x :: take n s), (drop n s), c.
      split_and!; [by rewrite <- app_comm_cons, take_drop | by constructor | done].
  - intros He. apply IH1 in He as (w1 & s1 & c1 & -> & Hm1 & He).
    apply IH2 in He as (w2 & s2 & c2 & -> & Hm2 & Hk).
    exists (w1 ++ w2), s2, c2. split_and!; [by rewrite app_assoc | | done].
    by apply M_Cat with c1.
  - apply loop_sound, IH.
  - intros He. apply IH in He as (w & s' & c' & -> & Hm & Hk).
    rewrite length_app, Nat.add_sub, take_app_length in Hk.
    exists w, s', (<[i := w]> c'). split_and!; [done | by constructor | done].
Qed.

Lemma search_sound r fuel skipped s n rest caps :
  search r fuel skipped s = Some (n, rest, caps) →
  ∃ pre w c', s = pre ++ w ++ rest ∧ matches r w (noCaptures r) c' ∧
              caps = <[0%nat := w]> c'.
Proof.
  revert skipped s. induction fuel as [|fuel IH]; intros skipped s; cbn [search].
  - destruct (exec r s _ _) as [[s' c']|] eqn:He; [|by destruct s].
    intros [= <- <- <-].
    apply exec_sound in He as (w & s'' & c'' & -> & Hm & [= <- <-]).
    exists [], w, c''. rewrite length_app, Nat.add_sub, take_app_length. done.
  - destruct (exec r s _ _) as [[s' c']|] eqn:He.
    + intros [= <- <- <-].
      apply exec_sound in He as (w & s'' & c'' & -> & Hm & [= <- <-]).
      exists [], w, c''. rewrite length_app, Nat.add_sub, take_app_length. done.
    + destruct s as [|x s]; [done|]. intros Hs.
      apply IH in Hs as (pre & w & c' & Hs & Hm & ->).
      exists (take (utf8.runeLen (x :: s)) (x :: s) ++ pre), w, c'.
      split_and!; [|done|done].
      rewrite <- app_assoc, <- Hs. by rewrite take_drop.
Qed.

Lemma doExecute_sound r s n rest caps :
  doExecute r s = Some (n, rest, caps) →
  ∃ pre w c', s = pre ++ w ++ rest ∧ matches r w (noCaptures r) c' ∧
              caps = <[0%nat := w]> c'.
Proof. apply search_sound. Qed.

Lemma allMatches_sound r fuel s atPrevEnd mt :
  mt ∈ allMatches r fuel s atPrevEnd →
  ∃ pre w rest c', s = pre ++ w ++ rest ∧ matches r w (noCaptures r) c' ∧
                   mt = ofBytes <$> <[0%nat := w]> c'.
Proof.
  revert s atPrevEnd.
  induction fuel as [|fuel IH]; intros s atPrevEnd; cbn [allMatches].
  { intros H. by apply elem_of_nil in H. }
  destruct (doExecute r s) as [[[n rest] caps]|] eqn:Hd.
  2:{ intros H. by apply elem_of_nil in H. }
  apply doExecute_sound in Hd as (pre & w & c' & Hs & Hm & ->).
  assert (∀ s' flag, (∃ p, s = p ++ s') → mt ∈ allMatches r fuel s' flag →
          ∃ pre w rest c', s = pre ++ w ++ rest ∧ matches r w (noCaptures r) c' ∧
                            mt = ofBytes <$> <[0%nat := w]> c') as Hrec.
  { intros s' flag [p Hp] Hin.
    apply IH in Hin as (pre' & w' & rest' & c'' & -> & Hm' & ->).
    exists (p ++ pre'), w', rest', c''. by rewrite <- app_assoc. }
  destruct (length rest =? length s)%nat.
  - rewrite elem_of_app. intros [Hin|Hin].
    + destruct atPrevEnd; [by apply elem_of_nil in Hin|].
      apply list_elem_of_singleton in Hin as ->. by exists pre, w, rest, c'.
    + destruct s as [|x s']; [by apply elem_of_nil in Hin|].
      eapply Hrec; [|exact Hin].
      exists (take (utf8.runeLen (x :: s')) (x :: s')). by rewrite take_drop.
  - rewrite elem_of_cons. intros [->|Hin].
    + by exists pre, w, rest, c'.
    + eapply Hrec; [|exact Hin]. exists (pre ++ w). by rewrite <- app_assoc.
Qed.

Lemma matches_length r w c c' : matches r w c c' → length c' = length c.
Proof.
  induction 1; try done; try congruence.
  by rewrite length_insert.
Qed.

Lemma matches_Class_inv p w c c' :
  matches (Class p false) w c c' →
  ∃ x, w = [x] ∧ utf8.isASCII x = true ∧ p x = true ∧ c' = c.
Proof. inversion 1; subst. by exists x. Qed.

Lemma matches_Star_Class_inv p w c c' :
  matches (Star (Class p false)) w c c' →
  Forall (fun x => p x = true) w ∧ c' = c.
Proof.
  remember (Star (Class p false)) as r eqn:Hr. intros H.
  induction H as [| | | | |r c|r w1 w2 c c1 c2 Hne H1 _ H2 IH2|]; try discriminate.
  - done.
  - injection Hr as ->.
    apply matches_Class_inv in H1 as (x & -> & _ & Hp & ->).
    destruct (IH2 eq_refl) as [Hw ->]. split; [|done]. by constructor.
Qed.

Lemma matches_Plus_Class_inv p w c c' :
  matches (Plus (Class p false)) w c c' →
  w ≠ [] ∧ Forall (fun x => p x = true) w ∧ c' = c.
Proof.
  inversion 1 as [| | | |r1 r2 w1 w2 c0 c1 c2 H1 H2| | |]; subst.
  apply matches_Class_inv in H1 as (x & -> & _ & Hp & ->).
  apply matches_Star_Class_inv in H2 as [Hw ->].
  split_and!; [done | by constructor | done].
Qed.

Lemma matches_lits_inv s w c c' :
  matches (lits s) w c c' → w = toBytes s ∧ c' = c.
Proof.
  revert w c. induction s as [|a s IH]; intros w c; simpl.
  - by inversion 1.
  - inversion 1 as [| | | |r1 r2 w1 w2 c0 c1 c2 H1 H2| | |]; subst.
    inversion H1; subst. apply IH in H2 as [-> ->]. done.
Qed.

Lemma matches_Cat_inv r1 r2 w c c' :
  matches (Cat r1 r2) w c c' →
  ∃ w1 w2 c1, w = w1 ++ w2 ∧ matches r1 w1 c c1 ∧ matches r2 w2 c1 c'.
Proof. inversion 1; subst. eauto 10. Qed.

Lemma matches_Eps_inv w c c' : matches Eps w c c' → w = [] ∧ c' = c.
Proof. by inversion 1. Qed.

Lemma toBytes_inj s t : toBytes s = toBytes t → s = t.
Proof. intros H. rewrite <- (ofBytes_toBytes s), H. apply ofBytes_toBytes. Qed.

(** After [([A-Za-z0-9]+)*], group 1 is as it was before, or it holds a
    non-empty run of letters and digits that ends the text matched. *)
Lemma matches_calls_inv w c c' :
  matches (Star (Cap 1 (Plus alnum))) w c c' →
  (w = [] ∧ c' = c) ∨
  (∃ pre tok c1, w = pre ++ tok ∧ tok ≠ [] ∧
                 Forall (fun x => isAlnum x = true) tok ∧
                 length c1 = length c ∧ c' = <[1%nat := tok]> c1).
Proof.
  remember (Star (Cap 1 (Plus alnum))) as r eqn:Hr. intros H.
  induction H as [| | | | |r c|r w1 w2 c c1 c2 Hne H1 _ H2 IH2|]; try discriminate.
  - by left.
  - injection Hr as ->. right.
    inversion H1 as [| | | | | | |i r w c0 c0' Hplus]; subst.
    apply matches_Plus_Class_inv in Hplus as (_ & Hw1 & ->).
    destruct (IH2 eq_refl) as [[-> ->]|(pre & tok & c3 & -> & Htok & Hal & Hlen & ->)].
    + exists [], w1, c. rewrite app_nil_r. done.
    + exists (w1 ++ pre), tok, c3. rewrite <- app_assoc.
      split_and!; try done. by rewrite Hlen, length_insert.
Qed.

Lemma group1_lookup (w tok : bytes) (c : captures) :
  (2 ≤ length c)%nat →
  (ofBytes <$> <[0%nat := w]> (<[1%nat := tok]> c)) !!! 1%nat = ofBytes tok.
Proof. destruct c as [|x [|y c]]; simpl; [lia | lia | done]. Qed.

(** Every element of [functionRx.FindAllStringSubmatch(text, -1)] with a
    non-empty group 1: the group is a run of letters and digits directly
    before an opening parenthesis of the text. *)
Lemma functionRx_sound (text : string) (mt : list string) :
  mt ∈ FindAllStringSubmatch functionRx text →
  (0 < len (mt !!! 1%nat))%nat →
  ∃ pre post,
    text = pre +:+ (mt !!! 1%nat) +:+ "(" +:+ post ∧
    Forall (fun x => isAlnum x = true) (toBytes (mt !!! 1%nat)).
Proof.
  unfold FindAllStringSubmatch. intros Hin Hlen.
  apply allMatches_sound in Hin as (pre & w & rest & c' & Htext & Hm & ->).
  unfold functionRx, catList in Hm. cbn [foldr] in Hm.
  apply matches_Cat_inv in Hm as (w1 & w2 & c1 & -> & H1 & H2).
  apply matches_Cat_inv in H2 as (w3 & w4 & c2 & -> & H2 & H3).
  apply matches_lits_inv in H2 as [-> ->].
  apply matches_Eps_inv in H3 as [-> ->].
  apply matches_calls_inv in H1
    as [[-> ->]|(pre' & tok & c3 & -> & Htok & Hal & Hc3 & ->)].
  - exfalso. revert Hlen. vm_compute. lia.
  - rewrite group1_lookup by (rewrite Hc3; vm_compute; lia).
    rewrite toBytes_ofBytes.
    exists (ofBytes (pre ++ pre')), (ofBytes rest). split; [|done].
    apply toBytes_inj. rewrite Htext.
    rewrite !toBytes_app, !toBytes_ofBytes, <- !app_assoc. done.
Qed.

(** ** File headers *)

Lemma matches_capFree r w c c' : matches r w c c' → capFree r = true → c' = c.
Proof.
  induction 1; simpl; try done.
  - rewrite andb_true_iff. intros [H1 H2]. rewrite IHmatches2, IHmatches1; done.
  - intros Hr. rewrite IHmatches2, IHmatches1; done.
Qed.

Lemma matches_Plus_Class_nonempty p wide w c c' :
  matches (Plus (Class p wide)) w c c' → w ≠ [] ∧ c' = c.
Proof.
  intros H. split; [|by apply (matches_capFree _ _ _ _ H)].
  apply matches_Cat_inv in H as (w1 & w2 & c1 & -> & H1 & _).
  inversion H1; subst; done.
Qed.

Lemma len_ofBytes l : len (ofBytes l) = length l.
Proof. by rewrite <- len_toBytes, toBytes_ofBytes. Qed.

(** [fileHeaderRx.FindStringSubmatch] returns nil, or the match and a
    non-empty file name. *)
Lemma fileHeaderRx_result (s : string) :
  FindStringSubmatch fileHeaderRx s = [] ∨
  ∃ whole f, FindStringSubmatch fileHeaderRx s = [whole; f] ∧ len f ≠ 0%nat.
Proof.
  unfold FindStringSubmatch.
  destruct (doExecute fileHeaderRx (toBytes s)) as [[[n rest] caps]|] eqn:Hd;
    [right | by left].
  apply doExecute_sound in Hd as (pre & w & c' & _ & Hm & ->).
  unfold fileHeaderRx, catList in Hm. cbn [foldr] in Hm.
  apply matches_Cat_inv in Hm as (w1 & w' & c1 & -> & H1 & Hm).
  apply matches_lits_inv in H1 as [-> ->].
  apply matches_Cat_inv in Hm as (w2 & w3 & c2 & -> & H2 & Hm).
  inversion H2 as [| | | | | | |i r w0 c0 c0' Hplus]; subst.
  apply matches_Plus_Class_nonempty in Hplus as [Hne ->].
  pose proof (matches_capFree _ _ _ _ Hm eq_refl) as ->.
  exists (ofBytes (toBytes "diff --git a/" ++ w2 ++ w3)), (ofBytes w2).
  split; [done|]. rewrite len_ofBytes. by destruct w2.
Qed.

(** ** Steps of the parser *)

Lemma step_fileHeader (st : parser) (hdr whole f : string) :
  FindStringSubmatch fileHeaderRx hdr = [whole; f] →
  step st hdr = {| filename := f; oldline := -1; newline := -1;
                   hunkDiffs := hunkDiffs st |}.
Proof. intros H. unfold step. by rewrite H. Qed.

Lemma step_skipped (st : parser) (l : string) : skipped l → step st l = st.
Proof.
  intros [Hf Hm]. unfold step. rewrite Hf, Hm. simpl.
  by destruct (len (filename st) =? 0)%nat.
Qed.

Lemma foldl_step_skipped (st : parser) (ls : list string) :
  Forall skipped ls → foldl step st ls = st.
Proof.
  induction 1 as [|l ls Hl _ IH]; simpl; [done|].
  by rewrite step_skipped.
Qed.

Lemma alter_last {A} (f : A → A) (l : list A) (x : A) :
  alter f (length (l ++ [x]) - 1)%nat (l ++ [x]) = l ++ [f x].
Proof.
  rewrite length_app. simpl.
  replace (length l + 1 - 1)%nat with (length l + 0)%nat by lia.
  by rewrite alter_app_r.
Qed.

Lemma step_added (st : parser) (hs : list HunkDiff) (h : HunkDiff) (l : string) :
  len (filename st) ≠ 0%nat → content l → hunkDiffs st = hs ++ [h] →
  HasPrefix l "+" = true →
  step st l =
    {| filename := filename st;
       oldline := oldline st; newline := GoInt.add (newline st) 1;
       hunkDiffs := hs ++ [appendNew {| Num := newline st; Text := l |} h] |}.
Proof.
  intros Hf (Hnf & Hm & Hnh) Hhs Hp. unfold step.
  rewrite Hnf, Hm, Hnh, Hp. apply Nat.eqb_neq in Hf. rewrite Hf. simpl.
  rewrite Hhs, alter_last.
  by destruct (length (hs ++ [h]) =? 0)%nat eqn:E;
    [apply Nat.eqb_eq in E; rewrite length_app in E; simpl in E; lia|].
Qed.

Lemma step_removed (st : parser) (hs : list HunkDiff) (h : HunkDiff) (l : string) :
  len (filename st) ≠ 0%nat → content l → hunkDiffs st = hs ++ [h] →
  HasPrefix l "+" = false → HasPrefix l "-" = true →
  step st l =
    {| filename := filename st;
       oldline := GoInt.add (oldline st) 1; newline := newline st;
       hunkDiffs := hs ++ [appendOld {| Num := oldline st; Text := l |} h] |}.
Proof.
  intros Hf (Hnf & Hm & Hnh) Hhs Hp Hq. unfold step.
  rewrite Hnf, Hm, Hnh, Hp, Hq. apply Nat.eqb_neq in Hf. rewrite Hf. simpl.
  rewrite Hhs, alter_last.
  by destruct (length (hs ++ [h]) =? 0)%nat eqn:E;
    [apply Nat.eqb_eq in E; rewrite length_app in E; simpl in E; lia|].
Qed.

Lemma step_context (st : parser) (l : string) :
  len (filename st) ≠ 0%nat → content l → hunkDiffs st ≠ [] →
  HasPrefix l "+" = false → HasPrefix l "-" = false →
  step st l =
    {| filename := filename st;
       oldline := GoInt.add (oldline st) 1;
       newline := GoInt.add (newline st) 1;
       hunkDiffs := hunkDiffs st |}.
Proof.
  intros Hf (Hnf & Hm & Hnh) Hhs Hp Hq. unfold step.
  rewrite Hnf, Hm, Hnh, Hp, Hq. apply Nat.eqb_neq in Hf. rewrite Hf. simpl.
  by destruct (hunkDiffs st).
Qed.

(** ** The fuel of the matcher is enough

    The loops of the matcher count down from the length of the input; a
    larger bound gives the same result, so nothing is cut short. *)

Lemma loop_ext {R} (body : bytes → captures → (bytes → captures → option R) → option R) :
  (∀ s c k1 k2, (∀ s' c', k1 s' c' = k2 s' c') → body s c k1 = body s c k2) →
  ∀ fuel s c k1 k2, (∀ s' c', k1 s' c' = k2 s' c') →
    loop body fuel s c k1 = loop body fuel s c k2.
Proof.
  intros Hbody fuel. induction fuel as [|fuel IH]; intros s c k1 k2 Hk; cbn [loop].
  - apply Hk.
  - rewrite (Hbody s c _ (fun s' c' => if (length s' <? length s)%nat
                                       then loop body fuel s' c' k2 else None)).
    + by rewrite Hk.
    + intros s' c'. destruct (length s' <? length s)%nat; [by apply IH | done].
Qed.

Lemma exec_ext {R} r s c (k1 k2 : bytes → captures → option R) :
  (∀ s' c', k1 s' c' = k2 s' c') → exec r s c k1 = exec r s c k2.
Proof.
  revert s c k1 k2.
  induction r as [|a|p wide|r1 IH1 r2 IH2|r IH|i r IH];
    intros s c k1 k2 Hk; cbn [exec].
  - apply Hk.
  - destruct s as [|x s]; [done|]. by destruct (Ascii.eqb x a).
  - destruct s as [|x s]; [done|].
    destruct (utf8.isASCII x), (p x), wide; done.
  - apply IH1. intros s' c'. by apply IH2.
  - by apply loop_ext.
  - apply IH. intros s' c'. apply Hk.
Qed.

Lemma exec_dead {R} r s c : exec r s c (fun _ _ => @None R) = None.
Proof.
  destruct (exec r s c (fun _ _ => None)) as [res|] eqn:He; [|done].
  by apply exec_sound in He as (w & s' & c' & _ & _ & Hk).
Qed.

Lemma loop_fuel {R} r fuel s c (k : bytes → captures → option R) :
  (length s ≤ fuel)%nat → loop (exec r) fuel s c k = loop (exec r) (length s) s c k.
Proof.
  remember (length s) as n eqn:Hn. revert fuel s c Hn.
  induction n as [n IH] using lt_wf_ind. intros fuel s c Hn Hfuel.
  destruct fuel as [|fuel], n as [|n]; cbn [loop]; try lia; try done.
  - erewrite exec_ext; [rewrite exec_dead; done|].
    intros s' c'. rewrite <- Hn. by destruct (length s' <? 0)%nat eqn:E.
  - erewrite exec_ext; [reflexivity|].
    intros s' c'. rewrite <- Hn.
    destruct (Nat.ltb_spec (length s') (S n)) as [Hlt|]; [|done].
    rewrite (IH (length s') ltac:(lia) fuel s' c' eq_refl ltac:(lia)).
    by rewrite (IH (length s') ltac:(lia) n s' c' eq_refl ltac:(lia)).
Qed.

Lemma search_fuel r fuel1 fuel2 skipped s :
  (length s ≤ fuel1)%nat → (length s ≤ fuel2)%nat →
  search r fuel1 skipped s = search r fuel2 skipped s.
Proof.
  revert fuel2 skipped s.
  induction fuel1 as [|fuel1 IH]; intros fuel2 skipped s H1 H2.
  - destruct s; [|simpl in H1; lia].
    destruct fuel2; cbn [search]; by destruct (exec r [] _ _) as [[? ?]|].
  - destruct fuel2 as [|fuel2].
    + destruct s; [|simpl in H2; lia].
      cbn [search]; by destruct (exec r [] _ _) as [[? ?]|].
    + cbn [search]. destruct (exec r s _ _) as [[? ?]|]; [done|].
      destruct s as [|x s]; [done|].
      pose proof (runeLen_pos x s). simpl in H1, H2.
      apply IH; rewrite length_drop; cbn [length]; lia.
Qed.

Lemma allMatches_fuel r fuel1 fuel2 s atPrevEnd :
  (length s < fuel1)%nat → (length s < fuel2)%nat →
  allMatches r fuel1 s atPrevEnd = allMatches r fuel2 s atPrevEnd.
Proof.
  revert fuel2 s atPrevEnd.
  induction fuel1 as [|fuel1 IH]; intros fuel2 s atPrevEnd H1 H2; [lia|].
  destruct fuel2 as [|fuel2]; [lia|]. cbn [allMatches].
  destruct (doExecute r s) as [[[n rest] caps]|] eqn:Hd; [|done].
  apply doExecute_sound in Hd as (pre & w & c' & Hs & _ & _).
  destruct (Nat.eqb_spec (length rest) (length s)) as [Heq|Hne].
  - f_equal. destruct s as [|x s]; [done|].
    pose proof (runeLen_pos x s). simpl in H1, H2.
    apply IH; rewrite length_drop; cbn [length]; lia.
  - f_equal. assert (length rest < length s)%nat.
    { rewrite Hs, !length_app in *. lia. }
    apply IH; lia.
Qed.

(** ** Hunk header lines *)

Lemma matches_digits_inv i w c c' :
  matches (Cap i (Plus digit)) w c c' →
  w ≠ [] ∧ Forall (fun x => isDigit x = true) w ∧ c' = <[i := w]> c.
Proof.
  inversion 1 as [| | | | | | |j r w0 c0 c0' Hplus]; subst.
  by apply matches_Plus_Class_inv in Hplus as (Hne & Hw & ->).
Qed.

Lemma digits_ofBytes w :
  w ≠ [] → Forall (fun x => isDigit x = true) w → digits (ofBytes w).
Proof.
  intros Hne Hw. split; [|by rewrite toBytes_ofBytes].
  intros E. apply Hne. by rewrite <- (toBytes_ofBytes w), E.
Qed.

(** Whatever [hunkHeaderRx] finds in a line is a hunk header of that line. *)
Lemma hunkHeaderRx_result (line : string) :
  FindStringSubmatch hunkHeaderRx line = [] ∨ ∃ a b c d, headerOf line a b c d.
Proof.
  unfold headerOf, FindStringSubmatch.
  destruct (doExecute hunkHeaderRx (toBytes line)) as [[[n rest] caps]|] eqn:Hd;
    [right | by left].
  apply doExecute_sound in Hd as (pre & w & c' & Hline & Hm & ->).
  unfold hunkHeaderRx, catList in Hm. cbn [foldr] in Hm.
  apply matches_Cat_inv in Hm as (u0 & t1 & c0 & -> & H0 & Hm).
  apply matches_lits_inv in H0 as [-> ->].
  apply matches_Cat_inv in Hm as (wa & t2 & ca & -> & Ha & Hm).
  apply matches_digits_inv in Ha as (Hane & Ha & ->).
  apply matches_Cat_inv in Hm as (u1 & t3 & c1 & -> & H1 & Hm).
  apply matches_lits_inv in H1 as [-> ->].
  apply matches_Cat_inv in Hm as (wb & t4 & cb & -> & Hb & Hm).
  apply matches_digits_inv in Hb as (Hbne & Hb & ->).
  apply matches_Cat_inv in Hm as (u2 & t5 & c2 & -> & H2 & Hm).
  apply matches_lits_inv in H2 as [-> ->].
  apply matches_Cat_inv in Hm as (wc & t6 & cc & -> & Hc & Hm).
  apply matches_digits_inv in Hc as (Hcne & Hc & ->).
  apply matches_Cat_inv in Hm as (u3 & t7 & c3 & -> & H3 & Hm).
  apply matches_lits_inv in H3 as [-> ->].
  apply matches_Cat_inv in Hm as (wd & t8 & cd & -> & Hd & Hm).
  apply matches_digits_inv in Hd as (Hdne & Hd & ->).
  apply matches_Cat_inv in Hm as (u4 & t9 & c4 & -> & H4 & Hm).
  apply matches_lits_inv in H4 as [-> ->].
  apply matches_Eps_inv in Hm as [-> ->].
  exists (ofBytes wa), (ofBytes wb), (ofBytes wc), (ofBytes wd).
  split_and!; try by apply digits_ofBytes.
  - change (noCaptures _) with (replicate 5 (@nil ascii)).
    cbn [replicate insert list_insert fmap list_fmap].
    unfold hunkHeaderText, Sprintf. cbn [foldr].
    by rewrite !ofBytes_app, !ofBytes_toBytes.
  - exists (ofBytes pre), (ofBytes rest). apply toBytes_inj. rewrite Hline.
    unfold hunkHeaderText, Sprintf. cbn [foldr].
    by rewrite !toBytes_app, !toBytes_ofBytes, <- !app_assoc.
Qed.

(** A line that begins with a hunk header has that header. *)
Lemma headerOf_begin (a b c d rest : string) :
  digits a → digits b → digits c → digits d →
  headerOf (hunkHeaderText a b c d +:+ rest) a b c d.
Proof.
  intros Ha Hb Hc Hd. unfold headerOf. split_and!; try done.
  - by apply hunkHeaderRx_match.
  - by exists EmptyString, rest.
Qed.

Lemma step_hunkHeader (st : parser) (line a b c d : string) :
  len (filename st) ≠ 0%nat →
  FindStringSubmatch fileHeaderRx line = [] → isMetadata line = false →
  headerOf line a b c d →
  step st line = opened st a b c d.
Proof.
  intros Hf Hnf Hm (_ & _ & _ & _ & Hh & _). unfold step.
  rewrite Hnf, Hm, Hh. apply Nat.eqb_neq in Hf. by rewrite Hf.
Qed.

(** C7. For every hunk header [@@ -a,b +c,d @@] that the parser reads inside
    a file, the hunk it opens has OldStart = a, OldEnd = a + b - 1,
    NewStart = c and NewEnd = c + d - 1, the numbers and sums being Go's:
    [Atoi] of the digits, [int] arithmetic.  They are the numbers written
    whenever a + b and c + d fit an [int]. *)
Theorem C7_hunk_ranges (st : parser) (line a b c d : string) :
  len (filename st) ≠ 0%nat →
  FindStringSubmatch fileHeaderRx line = [] → isMetadata line = false →
  headerOf line a b c d →
  ∃ hd,
    hunkDiffs (step st line) = hunkDiffs st ++ [hd] ∧
    Filename hd = filename st ∧
    OldStart hd = Atoi a ∧
    OldEnd hd = GoInt.sub (GoInt.add (Atoi a) (Atoi b)) 1 ∧
    NewStart hd = Atoi c ∧
    NewEnd hd = GoInt.sub (GoInt.add (Atoi c) (Atoi d)) 1 ∧
    (value a + value b ≤ GoInt.MaxInt64 →
       OldStart hd = value a ∧ OldEnd hd = value a + value b - 1) ∧
    (value c + value d ≤ GoInt.MaxInt64 →
       NewStart hd = value c ∧ NewEnd hd = value c + value d - 1).
Proof.
  intros Hf Hnf Hm Hh. rewrite (step_hunkHeader st line a b c d) by done.
  destruct Hh as (Ha & Hb & Hc & Hd & _).
  eexists. split; [reflexivity|]. simpl.
  repeat split; try done.
  - pose proof (value_nonneg b). rewrite Atoi_exact; [done | done | lia].
  - pose proof (value_nonneg a). pose proof (value_nonneg b).
    rewrite !Atoi_exact; [| done | lia | done | lia].
    rewrite add_exact, sub_exact; [lia | |];
      unfold GoInt.inRange, GoInt.MinInt64, GoInt.MaxInt64 in *; lia.
  - pose proof (value_nonneg d). rewrite Atoi_exact; [done | done | lia].
  - pose proof (value_nonneg c). pose proof (value_nonneg d).
    rewrite !Atoi_exact; [| done | lia | done | lia].
    rewrite add_exact, sub_exact; [lia | |];
      unfold GoInt.inRange, GoInt.MinInt64, GoInt.MaxInt64 in *; lia.
Qed.

Lemma headerOf_sample :
  headerOf "@@ -10,1 +10,3 @@ func main() {" "10" "1" "10" "3".
Proof.
  apply (headerOf_begin "10" "1" "10" "3" " func main() {");
    [apply digits_10 | apply digits_1 | apply digits_10 | apply digits_3].
Qed.

Lemma C7_hunk_ranges_witness :
  ∃ hd,
    hunkDiffs (step stA "@@ -10,1 +10,3 @@ func main() {") = hunkDiffs stA ++ [hd] ∧
    Filename hd = filename stA ∧
    OldStart hd = Atoi "10" ∧
    OldEnd hd = GoInt.sub (GoInt.add (Atoi "10") (Atoi "1")) 1 ∧
    NewStart hd = Atoi "10" ∧
    NewEnd hd = GoInt.sub (GoInt.add (Atoi "10") (Atoi "3")) 1 ∧
    (value "10" + value "1" ≤ GoInt.MaxInt64 →
       OldStart hd = value "10" ∧ OldEnd hd = value "10" + value "1" - 1) ∧
    (value "10" + value "3" ≤ GoInt.MaxInt64 →
       NewStart hd = value "10" ∧ NewEnd hd = value "10" + value "3" - 1).
Proof.
  apply (C7_hunk_ranges stA "@@ -10,1 +10,3 @@ func main() {" "10" "1" "10" "3");
    [vm_compute; lia | vm_compute; reflexivity | vm_compute; reflexivity
    | apply headerOf_sample].
Defined.

Example scenario1_hunk :
  hunkDiffs (step stA "@@ -10,1 +10,3 @@")
  = [{| Filename := "a.go"; OldStart := 10; OldEnd := 10; Old := [];
        NewStart := 10; NewEnd := 12; New := [] |}].
Proof. vm_compute. reflexivity. Qed.

(** After a hunk header [@@ -a,b +c,d @@] that the parser reads inside a
    file, the old-line cursor is the hunk's OldStart (a) and the new-line
    cursor is the hunk's OldEnd (a + b - 1), whatever c and d are: line 188
    assigns [oldstart, oldend]. *)
Lemma header_cursors (st : parser) (line a b c d : string) :
  len (filename st) ≠ 0%nat →
  FindStringSubmatch fileHeaderRx line = [] → isMetadata line = false →
  headerOf line a b c d →
  ∃ hd,
    hunkDiffs (step st line) = hunkDiffs st ++ [hd] ∧
    oldline (step st line) = OldStart hd ∧
    newline (step st line) = OldEnd hd ∧
    OldStart hd = Atoi a ∧
    OldEnd hd = GoInt.sub (GoInt.add (Atoi a) (Atoi b)) 1 ∧
    (value a + value b ≤ GoInt.MaxInt64 →
       oldline (step st line) = value a ∧
       newline (step st line) = value a + value b - 1).
Proof.
  intros Hf Hnf Hm Hh. rewrite (step_hunkHeader st line a b c d) by done.
  destruct Hh as (Ha & Hb & Hc & Hd & _).
  eexists. split; [reflexivity|]. simpl.
  split_and!; try done.
  intros Hfit. pose proof (value_nonneg a). pose proof (value_nonneg b).
  rewrite !Atoi_exact; [| done | lia | done | lia].
  rewrite add_exact, sub_exact; [done | |];
    unfold GoInt.inRange, GoInt.MinInt64, GoInt.MaxInt64 in *; lia.
Qed.

(** C3 (the code at the hunk header [@@ -10,2 +20,3 @@]). The hunk opened
    is of the lines 20 to 22 of the new file.  The old-line cursor is 10,
    the hunk's OldStart; the new-line cursor is 11, the hunk's OldEnd, and
    neither its NewEnd, 22, nor its NewStart, 20: line 188 assigns [oldend]
    to [newline].  The added line [+x], which is line 21 of the new file,
    is kept with the number 12. *)
Theorem C3_new_cursor_is_old_end :
  hunkDiffs (parseLines shiftedHeader)
  = [{| Filename := "a.go"; OldStart := 10; OldEnd := 11; Old := [];
        NewStart := 20; NewEnd := 22; New := [] |}] ∧
  oldline (parseLines shiftedHeader) = 10 ∧
  newline (parseLines shiftedHeader) = 11 ∧
  hunkDiffs (parseLines (shiftedHeader ++ [" a"; "+x"; " b"]))
  = [{| Filename := "a.go"; OldStart := 10; OldEnd := 11; Old := [];
        NewStart := 20; NewEnd := 22;
        New := [{| Num := 12; Text := "+x" |}] |}].
Proof. split_and!; vm_compute; reflexivity. Qed.

(** ** Lines between a file header and its first hunk header *)

(** C10 (as the code has it). With a hunk open for an earlier file, a line
    that follows a later file header with only metadata lines in between,
    that is itself neither metadata nor a header, and that begins with [+]
    (or [-]) is appended to the last hunk opened, with Num = -1. *)
Theorem C10_global_guard (st : parser) (hs : list HunkDiff) (h : HunkDiff)
    (hdr whole f : string) (meta : list string) (l : string) :
  hunkDiffs st = hs ++ [h] →
  FindStringSubmatch fileHeaderRx hdr = [whole; f] →
  Forall skipped meta → content l →
  filename (foldl step st (hdr :: meta ++ [l])) = f ∧
  (HasPrefix l "+" = true →
     ∃ h', hunkDiffs (foldl step st (hdr :: meta ++ [l])) = hs ++ [h'] ∧
           Filename h' = Filename h ∧ Old h' = Old h ∧
           New h' = New h ++ [{| Num := -1; Text := l |}]) ∧
  (HasPrefix l "+" = false → HasPrefix l "-" = true →
     ∃ h', hunkDiffs (foldl step st (hdr :: meta ++ [l])) = hs ++ [h'] ∧
           Filename h' = Filename h ∧ New h' = New h ∧
           Old h' = Old h ++ [{| Num := -1; Text := l |}]).
Proof.
  intros Hhs Hhdr Hmeta Hl. cbn [foldl].
  rewrite foldl_app, (step_fileHeader _ _ _ _ Hhdr).
  rewrite (foldl_step_skipped _ _ Hmeta). cbn [foldl].
  assert (len f ≠ 0%nat) as Hf.
  { destruct (fileHeaderRx_result hdr) as [E|(w' & f' & E & Hf')];
      rewrite Hhdr in E; [discriminate | by injection E as _ ->]. }
  split_and!.
  - destruct (HasPrefix l "+") eqn:Hp; [|destruct (HasPrefix l "-") eqn:Hq].
    + by erewrite step_added.
    + by erewrite step_removed.
    + erewrite step_context; try done. simpl. rewrite Hhs. by destruct hs.
  - intros Hp. erewrite step_added by done. simpl. by eexists.
  - intros Hp Hq. erewrite step_removed by done. simpl. by eexists.
Qed.

Lemma C10_global_guard_witness :
  filename (foldl step (parseLines ["diff --git a/a.go b/a.go"; "@@ -1,1 +1,1 @@"])
              ("diff --git a/b.go b/b.go" :: ["index 1..2 100644"] ++ ["+x"]))
    = "b.go" ∧
  HasPrefix "+x" "+" = true ∧
  ∃ h', hunkDiffs (foldl step (parseLines ["diff --git a/a.go b/a.go"; "@@ -1,1 +1,1 @@"])
                     ("diff --git a/b.go b/b.go" :: ["index 1..2 100644"] ++ ["+x"]))
          = [] ++ [h'] ∧
        Filename h' = "a.go" ∧ Old h' = [] ∧
        New h' = [] ++ [{| Num := -1; Text := "+x" |}].
Proof.
  destruct (C10_global_guard
              (parseLines ["diff --git a/a.go b/a.go"; "@@ -1,1 +1,1 @@"]) []
              {| Filename := "a.go"; OldStart := 1; OldEnd := 1; Old := [];
                 NewStart := 1; NewEnd := 1; New := [] |}
              "diff --git a/b.go b/b.go" "diff --git a/b.go b/b.go" "b.go"
              ["index 1..2 100644"] "+x")
    as (Hf & Hplus & _).
  - vm_compute. reflexivity.
  - vm_compute. reflexivity.
  - repeat constructor.
  - repeat split.
  - split; [exact Hf|]. split; [reflexivity|]. exact (Hplus eq_refl).
Defined.

(** A line [+x] after the header of b.go and the line [new file mode] has
    Num = 0 in the hunk of a.go; a line [+++ b/b.go] there is dropped. *)
Lemma C10_counterexample :
  hunkDiffs (parseLines strayLines)
  = [{| Filename := "a.go"; OldStart := 1; OldEnd := 1; Old := [];
        NewStart := 1; NewEnd := 1; New := [{| Num := 0; Text := "+x" |}] |}]
  ∧ hunkDiffs (parseLines metadataLines)
  = [{| Filename := "a.go"; OldStart := 1; OldEnd := 1; Old := [];
        NewStart := 1; NewEnd := 1; New := [] |}].
Proof. split; vm_compute; reflexivity. Qed.

(** ** Correlation *)

Lemma endline_spec (sorted : list Tag) (i : nat) :
  (∀ next, sorted !! S i = Some next →
     endline sorted i = GoInt.sub (ctags.Line next) 1 ∧
     (GoInt.MinInt64 < ctags.Line next ≤ GoInt.MaxInt64 →
        endline sorted i = ctags.Line next - 1)) ∧
  (sorted !! S i = None → endline sorted i = GoInt.MaxInt64).
Proof.
  unfold endline. rewrite Nat.add_1_r. split.
  - intros next Hnext. apply lookup_lt_Some in Hnext as Hlt.
    destruct (Nat.ltb_spec (S i) (length sorted)); [|lia].
    rewrite (list_lookup_total_correct _ _ _ Hnext). split; [done|].
    intros Hr. apply sub_exact.
    unfold GoInt.inRange, GoInt.MinInt64, GoInt.MaxInt64 in *. lia.
  - intros Hnone. apply lookup_ge_None in Hnone.
    by destruct (Nat.ltb_spec (S i) (length sorted)); [lia|].
Qed.

(** The tag at index [i] is among the changed tags exactly when a hunk of
    its file passes the test of line 240 for the end line the loop has
    computed. *)
Lemma changedTags_hunk (hds : list HunkDiff) (tags : list Tag) (i : nat) (t : Tag) :
  tags !! i = Some t →
  i ∈ changedTags (hunkDiffM hds) tags ↔
  ∃ h, h ∈ hds ∧ Filename h = ctags.File t ∧
       ¬ (NewStart h > endline tags i ∨ NewEnd h < ctags.Line t).
Proof.
  intros Hi. rewrite changedTags_elem. unfold hit.
  rewrite (list_lookup_total_correct _ _ _ Hi), hunkDiffM_lookup, scanHunks_spec.
  apply lookup_lt_Some in Hi as Hlt. split.
  - intros (_ & h & Hin & Ho). apply list_elem_of_filter in Hin as [Hf Hin].
    exists h. by rewrite <- overlaps_spec.
  - intros (h & Hin & Hf & Ho). split; [done|]. exists h.
    rewrite list_elem_of_filter, overlaps_spec. done.
Qed.

(** C1. The tag [t] at index [i] of the sorted tags is among the changed
    tags exactly when some hunk [h] of the same file has
    not (NewStart > end or NewEnd < Line), where the end is the Line of the
    tag at index [i + 1] minus one (in Go's [int]; the number itself for
    every Line above the least [int]) and the largest [int] when [t] is the
    last tag; no tag is listed twice; and a tag of a file without hunks,
    which has no entry in the map, is not listed. *)
Theorem C1_changed_iff (hds : list HunkDiff) (tags : list Tag) (i : nat) (t : Tag) :
  tags !! i = Some t →
  (∀ next, tags !! S i = Some next →
     (i ∈ changedTags (hunkDiffM hds) tags ↔
        ∃ h, h ∈ hds ∧ Filename h = ctags.File t ∧
             ¬ (NewStart h > GoInt.sub (ctags.Line next) 1
                ∨ NewEnd h < ctags.Line t)) ∧
     (GoInt.MinInt64 < ctags.Line next ≤ GoInt.MaxInt64 →
        (i ∈ changedTags (hunkDiffM hds) tags ↔
           ∃ h, h ∈ hds ∧ Filename h = ctags.File t ∧
                ¬ (NewStart h > ctags.Line next - 1 ∨ NewEnd h < ctags.Line t)))) ∧
  (tags !! S i = None →
     (i ∈ changedTags (hunkDiffM hds) tags ↔
        ∃ h, h ∈ hds ∧ Filename h = ctags.File t ∧
             ¬ (NewStart h > GoInt.MaxInt64 ∨ NewEnd h < ctags.Line t))) ∧
  NoDup (changedTags (hunkDiffM hds) tags) ∧
  ((∀ h, h ∈ hds → Filename h ≠ ctags.File t) →
     hunkDiffM hds !! ctags.File t = None ∧
     i ∉ changedTags (hunkDiffM hds) tags).
Proof.
  intros Hi. pose proof (changedTags_hunk hds tags i t Hi) as Hiff.
  destruct (endline_spec tags i) as [Hsome Hnone].
  split_and!.
  - intros next Hnext. destruct (Hsome next Hnext) as [Hw Hexact]. split.
    + by rewrite <- Hw.
    + intros Hr. by rewrite <- (Hexact Hr).
  - intros Hlast. by rewrite <- (Hnone Hlast).
  - apply changedTags_NoDup.
  - intros Hno. split; [by apply hunkDiffM_None|].
    rewrite Hiff. intros (h & Hin & Hf & _). by apply (Hno h).
Qed.

Lemma C1_changed_iff_witness :
  (∀ next, [tagFoo; tagBar] !! 1%nat = Some next →
     (0%nat ∈ changedTags (hunkDiffM [hunkA]) [tagFoo; tagBar] ↔
        ∃ h, h ∈ [hunkA] ∧ Filename h = ctags.File tagFoo ∧
             ¬ (NewStart h > GoInt.sub (ctags.Line next) 1
                ∨ NewEnd h < ctags.Line tagFoo)) ∧
     (GoInt.MinInt64 < ctags.Line next ≤ GoInt.MaxInt64 →
        (0%nat ∈ changedTags (hunkDiffM [hunkA]) [tagFoo; tagBar] ↔
           ∃ h, h ∈ [hunkA] ∧ Filename h = ctags.File tagFoo ∧
                ¬ (NewStart h > ctags.Line next - 1
                   ∨ NewEnd h < ctags.Line tagFoo)))) ∧
  ([tagFoo; tagBar] !! 1%nat = None →
     (0%nat ∈ changedTags (hunkDiffM [hunkA]) [tagFoo; tagBar] ↔
        ∃ h, h ∈ [hunkA] ∧ Filename h = ctags.File tagFoo ∧
             ¬ (NewStart h > GoInt.MaxInt64 ∨ NewEnd h < ctags.Line tagFoo))) ∧
  NoDup (changedTags (hunkDiffM [hunkA]) [tagFoo; tagBar]) ∧
  ((∀ h, h ∈ [hunkA] → Filename h ≠ ctags.File tagFoo) →
     hunkDiffM [hunkA] !! ctags.File tagFoo = None ∧
     0%nat ∉ changedTags (hunkDiffM [hunkA]) [tagFoo; tagBar]).
Proof. apply (C1_changed_iff [hunkA] [tagFoo; tagBar] 0 tagFoo). reflexivity. Defined.

(** The first scenario of the design document: Foo (line 9, end 14) is
    changed by the hunk [10,12]; Bar (line 15) is not. *)
Example scenario1_changed :
  endline [tagFoo; tagBar] 0 = 14 ∧
  changedTags (hunkDiffM [hunkA]) [tagFoo; tagBar] = [0%nat].
Proof. split; vm_compute; reflexivity. Qed.

(** A hunk [20,22] lies behind the end of Foo, which is line 14, and inside
    Bar, which is the last tag: only Bar is changed. *)
Example end_line_bounds_first_tag :
  changedTags (hunkDiffM [hunkB]) [tagFoo; tagBar] = [1%nat].
Proof. vm_compute. reflexivity. Qed.

(** C2. In the one sequence of all tags, the implicit end line of the tag at
    index [i] is the Line of the tag at index [i + 1] minus one, whatever the
    file of that tag, and the largest integer when there is no such tag. *)
Theorem C2_implicit_end (sorted : list Tag) (i : nat) (t : Tag) :
  sorted !! i = Some t →
  (∀ next, sorted !! S i = Some next →
     endline sorted i = GoInt.sub (ctags.Line next) 1 ∧
     (GoInt.MinInt64 < ctags.Line next ≤ GoInt.MaxInt64 →
        endline sorted i = ctags.Line next - 1)) ∧
  (sorted !! S i = None → endline sorted i = GoInt.MaxInt64).
Proof. intros _. apply endline_spec. Qed.

Lemma C2_implicit_end_witness :
  (∀ next, [tagFoo; tagOther; tagBar] !! 1%nat = Some next →
     endline [tagFoo; tagOther; tagBar] 0 = GoInt.sub (ctags.Line next) 1 ∧
     (GoInt.MinInt64 < ctags.Line next ≤ GoInt.MaxInt64 →
        endline [tagFoo; tagOther; tagBar] 0 = ctags.Line next - 1)) ∧
  ([tagFoo; tagOther; tagBar] !! 1%nat = None →
     endline [tagFoo; tagOther; tagBar] 0 = GoInt.MaxInt64).
Proof. apply (C2_implicit_end [tagFoo; tagOther; tagBar] 0 tagFoo). reflexivity. Defined.

(** The tag of b.go at line 12 ends the tag of a.go at line 9; the last tag
    is open-ended. *)
Example implicit_end_across_files :
  endline [tagFoo; tagOther; tagBar] 0 = 11 ∧
  endline [tagFoo; tagOther; tagBar] 2 = GoInt.MaxInt64.
Proof. split; vm_compute; reflexivity. Qed.

(** ** Tags with equal lines *)

Lemma tagAt_Some (tags : list Tag) (i : Z) (a : Tag) :
  tagAt tags i = Some a ↔ 0 ≤ i < tagSorter.Len tags ∧ tags !! Z.to_nat i = Some a.
Proof.
  unfold tagAt, tagSorter.Len. destruct (Z.ltb_spec i 0) as [Hneg|Hpos].
  - split; [done | lia].
  - split.
    + intros Ha. split; [|done]. apply lookup_lt_Some in Ha. lia.
    + by intros [_ ?].
Qed.

Lemma tagAt_None (tags : list Tag) (i : Z) :
  tagAt tags i = None ↔ i < 0 ∨ tagSorter.Len tags ≤ i.
Proof.
  unfold tagAt, tagSorter.Len. destruct (Z.ltb_spec i 0) as [Hneg|Hpos].
  - split; [by left | done].
  - rewrite lookup_ge_None. lia.
Qed.

Lemma Swap_lookup (tags tags' : list Tag) (i j : Z) :
  tagSorter.Swap tags i j = Some tags' →
  0 ≤ i < tagSorter.Len tags ∧ 0 ≤ j < tagSorter.Len tags ∧
  length tags' = length tags ∧
  ∀ k, tags' !! k
       = tags !! (if decide (k = Z.to_nat i) then Z.to_nat j
                  else if decide (k = Z.to_nat j) then Z.to_nat i else k).
Proof.
  unfold tagSorter.Swap.
  destruct (tagAt tags i) as [a|] eqn:Ha; [|done].
  destruct (tagAt tags j) as [b|] eqn:Hb; [|done].
  apply tagAt_Some in Ha as [Hi Ha]. apply tagAt_Some in Hb as [Hj Hb].
  simpl. intros [= <-].
  split; [done|]. split; [done|]. split; [by rewrite !length_insert|].
  unfold tagSorter.Len in *. intros k.
  destruct (decide (k = Z.to_nat j)) as [->|Hkj].
  - rewrite list_lookup_insert_eq by (rewrite length_insert; lia).
    destruct (decide (Z.to_nat j = Z.to_nat i)) as [Heq|_].
    + rewrite Hb. rewrite Heq in Hb. congruence.
    + done.
  - rewrite list_lookup_insert_ne by done.
    destruct (decide (k = Z.to_nat i)) as [->|Hki].
    + by rewrite list_lookup_insert_eq by lia.
    + by rewrite list_lookup_insert_ne.
Qed.

Lemma Swap_Permutation (tags tags' : list Tag) (i j : Z) :
  tagSorter.Swap tags i j = Some tags' → tags ≡ₚ tags'.
Proof.
  intros (Hi & Hj & Hlen & Hk)%Swap_lookup. symmetry.
  apply Permutation_inj. split; [done|].
  exists (fun k => if decide (k = Z.to_nat i) then Z.to_nat j
                   else if decide (k = Z.to_nat j) then Z.to_nat i else k).
  split; [|done]. intros x y. repeat case_decide; congruence.
Qed.







(** ** Events *)

Lemma foldl_emits {A} (f : output → A → output)
    (ev : A → list EvtUpdate) (sb : A → list SubUpdate) (l : list A) (o : output) :
  (∀ o x, events (f o x) = events o ++ ev x ∧
          subscriptions (f o x) = subscriptions o ++ sb x) →
  events (foldl f o l) = events o ++ (l ≫= ev) ∧
  subscriptions (foldl f o l) = subscriptions o ++ (l ≫= sb).
Proof.
  intros Hf. revert o. induction l as [|x l IH]; intros o; simpl.
  - by rewrite !app_nil_r.
  - destruct (IH (f o x)) as [-> ->]. destruct (Hf o x) as [-> ->].
    by rewrite <- !app_assoc.
Qed.

Lemma emitCall_spec c hd ln o mt :
  events (emitCall c hd ln o mt) = events o ++ callHits c hd ln mt ∧
  subscriptions (emitCall c hd ln o mt) = subscriptions o ++ callSubs c mt.
Proof.
  unfold emitCall, callHits, callSubs.
  destruct (kept (mt !!! 1%nat)); simpl; by rewrite ?app_nil_r.
Qed.

Lemma emitReact_spec c hd ln o mt :
  events (emitReact c hd ln o mt) = events o ++ reactHits c hd ln mt ∧
  subscriptions (emitReact c hd ln o mt) = subscriptions o ++ reactSubs c mt.
Proof.
  unfold emitReact, reactHits, reactSubs.
  destruct (kept mt); simpl; by rewrite ?app_nil_r.
Qed.

Lemma scanLine_spec c hd o ln :
  events (scanLine c hd o ln) = events o ++ lineEvents c hd ln ∧
  subscriptions (scanLine c hd o ln) = subscriptions o ++ lineSubs c ln.
Proof.
  unfold scanLine, lineEvents, lineSubs.
  destruct (foldl_emits (emitReact c hd ln) (reactHits c hd ln) (reactSubs c)
              (FindStringSubmatch typescriptRx (Text ln))
              (foldl (emitCall c hd ln) o
                 (FindAllStringSubmatch functionRx (Text ln))))
    as [-> ->]; [apply emitReact_spec|].
  destruct (foldl_emits (emitCall c hd ln) (callHits c hd ln) (callSubs c)
              (FindAllStringSubmatch functionRx (Text ln)) o)
    as [-> ->]; [apply emitCall_spec|].
  by rewrite !app_assoc.
Qed.

Lemma referenceEvents_spec c hds o :
  events (referenceEvents c hds o) = events o ++ refEvents c hds ∧
  subscriptions (referenceEvents c hds o) = subscriptions o ++ refSubs c hds.
Proof.
  unfold referenceEvents, refEvents, refSubs.
  apply (foldl_emits _ (fun hd => New hd ≫= lineEvents c hd)
                       (fun hd => New hd ≫= lineSubs c)).
  intros o' hd. apply foldl_emits. intros o'' ln. apply scanLine_spec.
Qed.

Lemma modifiedEvents_spec c tags changed o :
  events (modifiedEvents c tags changed o)
  = events o ++ ((fun i => modifiedEvent c (tags !!! i)) <$> changed) ∧
  subscriptions (modifiedEvents c tags changed o)
  = subscriptions o ++ (changed ≫= fun i => subsFor c (ctags.Name (tags !!! i))).
Proof.
  unfold modifiedEvents.
  destruct (foldl_emits (fun o i => emitModified c o (tags !!! i))
              (fun i => [modifiedEvent c (tags !!! i)])
              (fun i => subsFor c (ctags.Name (tags !!! i))) changed o)
    as [-> ->]; [done|].
  split; [|done]. by f_equal.
Qed.

Lemma assemble_spec c tags changed hds :
  Updates (assemble c tags changed hds)
  = ((fun i => modifiedEvent c (tags !!! i)) <$> changed) ++ refEvents c hds ∧
  SubscriptionUpdates (assemble c tags changed hds)
  = (changed ≫= fun i => subsFor c (ctags.Name (tags !!! i))) ++ refSubs c hds.
Proof.
  unfold assemble. simpl.
  destruct (referenceEvents_spec c hds
              (modifiedEvents c tags changed {| events := []; subscriptions := [] |}))
    as [-> ->].
  destruct (modifiedEvents_spec c tags changed {| events := []; subscriptions := [] |})
    as [-> ->].
  done.
Qed.

Lemma elem_of_callHits c hd ln mt e :
  e ∈ callHits c hd ln mt ↔
  kept (mt !!! 1%nat) = true ∧ e = callEvent c hd ln (mt !!! 1%nat).
Proof.
  unfold callHits. destruct (kept (mt !!! 1%nat)).
  - rewrite list_elem_of_singleton. split; [by intros -> | by intros [_ ->]].
  - rewrite elem_of_nil. split; [done | by intros [? _]].
Qed.

Lemma elem_of_reactHits c hd ln mt e :
  e ∈ reactHits c hd ln mt ↔ kept mt = true ∧ e = reactEvent c hd ln mt.
Proof.
  unfold reactHits. destruct (kept mt).
  - rewrite list_elem_of_singleton. split; [by intros -> | by intros [_ ->]].
  - rewrite elem_of_nil. split; [done | by intros [? _]].
Qed.

Lemma kept_spec tok :
  kept tok = true ↔ tok ≠ EmptyString ∧ ignore !! tok ≠ Some true.
Proof.
  unfold kept, ignored. rewrite andb_true_iff, negb_true_iff, Nat.ltb_lt.
  split.
  - intros [Hlen Hig]. split.
    + intros ->. simpl in Hlen. lia.
    + intros E. by rewrite E in Hig.
  - intros [Hne Hig]. split.
    + destruct tok; [done | simpl; lia].
    + destruct (ignore !! tok) as [[]|]; done.
Qed.

(** The reference events come from the added lines of the hunks. *)
Lemma elem_of_refEvents c hds e :
  e ∈ refEvents c hds ↔
  ∃ hd ln, hd ∈ hds ∧ ln ∈ New hd ∧
    ((∃ mt, mt ∈ FindAllStringSubmatch functionRx (Text ln) ∧
            kept (mt !!! 1%nat) = true ∧ e = callEvent c hd ln (mt !!! 1%nat)) ∨
     (∃ mt, mt ∈ FindStringSubmatch typescriptRx (Text ln) ∧
            kept mt = true ∧ e = reactEvent c hd ln mt)).
Proof.
  unfold refEvents, lineEvents. rewrite list_elem_of_bind. split.
  - intros (hd & He & Hhd). apply list_elem_of_bind in He as (ln & He & Hln).
    exists hd, ln. split; [done|]. split; [done|].
    apply elem_of_app in He as [He|He];
      apply list_elem_of_bind in He as (mt & He & Hmt).
    + left. exists mt. by apply elem_of_callHits in He as [? ?].
    + right. exists mt. by apply elem_of_reactHits in He as [? ?].
  - intros (hd & ln & Hhd & Hln & He). exists hd. split; [|done].
    apply list_elem_of_bind. exists ln. split; [|done].
    apply elem_of_app.
    destruct He as [(mt & Hmt & Hk & ->)|(mt & Hmt & Hk & ->)]; [left | right];
      apply list_elem_of_bind; exists mt; split; try done.
    + by apply elem_of_callHits.
    + by apply elem_of_reactHits.
Qed.

Lemma lineEvents_Filename c hd hd' ln :
  Filename hd = Filename hd' → lineEvents c hd ln = lineEvents c hd' ln.
Proof.
  intros Hf. unfold lineEvents. f_equal; apply list_bind_ext; try done;
    intros mt; unfold callHits, reactHits, callEvent, reactEvent; by rewrite Hf.
Qed.

Lemma refEvents_added_only c hds hds' :
  (fun hd => (Filename hd, New hd)) <$> hds' = (fun hd => (Filename hd, New hd)) <$> hds →
  refEvents c hds' = refEvents c hds ∧ refSubs c hds' = refSubs c hds.
Proof.
  revert hds'. induction hds as [|hd hds IH]; intros [|hd' hds']; try done.
  simpl. intros [= Hf Hn Hrest]. destruct (IH _ Hrest) as [IHe IHs].
  unfold refEvents, refSubs in *. simpl. rewrite IHe, IHs, Hn. split; [|done].
  f_equal. apply list_bind_ext; [|done]. intros ln.
  by apply lineEvents_Filename.
Qed.

Lemma callHits_IDs c hd ln (mts : list (list string)) :
  (fun e => ID (Event e)) <$> (mts ≫= callHits c hd ln)
  = (fun tok => eventID c "referenced" tok (Filename hd))
      <$> List.filter kept ((fun mt => mt !!! 1%nat) <$> mts).
Proof.
  induction mts as [|mt mts IH]; [done|].
  rewrite bind_cons, fmap_app, IH. cbn [fmap list_fmap List.filter].
  unfold callHits. by destruct (kept (mt !!! 1%nat)).
Qed.

Lemma reactHits_IDs c hd ln (mts : list string) :
  (fun e => ID (Event e)) <$> (mts ≫= reactHits c hd ln)
  = (fun tok => eventID c "referenced(react)" tok (Filename hd))
      <$> List.filter kept mts.
Proof.
  induction mts as [|mt mts IH]; [done|].
  rewrite bind_cons, fmap_app, IH. cbn [List.filter].
  unfold reactHits. by destruct (kept mt).
Qed.

(** C5 (as the code has it). The IDs of the events, in the order of the
    events, are [modified:<name>:<file>:<commitURL>] for each changed tag,
    and then, for each added line of each hunk,
    [referenced:<identifier>:<file>:<commitURL>] for each call-like
    reference of the line and [referenced(react):<text>:<file>:<commitURL>]
    for each tag-like reference of it: every ID is
    [<kind>:<subject>:<file>:<commitURL>], with the kind [modified] for a
    changed tag, [referenced] for a call-like reference and
    [referenced(react)] for a tag-like one, and no other. *)
Theorem C5_event_ids (c : Commit) (tags : list Tag) (changed : list nat)
    (hds : list HunkDiff) :
  (fun e => ID (Event e)) <$> Updates (assemble c tags changed hds)
  = ((fun i => eventID c "modified" (ctags.Name (tags !!! i))
                       (ctags.File (tags !!! i))) <$> changed)
    ++ (hds ≫= fun hd => New hd ≫= fun ln =>
          ((fun tok => eventID c "referenced" tok (Filename hd))
             <$> callTokens (Text ln))
          ++ ((fun tok => eventID c "referenced(react)" tok (Filename hd))
                <$> markupTokens (Text ln))).
Proof.
  destruct (assemble_spec c tags changed hds) as [-> _].
  rewrite fmap_app. f_equal.
  - rewrite <- list_fmap_compose. by apply list_fmap_ext.
  - unfold refEvents. induction hds as [|hd hds IH]; [done|].
    rewrite !bind_cons, fmap_app, IH. f_equal.
    induction (New hd) as [|ln lns IHl]; [done|].
    rewrite !bind_cons, fmap_app, IHl. f_equal.
    unfold lineEvents, callTokens, markupTokens.
    by rewrite fmap_app, callHits_IDs, reactHits_IDs.
Qed.

(** A commit that changes the tag View and adds a call and a component:
    the three kinds of ID. *)
Example three_kinds_of_id :
  (fun e => ID (Event e)) <$> Updates (Execute commit0 diffKinds [tagView])
  = ["modified:View:a.tsx:https://github.com/o/r/commit/abc";
     "referenced:doStuff:a.tsx:https://github.com/o/r/commit/abc";
     "referenced(react):<Foo>:a.tsx:https://github.com/o/r/commit/abc";
     "referenced(react):Foo:a.tsx:https://github.com/o/r/commit/abc"].
Proof. vm_compute. reflexivity. Qed.

(** The event of the added line [<Foo>] has the ID
    [referenced(react):Foo:a.tsx:...], which has none of the kinds
    [modified], [referenced], [referenced(markup)]. *)
Lemma C5_counterexample :
  ∃ e, e ∈ Updates (Execute commit0 diffReact []) ∧
       ID (Event e) = "referenced(react):Foo:a.tsx:https://github.com/o/r/commit/abc" ∧
       ¬ idForm ["modified"; "referenced"; "referenced(markup)"] commit0 (ID (Event e)).
Proof.
  exists (reactEvent commit0
            {| Filename := "a.tsx"; OldStart := 1; OldEnd := 1; Old := [];
               NewStart := 1; NewEnd := 2; New := [] |}
            {| Num := 2; Text := "+<Foo>" |} "Foo").
  split_and!.
  - vm_compute. apply list_elem_of_further, list_elem_of_here.
  - reflexivity.
  - intros (kind & subject & file & Hk & Hid).
    repeat (apply elem_of_cons in Hk as [->|Hk]); [..|by apply elem_of_nil in Hk];
      vm_compute in Hid; discriminate Hid.
Qed.

(** C6 (the code at the added line [<Foo>]). The loop of line 292 ranges
    over the slice [FindStringSubmatch] returns, the whole match and the
    group: the line gives two tag-like events, for [<Foo>] and for [Foo]. *)
Theorem C6_two_events_for_one_line :
  FindStringSubmatch typescriptRx "+<Foo>" = ["<Foo>"; "Foo"] ∧
  Hashes <$> Updates (Execute commit0 diffReact [])
  = [["<Foo>"; "a.tsx"]; ["Foo"; "a.tsx"]] ∧
  (fun e => ID (Event e)) <$> Updates (Execute commit0 diffReact [])
  = ["referenced(react):<Foo>:a.tsx:https://github.com/o/r/commit/abc";
     "referenced(react):Foo:a.tsx:https://github.com/o/r/commit/abc"].
Proof. split_and!; vm_compute; reflexivity. Qed.

(** The second scenario of the design document: [doStuff(x, y)] gives the
    call-like reference [doStuff]; [make([]int, 0)] gives none. *)
Example scenario2_calls :
  Hashes <$> Updates (Execute commit0 diffCalls [])
  = [["doStuff"; "a.go"; "Ada"; "ada@example.org"]].
Proof. vm_compute. reflexivity. Qed.

(** ** Determinism of the assembly *)

Lemma refEvents_IDs c1 c2 hds :
  commitURL c1 = commitURL c2 →
  (fun e => ID (Event e)) <$> refEvents c1 hds
  = (fun e => ID (Event e)) <$> refEvents c2 hds.
Proof.
  intros Hu. unfold refEvents.
  induction hds as [|hd hds IH]; [done|].
  rewrite !bind_cons, !fmap_app, IH. f_equal.
  induction (New hd) as [|ln lns IHl]; [done|].
  rewrite !bind_cons, !fmap_app, IHl. f_equal.
  unfold lineEvents. rewrite !fmap_app. f_equal.
  - induction (FindAllStringSubmatch functionRx (Text ln)) as [|mt mts IHm]; [done|].
    rewrite !bind_cons, !fmap_app, IHm. f_equal.
    unfold callHits. destruct (kept (mt !!! 1%nat)); [|done].
    simpl. by rewrite Hu.
  - induction (FindStringSubmatch typescriptRx (Text ln)) as [|mt mts IHm]; [done|].
    rewrite !bind_cons, !fmap_app, IHm. f_equal.
    unfold reactHits. destruct (kept mt); [|done].
    simpl. by rewrite Hu.
Qed.

Lemma refSubs_authors c1 c2 hds :
  authorName c1 = authorName c2 → authorFirstName c1 = authorFirstName c2 →
  refSubs c1 hds = refSubs c2 hds.
Proof.
  intros Hn Hf. unfold refSubs.
  apply list_bind_ext; [|done]. intros hd.
  apply list_bind_ext; [|done]. intros ln.
  unfold lineSubs. f_equal; apply list_bind_ext; try done; intros mt;
    unfold callSubs, reactSubs, subsFor; by rewrite Hn, Hf.
Qed.

(** C8. Two runs of the assembly on the same tags, the same changed tags and
    the same hunks, for commits with the same URL and author names, give the
    same list of event IDs and the same list of subscription updates (the
    other commit data may even differ). *)
Theorem C8_deterministic (c1 c2 : Commit) (tags1 tags2 : list Tag)
    (changed1 changed2 : list nat) (hds1 hds2 : list HunkDiff) :
  commitURL c1 = commitURL c2 →
  authorName c1 = authorName c2 → authorFirstName c1 = authorFirstName c2 →
  tags1 = tags2 → changed1 = changed2 → hds1 = hds2 →
  (fun e => ID (Event e)) <$> Updates (assemble c1 tags1 changed1 hds1)
  = (fun e => ID (Event e)) <$> Updates (assemble c2 tags2 changed2 hds2) ∧
  SubscriptionUpdates (assemble c1 tags1 changed1 hds1)
  = SubscriptionUpdates (assemble c2 tags2 changed2 hds2).
Proof.
  intros Hu Hn Hf -> -> ->.
  destruct (assemble_spec c1 tags2 changed2 hds2) as [-> ->].
  destruct (assemble_spec c2 tags2 changed2 hds2) as [-> ->].
  rewrite !fmap_app, (refEvents_IDs c1 c2) by done.
  rewrite (refSubs_authors c1 c2) by done.
  split; f_equal.
  - rewrite <- !list_fmap_compose. apply list_fmap_ext. intros _ i _.
    simpl. by rewrite Hu.
  - apply list_bind_ext; [|done]. intros i. unfold subsFor. by rewrite Hn, Hf.
Qed.

Lemma C8_deterministic_witness :
  (fun e => ID (Event e)) <$>
    Updates (assemble commit0 [tagFoo; tagBar] [0%nat] (parseDiff diffCalls))
  = (fun e => ID (Event e)) <$>
    Updates (assemble commit1 [tagFoo; tagBar] [0%nat] (parseDiff diffCalls)) ∧
  SubscriptionUpdates (assemble commit0 [tagFoo; tagBar] [0%nat] (parseDiff diffCalls))
  = SubscriptionUpdates (assemble commit1 [tagFoo; tagBar] [0%nat] (parseDiff diffCalls)).
Proof.
  apply (C8_deterministic commit0 commit1 [tagFoo; tagBar] [tagFoo; tagBar]
           [0%nat] [0%nat] (parseDiff diffCalls) (parseDiff diffCalls));
    reflexivity.
Defined.

(** ** The reference scanner *)

Lemma step_wellMarked (st : parser) (l : string) :
  Forall wellMarked (hunkDiffs st) → Forall wellMarked (hunkDiffs (step st l)).
Proof.
  intros Hst. unfold step.
  destruct (length (FindStringSubmatch fileHeaderRx l) =? 2)%nat; [done|].
  destruct (len (filename st) =? 0)%nat; [done|].
  destruct (isMetadata l); [done|].
  destruct (length (FindStringSubmatch hunkHeaderRx l) =? 5)%nat.
  { simpl. apply Forall_app. split; [done|].
    constructor; [|done]. by split. }
  destruct (length (hunkDiffs st) =? 0)%nat; [done|].
  destruct (HasPrefix l "+") eqn:Hp; [|destruct (HasPrefix l "-") eqn:Hq];
    simpl; [| |done].
  - apply Forall_alter; [done|]. intros hd _ [Hn Ho]. split; [|done].
    simpl. apply Forall_app. split; [done|]. by constructor.
  - apply Forall_alter; [done|]. intros hd _ [Hn Ho]. split; [done|].
    simpl. apply Forall_app. split; [done|]. by constructor.
Qed.

Lemma parseLines_wellMarked (lines : list string) :
  Forall wellMarked (hunkDiffs (parseLines lines)).
Proof.
  unfold parseLines.
  assert (∀ st, Forall wellMarked (hunkDiffs st) →
                Forall wellMarked (hunkDiffs (foldl step st lines))) as H.
  { induction lines as [|l lines IH]; intros st Hst; [done|].
    simpl. by apply IH, step_wellMarked. }
  apply H. constructor.
Qed.

(** Every call-like reference event is for a non-empty run of letters and
    digits that stands directly before an opening parenthesis in an added
    line of a hunk, and that is not in the ignore set; a tag-like reference
    event is for an element of the slice [typescriptRx.FindStringSubmatch]
    returns, the whole match or the group, that is not in the ignore set;
    the reference events are the same for hunks with the same file names and
    added lines, whatever their removed lines; every added line of a hunk
    the parser builds begins with [+]. *)
Lemma reference_events_origin (c : Commit) (hds : list HunkDiff) :
  (∀ e, e ∈ events (referenceEvents c hds {| events := []; subscriptions := [] |}) →
     ∃ hd ln tok,
       hd ∈ hds ∧ ln ∈ New hd ∧
       tok ≠ EmptyString ∧ ignore !! tok ≠ Some true ∧
       ((e = callEvent c hd ln tok ∧
         Forall (fun x => isAlnum x = true) (toBytes tok) ∧
         ∃ pre post, Text ln = pre +:+ tok +:+ "(" +:+ post) ∨
        (e = reactEvent c hd ln tok ∧
         tok ∈ FindStringSubmatch typescriptRx (Text ln)))) ∧
  (∀ hds' o,
     (fun hd => (Filename hd, New hd)) <$> hds'
     = (fun hd => (Filename hd, New hd)) <$> hds →
     referenceEvents c hds' o = referenceEvents c hds o) ∧
  (∀ b hd ln, hd ∈ parseDiff b → ln ∈ New hd → HasPrefix (Text ln) "+" = true).
Proof.
  split_and!.
  - intros e. destruct (referenceEvents_spec c hds
                          {| events := []; subscriptions := [] |}) as [-> _].
    simpl. rewrite elem_of_refEvents.
    intros (hd & ln & Hhd & Hln & [(mt & Hmt & Hk & ->)|(mt & Hmt & Hk & ->)]).
    + apply kept_spec in Hk as Hk'. destruct Hk' as [Hne Hig].
      exists hd, ln, (mt !!! 1%nat). split_and!; try done. left.
      assert (0 < len (mt !!! 1%nat))%nat as Hlen.
      { destruct (mt !!! 1%nat); [done | simpl; lia]. }
      destruct (functionRx_sound _ _ Hmt Hlen) as (pre & post & Htext & Hal).
      split_and!; [done | done | by exists pre, post].
    + apply kept_spec in Hk as [Hne Hig].
      exists hd, ln, mt. split_and!; try done. by right.
  - intros hds' o Heq.
    destruct (refEvents_added_only c hds hds' Heq) as [He Hs].
    destruct (referenceEvents_spec c hds' o) as [He' Hs'].
    destruct (referenceEvents_spec c hds o) as [He'' Hs''].
    destruct (referenceEvents c hds' o) as [ev' sb'],
             (referenceEvents c hds o) as [ev sb]. simpl in *.
    by rewrite He', Hs', He'', Hs'', He, Hs.
  - intros b hd ln Hhd Hln.
    pose proof (parseLines_wellMarked (Split b)) as Hw.
    rewrite Forall_forall in Hw. destruct (Hw hd Hhd) as [Hn _].
    rewrite Forall_forall in Hn. by apply Hn.
Qed.

(** A hunk with a call on a removed line and on an added line: only the
    added line gives an event. *)
Example removed_lines_not_scanned :
  Hashes <$> events (referenceEvents commit0
    [{| Filename := "a.go"; OldStart := 1; OldEnd := 1;
        Old := [{| Num := 1; Text := "-gone(1)" |}];
        NewStart := 1; NewEnd := 1;
        New := [{| Num := 1; Text := "+fresh(1)" |}] |}]
    {| events := []; subscriptions := [] |})
  = [["fresh"; "a.go"; "Ada"; "ada@example.org"]].
Proof. vm_compute. reflexivity. Qed.

(** C9 (the code at the added line [<TODO>]). TODO is in the ignore set.
    The loop of line 292 ranges over the slice [FindStringSubmatch]
    returns, the whole match [<TODO>] and the group [TODO]; the test of
    line 293 stops the group and lets the whole match through: the line
    gives a tag-like reference event, for [<TODO>].  The added line
    [TODO(x)] gives no event: the loop of the call-like references reads
    the group, [match[1]], and the same test stops it. *)
Theorem C9_event_for_ignored_token :
  ignore !! "TODO" = Some true ∧
  FindStringSubmatch typescriptRx "+<TODO>" = ["<TODO>"; "TODO"] ∧
  Hashes <$> Updates (Execute commit0 diffTodo []) = [["<TODO>"; "a.tsx"]] ∧
  (fun e => ID (Event e)) <$> Updates (Execute commit0 diffTodo [])
  = ["referenced(react):<TODO>:a.tsx:https://github.com/o/r/commit/abc"] ∧
  FindAllStringSubmatch functionRx "+TODO(x)" = [["TODO("; "TODO"]] ∧
  Updates (Execute commit0 diffTodoCall []) = [].
Proof. split_and!; vm_compute; reflexivity. Qed.

(** * Further properties of the code *)

(** ** The parser, line by line *)

(** What one line can do to the list of hunks. *)
Lemma step_hunks (st : parser) (l : string) :
  hunkDiffs (step st l) = hunkDiffs st ∨
  (∃ hd, hunkDiffs (step st l) = hunkDiffs st ++ [hd] ∧
         Filename hd = filename st ∧ len (filename st) ≠ 0%nat ∧
         New hd = [] ∧ Old hd = [] ∧ hunkHeaderLine l = true) ∨
  (∃ hs h, hunkDiffs st = hs ++ [h] ∧ HasPrefix l "+" = true ∧
           hunkDiffs (step st l)
           = hs ++ [appendNew {| Num := newline st; Text := l |} h]) ∨
  (∃ hs h, hunkDiffs st = hs ++ [h] ∧ HasPrefix l "-" = true ∧
           hunkDiffs (step st l)
           = hs ++ [appendOld {| Num := oldline st; Text := l |} h]).
Proof.
  unfold step, hunkHeaderLine.
  destruct (length (FindStringSubmatch fileHeaderRx l) =? 2)%nat; [by left|].
  destruct (len (filename st) =? 0)%nat eqn:Hf; [by left|].
  destruct (isMetadata l); [by left|].
  destruct (length (FindStringSubmatch hunkHeaderRx l) =? 5)%nat.
  { right; left. eexists. split; [reflexivity|]. simpl.
    apply Nat.eqb_neq in Hf. done. }
  destruct (hunkDiffs st) as [|h0 hs0] eqn:Hhs using rev_ind; [by left|].
  clear IHhs0.
  rewrite length_app, Nat.add_comm. cbn [length Nat.add Nat.eqb].
  destruct (HasPrefix l "+") eqn:Hp; [|destruct (HasPrefix l "-") eqn:Hq].
  - right; right; left. exists hs0, h0. split_and!; [done..|].
    cbn [hunkDiffs]. rewrite <- (alter_last _ hs0 h0). f_equal.
    rewrite length_app. simpl. lia.
  - right; right; right. exists hs0, h0. split_and!; [done..|].
    cbn [hunkDiffs]. rewrite <- (alter_last _ hs0 h0). f_equal.
    rewrite length_app. simpl. lia.
  - by left.
Qed.

(** What one line can do to the current file name. *)
Lemma step_filename (st : parser) (l : string) :
  filename (step st l) = filename st ∨
  (∃ whole, FindStringSubmatch fileHeaderRx l = [whole; filename (step st l)] ∧
            len (filename (step st l)) ≠ 0%nat).
Proof.
  unfold step.
  destruct (fileHeaderRx_result l) as [->|(whole & f & -> & Hf)]; simpl.
  - repeat match goal with |- context [if ?b then _ else _] => destruct b end;
      by left.
  - right. by exists whole.
Qed.

Lemma parseLines_snoc (ls : list string) (l : string) :
  parseLines (ls ++ [l]) = step (parseLines ls) l.
Proof. unfold parseLines. by rewrite foldl_app. Qed.

Lemma step_before_header (l : string) :
  FindStringSubmatch fileHeaderRx l = [] → step parser0 l = parser0.
Proof. intros H. unfold step. by rewrite H. Qed.

(** X1. Lines before the first file header are ignored: a diff parses as
    the diff without them. *)
Theorem preamble_ignored (pre rest : list string) :
  Forall (fun l => FindStringSubmatch fileHeaderRx l = []) pre →
  parseLines (pre ++ rest) = parseLines rest.
Proof.
  intros Hpre. unfold parseLines. rewrite foldl_app. f_equal.
  induction Hpre as [|l pre Hl _ IH]; [done|].
  simpl. by rewrite step_before_header.
Qed.

Lemma preamble_ignored_witness :
  parseLines (["commit abc"; "Author: Ada"; "+x"; "@@ -1,1 +1,1 @@"]
              ++ ["diff --git a/a.go b/a.go"; "@@ -1,1 +1,2 @@"; "+y"])
  = parseLines ["diff --git a/a.go b/a.go"; "@@ -1,1 +1,2 @@"; "+y"].
Proof.
  apply (preamble_ignored
           ["commit abc"; "Author: Ada"; "+x"; "@@ -1,1 +1,1 @@"]
           ["diff --git a/a.go b/a.go"; "@@ -1,1 +1,2 @@"; "+y"]).
  repeat constructor.
Defined.

(** X2. Every hunk carries a non-empty file name, and it is the name that
    [fileHeaderRx] captures in some line of the diff. *)
Theorem hunk_filenames (lines : list string) (hd : HunkDiff) :
  hd ∈ hunkDiffs (parseLines lines) →
  len (Filename hd) ≠ 0%nat ∧
  ∃ l whole, l ∈ lines ∧ FindStringSubmatch fileHeaderRx l = [whole; Filename hd].
Proof.
  assert (∀ ls,
    (len (filename (parseLines ls)) ≠ 0%nat →
       ∃ l whole, l ∈ ls ∧
         FindStringSubmatch fileHeaderRx l = [whole; filename (parseLines ls)]) ∧
    (∀ hd, hd ∈ hunkDiffs (parseLines ls) →
       len (Filename hd) ≠ 0%nat ∧
       ∃ l whole, l ∈ ls ∧ FindStringSubmatch fileHeaderRx l = [whole; Filename hd]))
    as H; [|intros; by apply (H lines)].
  induction ls as [|l ls [IHf IHh]] using rev_ind.
  { split; [done | intros hd' Hin; by apply elem_of_nil in Hin]. }
  rewrite parseLines_snoc.
  assert (∀ f, (∃ l0 whole, l0 ∈ ls ∧ FindStringSubmatch fileHeaderRx l0 = [whole; f]) →
               ∃ l0 whole, l0 ∈ ls ++ [l] ∧
                 FindStringSubmatch fileHeaderRx l0 = [whole; f]) as Hmono.
  { intros f (l0 & whole & Hin & Hm). exists l0, whole.
    split; [apply elem_of_app; by left | done]. }
  split.
  - intros Hne. destruct (step_filename (parseLines ls) l) as [Heq|(whole & Hm & _)].
    + rewrite Heq in *. by apply Hmono, IHf.
    + exists l, whole. split; [|done]. apply elem_of_app. right.
      apply list_elem_of_here.
  - intros hd' Hin.
    destruct (step_hunks (parseLines ls) l)
      as [Heq|[(h0 & Heq & Hfn & Hlen & _)|[(hs & h & Hhs & _ & Heq)|(hs & h & Hhs & _ & Heq)]]];
      rewrite Heq in Hin.
    + destruct (IHh hd' Hin) as [? ?]. split; [done | by apply Hmono].
    + apply elem_of_app in Hin as [Hin|Hin].
      * destruct (IHh hd' Hin) as [? ?]. split; [done | by apply Hmono].
      * apply list_elem_of_singleton in Hin as ->. rewrite Hfn.
        split; [done | by apply Hmono, IHf].
    + apply elem_of_app in Hin as [Hin|Hin].
      * destruct (IHh hd' ltac:(rewrite Hhs; apply elem_of_app; by left)) as [? ?].
        split; [done | by apply Hmono].
      * apply list_elem_of_singleton in Hin as ->. cbn [appendNew Filename].
        destruct (IHh h ltac:(rewrite Hhs; apply elem_of_app; right;
                              apply list_elem_of_here)) as [? ?].
        split; [done | by apply Hmono].
    + apply elem_of_app in Hin as [Hin|Hin].
      * destruct (IHh hd' ltac:(rewrite Hhs; apply elem_of_app; by left)) as [? ?].
        split; [done | by apply Hmono].
      * apply list_elem_of_singleton in Hin as ->. cbn [appendOld Filename].
        destruct (IHh h ltac:(rewrite Hhs; apply elem_of_app; right;
                              apply list_elem_of_here)) as [? ?].
        split; [done | by apply Hmono].
Qed.

Lemma hunk_filenames_witness :
  len (Filename {| Filename := "a.go"; OldStart := 1; OldEnd := 1; Old := [];
                   NewStart := 1; NewEnd := 1;
                   New := [{| Num := 0; Text := "+x" |}] |}) ≠ 0%nat ∧
  ∃ l whole, l ∈ strayLines ∧
    FindStringSubmatch fileHeaderRx l
    = [whole; Filename {| Filename := "a.go"; OldStart := 1; OldEnd := 1; Old := [];
                          NewStart := 1; NewEnd := 1;
                          New := [{| Num := 0; Text := "+x" |}] |}].
Proof.
  apply (hunk_filenames strayLines). vm_compute. apply list_elem_of_here.
Defined.

Lemma addedTexts_snoc (hs : list HunkDiff) (h : HunkDiff) :
  addedTexts (hs ++ [h]) = addedTexts hs ++ (Text <$> New h).
Proof. unfold addedTexts. by rewrite bind_app, bind_singleton. Qed.

Lemma removedTexts_snoc (hs : list HunkDiff) (h : HunkDiff) :
  removedTexts (hs ++ [h]) = removedTexts hs ++ (Text <$> Old h).
Proof. unfold removedTexts. by rewrite bind_app, bind_singleton. Qed.

(** One line adds at most itself to the added texts, and likewise to the
    removed texts. *)
Lemma step_texts (st : parser) (l : string) :
  (addedTexts (hunkDiffs (step st l)) = addedTexts (hunkDiffs st) ∨
   addedTexts (hunkDiffs (step st l)) = addedTexts (hunkDiffs st) ++ [l]) ∧
  (removedTexts (hunkDiffs (step st l)) = removedTexts (hunkDiffs st) ∨
   removedTexts (hunkDiffs (step st l)) = removedTexts (hunkDiffs st) ++ [l]).
Proof.
  destruct (step_hunks st l)
    as [Heq|[(h0 & Heq & _ & _ & Hn & Ho & _)|[(hs & h & Hhs & _ & Heq)|(hs & h & Hhs & _ & Heq)]]];
    rewrite Heq.
  - by split; left.
  - rewrite addedTexts_snoc, removedTexts_snoc, Hn, Ho. simpl.
    rewrite !app_nil_r. by split; left.
  - rewrite Hhs, !addedTexts_snoc, !removedTexts_snoc. simpl.
    rewrite fmap_app, app_assoc. by split; [right | left].
  - rewrite Hhs, !addedTexts_snoc, !removedTexts_snoc. simpl.
    rewrite fmap_app, app_assoc. by split; [left | right].
Qed.

(** X3. The added lines of all hunks, in order, are lines of the diff in the
    order of the diff, none taken twice; so are the removed lines. *)
Theorem texts_in_diff_order (lines : list string) :
  addedTexts (hunkDiffs (parseLines lines)) `sublist_of` lines ∧
  removedTexts (hunkDiffs (parseLines lines)) `sublist_of` lines.
Proof.
  induction lines as [|l ls [IHa IHr]] using rev_ind; [by split|].
  rewrite parseLines_snoc.
  destruct (step_texts (parseLines ls) l) as [[-> | ->] [-> | ->]]; split;
    try (by apply sublist_app);
    try (etrans; [eassumption | by apply sublist_inserts_r]).
Qed.

(** A diff where the header of b.go comes before a.go's lines end: the
    added lines keep the order of the diff. *)
Example texts_in_diff_order_sample :
  addedTexts (hunkDiffs (parseLines strayLines)) = ["+x"].
Proof. vm_compute. reflexivity. Qed.

Lemma numbered_cons (n : Z) (l : string) (ls : list string) :
  numbered n (l :: ls) = {| Num := n; Text := l |} :: numbered (n + 1) ls.
Proof.
  unfold numbered. cbn [imap]. rewrite Z.add_0_r. f_equal.
  apply imap_ext. intros j x _. simpl. f_equal. lia.
Qed.

(** X4. A run of added lines is numbered consecutively: they join the last
    hunk with the numbers newline, newline + 1, ..., and the new-line cursor
    moves past them; nothing else changes. *)
Theorem added_run (st : parser) (hs : list HunkDiff) (h : HunkDiff)
    (adds : list string) :
  len (filename st) ≠ 0%nat → hunkDiffs st = hs ++ [h] →
  Forall (fun l => content l ∧ HasPrefix l "+" = true) adds →
  GoInt.MinInt64 ≤ newline st →
  newline st + Z.of_nat (length adds) ≤ GoInt.MaxInt64 →
  ∃ h', foldl step st adds
        = {| filename := filename st; oldline := oldline st;
             newline := newline st + Z.of_nat (length adds);
             hunkDiffs := hs ++ [h'] |} ∧
        headOf h' = headOf h ∧ Old h' = Old h ∧
        New h' = New h ++ numbered (newline st) adds.
Proof.
  intros Hf Hhs Hadds. revert st h Hf Hhs.
  induction Hadds as [|l adds [Hc Hp] _ IH]; intros st h Hf Hhs Hlo Hhi.
  - exists h. simpl. rewrite Z.add_0_r, app_nil_r, <- Hhs. by destruct st.
  - cbn [foldl length] in *. rewrite (step_added st hs h l) by done.
    rewrite add_exact
      by (unfold GoInt.inRange, GoInt.MinInt64, GoInt.MaxInt64 in *; lia).
    edestruct (IH {| filename := filename st; oldline := oldline st;
                     newline := newline st + 1;
                     hunkDiffs := hs ++ [appendNew {| Num := newline st; Text := l |} h] |})
      as (h' & -> & Hhead & Hold & Hnew); [done | reflexivity | simpl; lia..|].
    exists h'. cbn [filename oldline newline hunkDiffs] in *.
    split_and!; [f_equal; lia | done | done |].
    rewrite Hnew, numbered_cons. simpl. by rewrite <- app_assoc.
Qed.

Lemma added_run_witness :
  ∃ h', foldl step (step stA "@@ -10,1 +10,3 @@") ["+a"; "+b"; "+c"]
        = {| filename := filename (step stA "@@ -10,1 +10,3 @@");
             oldline := oldline (step stA "@@ -10,1 +10,3 @@");
             newline := newline (step stA "@@ -10,1 +10,3 @@")
                        + Z.of_nat (length ["+a"; "+b"; "+c"]);
             hunkDiffs := [] ++ [h'] |} ∧
        headOf h' = headOf hunkA ∧ Old h' = Old hunkA ∧
        New h' = New hunkA
                 ++ numbered (newline (step stA "@@ -10,1 +10,3 @@")) ["+a"; "+b"; "+c"].
Proof.
  apply (added_run (step stA "@@ -10,1 +10,3 @@") [] hunkA ["+a"; "+b"; "+c"]);
    [vm_compute; lia | vm_compute; reflexivity
    | repeat constructor | vm_compute; discriminate | vm_compute; discriminate].
Defined.

(** What one line does to the hunk at a given position. *)
Lemma step_keeps (st : parser) (l : string) (i : nat) (hd : HunkDiff) :
  hunkDiffs st !! i = Some hd →
  ∃ hd', hunkDiffs (step st l) !! i = Some hd' ∧
         headOf hd' = headOf hd ∧
         New hd `prefix_of` New hd' ∧ Old hd `prefix_of` Old hd' ∧
         ((S i < length (hunkDiffs st))%nat → hd' = hd).
Proof.
  intros Hi.
  destruct (step_hunks st l)
    as [Heq|[(h0 & Heq & _)|[(hs & h & Hhs & _ & Heq)|(hs & h & Hhs & _ & Heq)]]];
    rewrite Heq.
  - by exists hd.
  - exists hd. split_and!; try done. by apply lookup_app_l_Some.
  - rewrite Hhs in Hi |- *. rewrite length_app. cbn [length].
    apply lookup_app_Some in Hi as [Hi|[Hge Hi]].
    + exists hd. split_and!; try done. by apply lookup_app_l_Some.
    + apply list_lookup_singleton_Some in Hi as [Hz ->].
      assert (i = length hs) as -> by lia.
      eexists. split; [apply list_lookup_middle; done|].
      split_and!; [done | by apply prefix_app_r | done | lia].
  - rewrite Hhs in Hi |- *. rewrite length_app. cbn [length].
    apply lookup_app_Some in Hi as [Hi|[Hge Hi]].
    + exists hd. split_and!; try done. by apply lookup_app_l_Some.
    + apply list_lookup_singleton_Some in Hi as [Hz ->].
      assert (i = length hs) as -> by lia.
      eexists. split; [apply list_lookup_middle; done|].
      split_and!; [done | done | by apply prefix_app_r | lia].
Qed.

Lemma step_length (st : parser) (l : string) :
  (length (hunkDiffs st) ≤ length (hunkDiffs (step st l)) ≤
     length (hunkDiffs st) + (if hunkHeaderLine l then 1 else 0))%nat.
Proof.
  destruct (step_hunks st l)
    as [Heq|[(h0 & Heq & _ & _ & _ & _ & Hh)|[(hs & h & Hhs & _ & Heq)|(hs & h & Hhs & _ & Heq)]]];
    rewrite Heq, ?Hhs, ?Hh, ?length_app; simpl; destruct (hunkHeaderLine l); lia.
Qed.

(** X5. Hunks are only ever appended to: whatever lines follow, a hunk keeps
    its place, its file name and its four numbers; its added and removed
    lines only grow at the end; and a hunk that is not the last one is not
    changed at all. *)
Theorem hunks_append_only (st : parser) (lines : list string) (i : nat)
    (hd : HunkDiff) :
  hunkDiffs st !! i = Some hd →
  ∃ hd', hunkDiffs (foldl step st lines) !! i = Some hd' ∧
         headOf hd' = headOf hd ∧
         New hd `prefix_of` New hd' ∧ Old hd `prefix_of` Old hd' ∧
         ((S i < length (hunkDiffs st))%nat → hd' = hd).
Proof.
  revert st hd. induction lines as [|l ls IH]; intros st hd Hi.
  { by exists hd. }
  destruct (step_keeps st l i hd Hi) as (h1 & H1 & Hh1 & Hn1 & Ho1 & Hl1).
  destruct (IH (step st l) h1 H1) as (h2 & H2 & Hh2 & Hn2 & Ho2 & Hl2).
  exists h2. cbn [foldl]. split_and!; try done.
  - congruence.
  - by etrans.
  - by etrans.
  - intros Hlt. rewrite Hl2, Hl1; [done | done |].
    pose proof (step_length st l). lia.
Qed.

Lemma hunks_append_only_witness :
  ∃ hd', hunkDiffs (foldl step (step stA "@@ -10,1 +10,3 @@")
                      ["+a"; "diff --git a/b.go b/b.go"; "@@ -1,1 +1,1 @@"; "+b"])
           !! 0%nat = Some hd' ∧
         headOf hd' = headOf hunkA ∧
         New hunkA `prefix_of` New hd' ∧ Old hunkA `prefix_of` Old hd' ∧
         ((1 < length (hunkDiffs (step stA "@@ -10,1 +10,3 @@")))%nat → hd' = hunkA).
Proof.
  apply (hunks_append_only (step stA "@@ -10,1 +10,3 @@")
           ["+a"; "diff --git a/b.go b/b.go"; "@@ -1,1 +1,1 @@"; "+b"] 0 hunkA).
  vm_compute. reflexivity.
Defined.

(** There are at most as many hunks as lines that [hunkHeaderRx] matches. *)
Lemma hunk_count (lines : list string) :
  (length (hunkDiffs (parseLines lines)) ≤ length (List.filter hunkHeaderLine lines))%nat.
Proof.
  induction lines as [|l ls IH] using rev_ind; [done|].
  rewrite parseLines_snoc, List.filter_app, length_app.
  pose proof (step_length (parseLines ls) l).
  simpl. destruct (hunkHeaderLine l); simpl; lia.
Qed.

Lemma changedTags_no_hunks (tags : list Tag) : changedTags (hunkDiffM []) tags = [].
Proof.
  rewrite changedTags_filter.
  induction (List.seq 0 (length tags)) as [|i l IH]; [done|].
  simpl. unfold hit at 1. by rewrite hunkDiffM_lookup.
Qed.

(** X6. A diff in which no line has a hunk header gives no events and no
    subscription updates, whatever the tags. *)
Theorem no_hunk_header_no_events (c : Commit) (b : string) (sorted : list Tag) :
  List.filter hunkHeaderLine (Split b) = [] →
  Execute c b sorted = {| Updates := []; SubscriptionUpdates := [] |}.
Proof.
  intros Hnone. unfold Execute, parseDiff.
  pose proof (hunk_count (Split b)) as Hlen. rewrite Hnone in Hlen.
  destruct (hunkDiffs (parseLines (Split b))) as [|hd hds]; [|simpl in Hlen; lia].
  by rewrite changedTags_no_hunks.
Qed.

Lemma no_hunk_header_no_events_witness :
  Execute commit0
    (Sprintf ["diff --git a/a.go b/a.go"; nl; "new file mode 100644"; nl;
              "+doStuff(x)"; nl])
    [tagFoo; tagBar]
  = {| Updates := []; SubscriptionUpdates := [] |}.
Proof.
  apply (no_hunk_header_no_events commit0
           (Sprintf ["diff --git a/a.go b/a.go"; nl; "new file mode 100644"; nl;
                     "+doStuff(x)"; nl])
           [tagFoo; tagBar]).
  vm_compute. reflexivity.
Defined.

(** ** The files of a diff and the map of its hunks *)

Lemma files_snoc (hds : list HunkDiff) (hd : HunkDiff) :
  files (hds ++ [hd])
  = match last (files hds) with
    | Some f => if String.eqb f (Filename hd) then files hds
                else files hds ++ [Filename hd]
    | None => files hds ++ [Filename hd]
    end.
Proof. unfold files. by rewrite foldl_app. Qed.

Lemma files_last (hds : list HunkDiff) :
  last (files hds) = Filename <$> last hds.
Proof.
  induction hds as [|hd hds IH] using rev_ind; [done|].
  rewrite files_snoc, last_snoc. simpl.
  destruct (last (files hds)) as [f|] eqn:Hl.
  - destruct (String.eqb_spec f (Filename hd)) as [<-|Hne]; [done|].
    by rewrite last_snoc.
  - by rewrite last_snoc.
Qed.

Lemma files_elem (hds : list HunkDiff) (f : string) :
  f ∈ files hds ↔ ∃ hd, hd ∈ hds ∧ Filename hd = f.
Proof.
  induction hds as [|hd hds IH] using rev_ind.
  { split; [intros H; by apply elem_of_nil in H
           | intros (hd & H & _); by apply elem_of_nil in H]. }
  assert (f ∈ files hds ++ [Filename hd] ↔
          ∃ hd0, hd0 ∈ hds ++ [hd] ∧ Filename hd0 = f) as Hsnoc.
  { rewrite elem_of_app, IH, list_elem_of_singleton. split.
    - intros [(h & Hin & Hf)| ->].
      + exists h. split; [apply elem_of_app; by left | done].
      + exists hd. split; [apply elem_of_app; right; apply list_elem_of_here | done].
    - intros (h & Hin & Hf). apply elem_of_app in Hin as [Hin|Hin].
      + left. by exists h.
      + apply list_elem_of_singleton in Hin as ->. by right. }
  rewrite files_snoc.
  destruct (last (files hds)) as [g|] eqn:Hl; [|done].
  destruct (String.eqb_spec g (Filename hd)) as [Heq|Hne]; [|done].
  rewrite <- Hsnoc, elem_of_app, list_elem_of_singleton.
  split; [by left|]. intros [?| ->]; [done|].
  rewrite <- Heq. by apply last_Some_elem_of.
Qed.

(** The entry of a file in the map: its hunks in the order of the diff, and
    no entry when it has none. *)
Lemma hunkDiffM_entry (hds : list HunkDiff) (f : string) :
  hunkDiffM hds !! f
  = match filter (fun hd => Filename hd = f) hds with
    | [] => None
    | l => Some l
    end.
Proof.
  destruct (filter (fun hd => Filename hd = f) hds) as [|h l] eqn:Hfl.
  - apply hunkDiffM_None. intros hd Hin Hf.
    assert (hd ∈ filter (fun hd => Filename hd = f) hds) as Hin'
      by by apply list_elem_of_filter.
    rewrite Hfl in Hin'. by apply elem_of_nil in Hin'.
  - pose proof (hunkDiffM_lookup hds f) as Ht. rewrite Hfl in Ht.
    unfold lookup_total, map_lookup_total in Ht.
    destruct (hunkDiffM hds !! f) as [l'|] eqn:Hl'; simpl in Ht; [by subst|done].
Qed.

(** X7. The file names handed to the tag extractor are exactly the keys of
    the map of hunks, and no name is listed twice in a row. *)
Theorem files_are_map_keys (hds : list HunkDiff) :
  (∀ f, f ∈ files hds ↔ is_Some (hunkDiffM hds !! f)) ∧
  (∀ i f g, files hds !! i = Some f → files hds !! S i = Some g → f ≠ g).
Proof.
  split.
  - intros f. rewrite files_elem, hunkDiffM_entry.
    destruct (filter (fun hd => Filename hd = f) hds) as [|h l] eqn:Hfl.
    + split; [|intros [? ?]; done]. intros (hd & Hin & Hf).
      assert (hd ∈ filter (fun hd => Filename hd = f) hds) as Hin'
        by by apply list_elem_of_filter.
      rewrite Hfl in Hin'. by apply elem_of_nil in Hin'.
    + split; [by eexists|]. intros _.
      assert (h ∈ filter (fun hd => Filename hd = f) hds) as Hin
        by (rewrite Hfl; apply list_elem_of_here).
      apply list_elem_of_filter in Hin as [Hf Hin]. by exists h.
  - induction hds as [|hd hds IH] using rev_ind; intros i f g Hi Hsi.
    { by destruct i. }
    rewrite files_snoc in Hi, Hsi.
    destruct (last (files hds)) as [k|] eqn:Hl.
    + destruct (String.eqb_spec k (Filename hd)) as [Heq|Hne]; [by eapply IH|].
      apply lookup_app_Some in Hsi as [Hsi|[Hge Hsi]].
      * apply lookup_app_Some in Hi as [Hi|[Hge' _]]; [by eapply IH|].
        apply lookup_lt_Some in Hsi. lia.
      * apply list_lookup_singleton_Some in Hsi as [Hz <-].
        apply lookup_app_Some in Hi as [Hi|[Hge' Hi]].
        -- assert (S i = length (files hds)) as Hlen by lia.
           apply last_Some in Hl as (fs & Hfs). rewrite Hfs in Hi, Hlen.
           rewrite length_app in Hlen. simpl in Hlen.
           rewrite lookup_app_r in Hi by lia.
           replace (i - length fs)%nat with 0%nat in Hi by lia.
           injection Hi as <-. done.
        -- apply list_lookup_singleton_Some in Hi as [Hz' _]. lia.
    + apply last_None in Hl. rewrite Hl in Hi, Hsi. by destruct i.
Qed.

(** A file whose hunks are interrupted by another file is listed twice. *)
Example files_not_unique :
  files [hunkA; {| Filename := "b.go"; OldStart := 1; OldEnd := 1; Old := [];
                   NewStart := 1; NewEnd := 1; New := [] |}; hunkA]
  = ["a.go"; "b.go"; "a.go"].
Proof. vm_compute. reflexivity. Qed.

(** X8. The entry of a file in the map of hunks holds the hunks of that
    file, all of them and no others, in the order of the diff; a file
    without hunks has no entry, so no entry is an empty list. *)
Theorem hunkDiffM_entries (hds : list HunkDiff) (f : string) :
  (∀ l, hunkDiffM hds !! f = Some l ↔
        l = filter (fun hd => Filename hd = f) hds ∧ l ≠ []) ∧
  (hunkDiffM hds !! f = None ↔ ∀ hd, hd ∈ hds → Filename hd ≠ f).
Proof.
  rewrite hunkDiffM_entry.
  destruct (filter (fun hd => Filename hd = f) hds) as [|h l0] eqn:Hfl.
  - split.
    + intros l. split; [done | by intros [-> ?]].
    + split; [|done]. intros _ hd Hin Hf.
      assert (hd ∈ filter (fun hd => Filename hd = f) hds) as Hin'
        by by apply list_elem_of_filter.
      rewrite Hfl in Hin'. by apply elem_of_nil in Hin'.
  - split.
    + intros l. split; [by intros [= <-] | by intros [-> _]].
    + split; [done|]. intros Hnone. exfalso.
      assert (h ∈ filter (fun hd => Filename hd = f) hds) as Hin
        by (rewrite Hfl; apply list_elem_of_here).
      apply list_elem_of_filter in Hin as [Hf Hin]. by apply (Hnone h).
Qed.

(** ** Events and their subscription updates *)

Lemma bind_bind {A B C} (f : A → list B) (g : B → list C) (l : list A) :
  (l ≫= f) ≫= g = l ≫= (fun x => f x ≫= g).
Proof.
  induction l as [|x l IH]; [done|].
  by rewrite !bind_cons, bind_app, IH.
Qed.

Lemma refSubs_of_events (c : Commit) (hds : list HunkDiff) :
  refSubs c hds = refEvents c hds ≫= (fun e => subsFor c (subject e)).
Proof.
  unfold refSubs, refEvents. rewrite bind_bind.
  apply list_bind_ext; [|done]. intros hd. rewrite bind_bind.
  apply list_bind_ext; [|done]. intros ln.
  unfold lineSubs, lineEvents. rewrite bind_app, !bind_bind.
  f_equal; apply list_bind_ext; try done; intros mt.
  - unfold callSubs, callHits. destruct (kept (mt !!! 1%nat)); [|done].
    by rewrite bind_singleton.
  - unfold reactSubs, reactHits. destruct (kept mt); [|done].
    by rewrite bind_singleton.
Qed.

(** X9. Every event has exactly two subscription updates, at the same place
    in the list of updates as the event has in the list of events: one from
    the author's first name and one from the full name, both to the subject
    of the event. *)
Theorem subscriptions_follow_events (c : Commit) (tags : list Tag)
    (changed : list nat) (hds : list HunkDiff) :
  SubscriptionUpdates (assemble c tags changed hds)
  = Updates (assemble c tags changed hds) ≫=
      (fun e => [{| Src := authorFirstName c; Dsts := [subject e] |};
                 {| Src := authorName c; Dsts := [subject e] |}]) ∧
  length (SubscriptionUpdates (assemble c tags changed hds))
  = (2 * length (Updates (assemble c tags changed hds)))%nat.
Proof.
  destruct (assemble_spec c tags changed hds) as [-> ->].
  assert (((changed ≫= fun i => subsFor c (ctags.Name (tags !!! i))) ++ refSubs c hds)
          = (((fun i => modifiedEvent c (tags !!! i)) <$> changed) ++ refEvents c hds)
              ≫= (fun e => subsFor c (subject e))) as Heq.
  { rewrite bind_app, list_fmap_bind, refSubs_of_events. done. }
  split; [exact Heq|]. rewrite Heq.
  generalize (((fun i => modifiedEvent c (tags !!! i)) <$> changed) ++ refEvents c hds).
  intros l. induction l as [|e l IH]; [done|].
  rewrite bind_cons, length_app, IH. simpl. lia.
Qed.

(** X10. The list of events is the events of the changed tags, one for each
    and of type Modified, followed by the reference events, of type
    Referenced; every event carries the URL and the time of the commit and
    no users. *)
Theorem events_layout (c : Commit) (tags : list Tag) (changed : list nat)
    (hds : list HunkDiff) :
  ∃ mods refs,
    Updates (assemble c tags changed hds) = mods ++ refs ∧
    length mods = length changed ∧
    Forall (fun e => Type_ (Event e) = EvtTypeModified) mods ∧
    Forall (fun e => Type_ (Event e) = EvtTypeReferenced) refs ∧
    Forall (fun e => URL (Event e) = commitURL c ∧
                     Time (Event e) = commitTimestamp c ∧ Users e = [])
           (mods ++ refs).
Proof.
  destruct (assemble_spec c tags changed hds) as [-> _].
  exists ((fun i => modifiedEvent c (tags !!! i)) <$> changed), (refEvents c hds).
  assert (Forall (fun e => Type_ (Event e) = EvtTypeReferenced ∧
                           URL (Event e) = commitURL c ∧
                           Time (Event e) = commitTimestamp c ∧ Users e = [])
                 (refEvents c hds)) as Hrefs.
  { apply Forall_forall. intros e He. apply elem_of_refEvents in He
      as (hd & ln & _ & _ & [(mt & _ & _ & ->)|(mt & _ & _ & ->)]); done. }
  split_and!.
  - done.
  - by rewrite length_fmap.
  - apply Forall_fmap, Forall_forall. by intros i _.
  - eapply Forall_impl; [exact Hrefs|]. by intros e (? & _).
  - apply Forall_app. split.
    + apply Forall_fmap, Forall_forall. by intros i _.
    + eapply Forall_impl; [exact Hrefs|]. by intros e (_ & ?).
Qed.

(** ** Tags inside a changed range *)

(** X11. A tag whose line lies in the new range of a hunk of its file is
    found changed, provided the tag after it in the sorted sequence, if there
    is one, is on a later line. *)
Theorem tag_in_hunk_reported (hds : list HunkDiff) (sorted : list Tag)
    (i : nat) (t : Tag) (h : HunkDiff) :
  linesInRange sorted →
  sorted !! i = Some t →
  h ∈ hds → Filename h = ctags.File t →
  NewStart h ≤ ctags.Line t ≤ NewEnd h →
  (∀ next, sorted !! S i = Some next → ctags.Line t < ctags.Line next) →
  i ∈ changedTags (hunkDiffM hds) sorted.
Proof.
  intros Hr Hi Hin Hf [Hlo Hhi] Hnext.
  apply changedTags_elem. split; [by eapply lookup_lt_Some|].
  unfold hit. rewrite (list_lookup_total_correct _ _ _ Hi), hunkDiffM_lookup.
  apply scanHunks_spec. exists h. split; [by apply list_elem_of_filter|].
  apply overlaps_spec. destruct (endline_spec sorted i) as [Hsome Hnone].
  destruct (sorted !! S i) as [next|] eqn:Hn.
  - rewrite (proj2 (Hsome next eq_refl) (Hr _ _ Hn)).
    specialize (Hnext next eq_refl). lia.
  - rewrite (Hnone eq_refl). pose proof (Hr _ _ Hi). lia.
Qed.

Lemma tag_in_hunk_reported_witness :
  0%nat ∈ changedTags (hunkDiffM [hunkA])
            [{| ctags.File := "a.go"; ctags.Name := "Foo"; ctags.Kind := "func";
                ctags.Signature := "()"; ctags.Line := 11 |}; tagBar].
Proof.
  apply (tag_in_hunk_reported [hunkA]
           [{| ctags.File := "a.go"; ctags.Name := "Foo"; ctags.Kind := "func";
               ctags.Signature := "()"; ctags.Line := 11 |}; tagBar]
           0 {| ctags.File := "a.go"; ctags.Name := "Foo"; ctags.Kind := "func";
                ctags.Signature := "()"; ctags.Line := 11 |} hunkA).
  - intros j t Hj. destruct j as [|[|j]]; simpl in Hj; try discriminate;
      injection Hj as <-; vm_compute; (split; [reflexivity | discriminate]).
  - reflexivity.
  - apply list_elem_of_here.
  - reflexivity.
  - vm_compute. split; discriminate.
  - intros next Hn. injection Hn as <-. vm_compute. reflexivity.
Defined.

(** Two tags on line 5 and a hunk that changes exactly line 5: only the
    second tag is found changed. *)
Example tie_hides_first_tag :
  changedTags
    (hunkDiffM [{| Filename := "a.go"; OldStart := 5; OldEnd := 5; Old := [];
                   NewStart := 5; NewEnd := 5; New := [] |}])
    [tieA; tieB]
  = [1%nat].
Proof. vm_compute. reflexivity. Qed.

(** ** [tagSorter] *)

(** X12. [Less] is the strict order of the lines: between indices of the
    slice it always answers, never puts an element before itself, is
    transitive, and leaves two elements unordered exactly when they are on
    the same line, so that being unordered is transitive too: the ordering
    [sort.Sort] asks for.  An index outside the slice panics. *)
Theorem Less_strict_weak_order (tags : list Tag) :
  (∀ i j, (0 ≤ i < tagSorter.Len tags ∧ 0 ≤ j < tagSorter.Len tags) ↔
          is_Some (tagSorter.Less tags i j)) ∧
  (∀ i, tagSorter.Less tags i i ≠ Some true) ∧
  (∀ i j k, tagSorter.Less tags i j = Some true →
            tagSorter.Less tags j k = Some true →
            tagSorter.Less tags i k = Some true) ∧
  (∀ i j a b, tagAt tags i = Some a → tagAt tags j = Some b →
     (tagSorter.Less tags i j = Some false ∧ tagSorter.Less tags j i = Some false
      ↔ ctags.Line a = ctags.Line b)).
Proof.
  unfold tagSorter.Less. split_and!.
  - intros i j. split.
    + intros [Hi Hj].
      destruct (tagAt tags i) as [a|] eqn:Ha; [|apply tagAt_None in Ha; lia].
      destruct (tagAt tags j) as [b|] eqn:Hb; [|apply tagAt_None in Hb; lia].
      by eexists.
    + destruct (tagAt tags i) as [a|] eqn:Ha; [|by intros [? ?]].
      destruct (tagAt tags j) as [b|] eqn:Hb; [|by intros [? ?]].
      apply tagAt_Some in Ha as [? _]. apply tagAt_Some in Hb as [? _]. done.
  - intros i. destruct (tagAt tags i) as [a|]; simpl; [|done].
    rewrite Z.ltb_irrefl. done.
  - intros i j k.
    destruct (tagAt tags i) as [a|], (tagAt tags j) as [b|],
             (tagAt tags k) as [d|]; simpl; try done.
    intros [= H1] [= H2]. f_equal. apply Z.ltb_lt. apply Z.ltb_lt in H1, H2. lia.
  - intros i j a b -> ->. simpl. split.
    + intros [[= H1] [= H2]]. apply Z.ltb_ge in H1, H2. lia.
    + intros ->. by rewrite Z.ltb_irrefl.
Qed.

(** X13. [Swap] on two indices of the slice exchanges the two elements and
    leaves the others where they are: the slice stays a rearrangement of the
    same tags, of the same length, and a second [Swap] of the same indices
    undoes the first.  It panics when an index is outside the slice, and only
    then. *)
Theorem Swap_exchanges (tags : list Tag) (i j : Z) :
  ((0 ≤ i < tagSorter.Len tags ∧ 0 ≤ j < tagSorter.Len tags) ↔
   is_Some (tagSorter.Swap tags i j)) ∧
  ∀ tags', tagSorter.Swap tags i j = Some tags' →
    tagAt tags' i = tagAt tags j ∧ tagAt tags' j = tagAt tags i ∧
    (∀ k, k ≠ i → k ≠ j → tagAt tags' k = tagAt tags k) ∧
    tagSorter.Len tags' = tagSorter.Len tags ∧
    tags ≡ₚ tags' ∧
    tagSorter.Swap tags' i j = Some tags.
Proof.
  split.
  - unfold tagSorter.Swap. split.
    + intros [Hi Hj].
      destruct (tagAt tags i) as [a|] eqn:Ha; [|apply tagAt_None in Ha; lia].
      destruct (tagAt tags j) as [b|] eqn:Hb; [|apply tagAt_None in Hb; lia].
      by eexists.
    + destruct (tagAt tags i) as [a|] eqn:Ha; [|by intros [? ?]].
      destruct (tagAt tags j) as [b|] eqn:Hb; [|by intros [? ?]].
      apply tagAt_Some in Ha as [? _]. apply tagAt_Some in Hb as [? _]. done.
  - intros tags' Hs. pose proof (Swap_Permutation _ _ _ _ Hs) as Hperm.
    destruct (Swap_lookup _ _ _ _ Hs) as (Hi & Hj & Hlen & Hk).
    assert (∀ k, 0 ≤ k → tagAt tags' k
              = tagAt tags (if decide (k = i) then j else if decide (k = j) then i else k))
      as Hat.
    { intros k Hk0. unfold tagAt.
      destruct (Z.ltb_spec k 0); [lia|]. rewrite Hk.
      repeat case_decide; try lia;
        repeat match goal with |- context [?x <? 0] =>
                 destruct (Z.ltb_spec x 0); [lia|] end; try done.
      all: exfalso; lia. }
    assert (tagAt tags' i = tagAt tags j) as Hti.
    { rewrite Hat by lia. by rewrite decide_True. }
    assert (tagAt tags' j = tagAt tags i) as Htj.
    { rewrite Hat by lia. case_decide; [by subst | by rewrite decide_True]. }
    split_and!.
    + done.
    + done.
    + intros k Hki Hkj. destruct (Z.ltb_spec k 0) as [Hneg|Hpos].
      * unfold tagAt. by destruct (Z.ltb_spec k 0); [|lia].
      * rewrite Hat by done. by rewrite !decide_False.
    + unfold tagSorter.Len. by rewrite Hlen.
    + done.
    + unfold tagSorter.Swap. rewrite Hti, Htj.
      destruct (tagAt tags j) as [b|] eqn:Hb;
        [|apply tagAt_None in Hb; lia].
      destruct (tagAt tags i) as [a|] eqn:Ha;
        [|apply tagAt_None in Ha; lia].
      simpl. f_equal. apply list_eq. intros k.
      apply tagAt_Some in Ha as [_ Ha]. apply tagAt_Some in Hb as [_ Hb].
      unfold tagSorter.Len in *.
      destruct (decide (k = Z.to_nat j)) as [->|Hkj].
      * rewrite list_lookup_insert_eq by (rewrite length_insert; lia). done.
      * rewrite list_lookup_insert_ne by done.
        destruct (decide (k = Z.to_nat i)) as [->|Hki].
        -- rewrite list_lookup_insert_eq by lia. done.
        -- rewrite list_lookup_insert_ne by done. rewrite Hk.
           by rewrite !decide_False.
Qed.

(** X14. However many times [sort.Sort] calls [Swap], the slice it leaves
    is a rearrangement of the tags it was given. *)
Theorem swaps_permute (tags tags' : list Tag) (ijs : list (Z * Z)) :
  swapAll tags ijs = Some tags' → tags ≡ₚ tags'.
Proof.
  unfold swapAll. revert tags'.
  induction ijs as [|[i j] ijs IH] using rev_ind; intros tags'.
  - by intros [= <-].
  - rewrite foldl_app. simpl.
    destruct (foldl _ (Some tags) ijs) as [t1|]; [|done]. simpl.
    intros Hs. etrans; [by apply IH | by eapply Swap_Permutation].
Qed.

Lemma swaps_permute_witness : [tagFoo; tagOther; tagBar] ≡ₚ [tagBar; tagFoo; tagOther].
Proof.
  apply (swaps_permute [tagFoo; tagOther; tagBar] [tagBar; tagFoo; tagOther]
           [(0, 2); (1, 2)]).
  vm_compute. reflexivity.
Defined.

(** * The tags reader *)

(** ** Runes and white space *)

Lemma between_nonASCII lo hi c :
  (128 ≤ lo)%N → utf8.between lo hi c = true → utf8.isASCII c = false.
Proof.
  intros Hlo [H1 _]%andb_true_iff. apply N.leb_le in H1.
  apply N.ltb_ge. lia.
Qed.

Lemma accepts_nonASCII c0 c1 :
  utf8.accepts c0 c1 = true → utf8.isASCII c1 = false.
Proof.
  unfold utf8.accepts, utf8.isCont.
  repeat match goal with |- context [if ?b then _ else _] => destruct b end;
    apply between_nonASCII; lia.
Qed.

Lemma runeLen_wide s n :
  utf8.runeLen s = n → (1 < n)%nat →
  (n ≤ length s)%nat ∧ Forall (fun b => utf8.isASCII b = false) (take n s).
Proof.
  destruct s as [|c0 t]; simpl; [lia|].
  destruct (utf8.between 194 223 c0) eqn:H2.
  { apply between_nonASCII in H2; [|lia].
    destruct t as [|c1 t]; [lia|].
    destruct (utf8.accepts c0 c1) eqn:Ha; [|lia].
    apply accepts_nonASCII in Ha. intros <- _. simpl. split; [lia|].
    rewrite take_0. by repeat constructor. }
  destruct (utf8.between 224 239 c0) eqn:H3.
  { apply between_nonASCII in H3; [|lia].
    destruct t as [|c1 [|c2 t]]; [lia..|].
    destruct (utf8.accepts c0 c1) eqn:Ha; simpl; [|lia].
    destruct (utf8.isCont c2) eqn:Hc2; simpl; [|lia].
    apply accepts_nonASCII in Ha. apply between_nonASCII in Hc2; [|lia].
    intros <- _. simpl. split; [lia|].
    rewrite take_0. by repeat constructor. }
  destruct (utf8.between 240 244 c0) eqn:H4; [|lia].
  apply between_nonASCII in H4; [|lia].
  destruct t as [|c1 [|c2 [|c3 t]]]; [lia..|].
  destruct (utf8.accepts c0 c1) eqn:Ha; simpl; [|lia].
  destruct (utf8.isCont c2) eqn:Hc2; simpl; [|lia].
  destruct (utf8.isCont c3) eqn:Hc3; simpl; [|lia].
  apply accepts_nonASCII in Ha. apply between_nonASCII in Hc2; [|lia].
  apply between_nonASCII in Hc3; [|lia].
  intros <- _. simpl. split; [lia|].
  rewrite take_0. by repeat constructor.
Qed.

Lemma DecodeRune_width s : snd (rune.DecodeRune s) = utf8.runeLen s.
Proof.
  unfold rune.DecodeRune.
  destruct (utf8.runeLen s) as [|[|[|[|[|n]]]]];
    destruct s as [|c0 [|c1 [|c2 [|c3 s]]]]; try reflexivity;
    by destruct (utf8.isASCII c0).
Qed.

Lemma DecodeRune_narrow c0 t r :
  utf8.runeLen (c0 :: t) = 1%nat → rune.DecodeRune (c0 :: t) = (r, 1%nat) →
  r = if utf8.isASCII c0 then rune.byteVal c0 else rune.RuneError.
Proof.
  unfold rune.DecodeRune. intros ->.
  destruct (utf8.isASCII c0); by intros [= <-].
Qed.

(** A rune that is white space covers no ASCII byte that is not. *)
Lemma DecodeRune_space s r n :
  s ≠ [] → rune.DecodeRune s = (r, n) → rune.IsSpace r = true →
  (1 ≤ n ≤ length s)%nat ∧ Forall (fun b => ink b = false) (take n s).
Proof.
  intros Hs Hd Hr.
  pose proof (DecodeRune_width s) as Hw. rewrite Hd in Hw. simpl in Hw.
  assert (1 ≤ utf8.runeLen s)%nat as Hpos.
  { destruct s; [done | apply runeLen_pos]. }
  destruct (decide (n = 1%nat)) as [->|Hn].
  - destruct s as [|c0 t]; [done|].
    apply DecodeRune_narrow in Hd; [|done].
    simpl. split; [lia|]. rewrite take_0. constructor; [|constructor].
    unfold ink. destruct (utf8.isASCII c0); [|done]. subst r. by rewrite Hr.
  - destruct (runeLen_wide s n) as [Hlen Hall]; [done | lia |].
    split; [lia|]. eapply Forall_impl; [exact Hall|].
    intros b Hb. unfold ink. by rewrite Hb.
Qed.

Lemma DecodeLastRune_space s r n :
  rune.DecodeLastRune s = (r, n) → rune.IsSpace r = true →
  (1 ≤ n ≤ length s)%nat ∧
  Forall (fun b => ink b = false) (drop (length s - n) s).
Proof.
  unfold rune.DecodeLastRune.
  destruct (last s) as [c|] eqn:Hlast; [|by intros [= <- <-]].
  assert (∃ s0, s = s0 ++ [c]) as [s0 ->].
  { apply last_Some in Hlast. done. }
  rewrite length_app. simpl.
  destruct (utf8.isASCII c) eqn:Hc.
  { intros [= <- <-] Hr. split; [lia|].
    replace (length s0 + 1 - 1)%nat with (length s0) by lia.
    rewrite drop_app_length. constructor; [|constructor].
    unfold ink. by rewrite Hc, Hr. }
  cbv zeta.
  match goal with |- context [drop (Z.to_nat ?st) _] => set (start := st) end.
  match goal with |- context [_ + _ =? ?e] => set (end_ := e) end.
  assert (end_ = Z.of_nat (length s0 + 1)) as Hend by done.
  destruct (rune.DecodeRune (drop (Z.to_nat start) (s0 ++ [c]))) as [r' size] eqn:Hd.
  destruct (Z.eqb_spec (start + Z.of_nat size) end_) as [Heq|Hne];
    [|intros [= <- <-]; done].
  intros [= <- <-] Hr.
  assert (0 ≤ start) as Hst by (unfold start; lia).
  destruct (decide (drop (Z.to_nat start) (s0 ++ [c]) = [])) as [He|Hne].
  { rewrite He in Hd. by injection Hd as <- <-. }
  destruct (DecodeRune_space _ _ _ Hne Hd Hr) as [Hsz Hall].
  rewrite length_drop, length_app in Hsz. simpl in Hsz.
  split; [lia|].
  replace (length s0 + 1 - size)%nat with (Z.to_nat start) by lia.
  rewrite take_ge in Hall; [done|].
  rewrite length_drop, length_app. simpl. lia.
Qed.

Lemma elem_of_drop_ink (c : ascii) n (s : bytes) :
  ink c = true → c ∈ s → Forall (fun b => ink b = false) (take n s) →
  c ∈ drop n s.
Proof.
  intros Hc Hin Hall. rewrite <- (take_drop n s) in Hin.
  apply elem_of_app in Hin as [Hin|Hin]; [|done].
  rewrite Forall_forall in Hall. apply Hall in Hin. congruence.
Qed.

Lemma trimLeftSpace_keeps fuel s c :
  ink c = true → c ∈ s → (length s ≤ fuel)%nat → c ∈ trimLeftSpace fuel s.
Proof.
  intros Hc. revert s. induction fuel as [|fuel IH]; intros s Hin Hlen.
  { destruct s; [by apply elem_of_nil in Hin | simpl in Hlen; lia]. }
  destruct s as [|x t] eqn:Hs; [by apply elem_of_nil in Hin|].
  rewrite <- Hs in *. assert (s ≠ []) as Hne by (by rewrite Hs).
  assert (trimLeftSpace (S fuel) s
          = let '(r, size) := rune.DecodeRune s in
            if rune.IsSpace r then trimLeftSpace fuel (drop size s) else s) as ->.
  { by rewrite Hs. }
  destruct (rune.DecodeRune s) as [r size] eqn:Hd.
  destruct (rune.IsSpace r) eqn:Hr; [|done].
  destruct (DecodeRune_space s r size Hne Hd Hr) as [Hsz Hall].
  apply IH.
  - by apply elem_of_drop_ink.
  - rewrite length_drop. lia.
Qed.

Lemma lastIndexNotSpace_keeps fuel s i c :
  ink c = true → c ∈ take i s → (i ≤ fuel)%nat → (i ≤ length s)%nat →
  0 ≤ lastIndexNotSpace fuel s i.
Proof.
  intros Hc. revert i. induction fuel as [|fuel IH]; intros i Hin Hf Hlen.
  { replace i with 0%nat in Hin by lia. rewrite take_0 in Hin.
    by apply elem_of_nil in Hin. }
  destruct i as [|i']; [rewrite take_0 in Hin; by apply elem_of_nil in Hin|].
  set (i := S i') in *.
  assert (lastIndexNotSpace (S fuel) s i
          = let '(r, size) := rune.DecodeLastRune (take i s) in
            if rune.IsSpace r then lastIndexNotSpace fuel s (i - size)
            else Z.of_nat (i - size)) as -> by done.
  destruct (rune.DecodeLastRune (take i s)) as [r size] eqn:Hd.
  destruct (rune.IsSpace r) eqn:Hr; [|lia].
  destruct (DecodeLastRune_space _ _ _ Hd Hr) as [Hsz Hall].
  rewrite length_take in Hsz, Hall.
  replace (i `min` length s)%nat with i in Hsz, Hall by lia.
  apply IH; [|lia..].
  rewrite <- (take_drop (i - size) (take i s)) in Hin.
  apply elem_of_app in Hin as [Hin|Hin].
  - rewrite take_take in Hin.
    replace ((i - size) `min` i)%nat with (i - size)%nat in Hin by lia. done.
  - rewrite Forall_forall in Hall. apply Hall in Hin. congruence.
Qed.

Lemma trimRightSpace_keeps s c :
  ink c = true → c ∈ s → trimRightSpace s ≠ [].
Proof.
  intros Hc Hin. unfold trimRightSpace.
  pose proof (lastIndexNotSpace_keeps (length s) s (length s) c Hc) as Hi.
  rewrite take_ge in Hi by lia. specialize (Hi Hin ltac:(lia) ltac:(lia)).
  set (i := lastIndexNotSpace (length s) s (length s)) in *.
  destruct (Z.ltb_spec i 0) as [?|_]; [lia|].
  assert (s ≠ []) as Hne by (intros ->; by apply elem_of_nil in Hin).
  assert (∀ k, 1 ≤ k → take (Z.to_nat k) s ≠ []) as Htake.
  { intros k Hk. destruct s as [|x t]; [done|].
    destruct (Z.to_nat k) as [|n] eqn:Hn; [lia | done]. }
  destruct (s !! Z.to_nat i) as [b|] eqn:Hb; [|apply Htake; lia].
  destruct (utf8.isASCII b); [apply Htake; lia|].
  apply Htake. rewrite DecodeRune_width.
  assert (drop (Z.to_nat i) s ≠ []) as Hd.
  { intros He. apply (f_equal length) in He. rewrite length_drop in He.
    apply lookup_lt_Some in Hb. simpl in He. lia. }
  destruct (drop (Z.to_nat i) s) as [|y l]; [done|].
  pose proof (runeLen_pos y l). lia.
Qed.

(** A text with an ASCII byte that is not white space is not blank. *)
Lemma TrimSpace_ink s c :
  ink c = true → c ∈ toBytes s → (len (TrimSpace s) =? 0)%nat = false.
Proof.
  intros Hc Hin. apply Nat.eqb_neq. unfold TrimSpace. rewrite len_ofBytes.
  intros Hlen. apply length_zero_iff_nil in Hlen. revert Hlen.
  apply (trimRightSpace_keeps _ c Hc).
  by apply trimLeftSpace_keeps.
Qed.

(** ** [strings.Index] and [strings.Split] with a separator of one byte *)

Lemma hasPrefixB_nil s : hasPrefixB s [] = true.
Proof. by destruct s. Qed.

Lemma hasPrefixB_byte x s :
  hasPrefixB s [x] = match s with c :: _ => Ascii.eqb x c | [] => false end.
Proof.
  destruct s as [|c s]; cbn [hasPrefixB]; [done|].
  by rewrite hasPrefixB_nil, andb_true_r.
Qed.

Lemma indexFrom_byte x a b i :
  x ∉ a → indexFrom [x] (a ++ x :: b) i = i + Z.of_nat (length a).
Proof.
  revert i. induction a as [|c a IH]; intros i Hx.
  - cbn [app indexFrom]. rewrite hasPrefixB_byte, Ascii.eqb_refl.
    cbn [length]. lia.
  - apply not_elem_of_cons in Hx as [Hc Ha].
    cbn [app indexFrom]. rewrite hasPrefixB_byte.
    assert (Ascii.eqb x c = false) as -> by by apply Ascii.eqb_neq.
    rewrite IH by done. cbn [length]. lia.
Qed.

Lemma indexFrom_byte_none x s i : x ∉ s → indexFrom [x] s i = -1.
Proof.
  revert i. induction s as [|c s IH]; intros i Hx; [done|].
  apply not_elem_of_cons in Hx as [Hc Hs].
  cbn [indexFrom]. rewrite hasPrefixB_byte.
  assert (Ascii.eqb x c = false) as -> by by apply Ascii.eqb_neq.
  by apply IH.
Qed.

(** The first byte [x] of a text, if it has one. *)
Lemma first_byte (x : ascii) (s : bytes) :
  x ∉ s ∨ ∃ a b, s = a ++ x :: b ∧ x ∉ a.
Proof.
  destruct (decide (x ∈ s)) as [Hin|Hout]; [right | by left].
  by apply list_elem_of_split_l.
Qed.

Lemma splitSep_byte_last x cur s :
  x ∉ s → splitSep [x] 0 cur s = [ofBytes (rev cur ++ s)].
Proof.
  revert cur. induction s as [|c s IH]; intros cur Hx.
  - by rewrite app_nil_r.
  - apply not_elem_of_cons in Hx as [Hc Hs].
    cbn [splitSep]. rewrite hasPrefixB_byte.
    assert (Ascii.eqb x c = false) as -> by by apply Ascii.eqb_neq.
    rewrite IH by done. cbn [rev]. by rewrite <- app_assoc.
Qed.

Lemma splitSep_byte_cons x cur a b :
  x ∉ a →
  splitSep [x] 0 cur (a ++ x :: b) = ofBytes (rev cur ++ a) :: splitSep [x] 0 [] b.
Proof.
  revert cur. induction a as [|c a IH]; intros cur Hx.
  - cbn [app splitSep]. rewrite hasPrefixB_byte, Ascii.eqb_refl.
    by rewrite app_nil_r.
  - apply not_elem_of_cons in Hx as [Hc Ha].
    cbn [app splitSep]. rewrite hasPrefixB_byte.
    assert (Ascii.eqb x c = false) as -> by by apply Ascii.eqb_neq.
    rewrite IH by done. cbn [rev]. by rewrite <- app_assoc.
Qed.

(** Two pieces: the text has the byte once. *)
Lemma splitSep_byte_two x s :
  length (splitSep [x] 0 [] s) = 2%nat →
  ∃ a b, s = a ++ x :: b ∧ (x ∉ a) ∧ (x ∉ b) ∧
         splitSep [x] 0 [] s = [ofBytes a; ofBytes b].
Proof.
  intros Hlen. destruct (first_byte x s) as [Hout | (a & b & -> & Ha)].
  { by rewrite splitSep_byte_last in Hlen. }
  rewrite splitSep_byte_cons in Hlen by done.
  rewrite splitSep_byte_cons by done.
  exists a, b. split; [done|]. split; [done|].
  destruct (first_byte x b) as [Hout | (a' & b' & -> & Ha')].
  - split; [done|]. by rewrite splitSep_byte_last.
  - rewrite splitSep_byte_cons in Hlen by done. simpl in Hlen.
    destruct (first_byte x b') as [Hout | (a2 & b2 & -> & Ha2)].
    + by rewrite splitSep_byte_last in Hlen.
    + by rewrite splitSep_byte_cons in Hlen.
Qed.

(** ** Slices *)

Lemma sliceFrom_app a b n :
  n = Z.of_nat (length a) → sliceFrom (ofBytes (a ++ b)) n = ofBytes b.
Proof.
  intros ->. unfold sliceFrom.
  by rewrite toBytes_ofBytes, Nat2Z.id, drop_app_length.
Qed.

Lemma slice_app a b c lo hi :
  lo = Z.of_nat (length a) → hi = lo + Z.of_nat (length b) →
  slice (ofBytes (a ++ b ++ c)) lo hi = ofBytes b.
Proof.
  intros -> ->. unfold slice.
  rewrite toBytes_ofBytes, Nat2Z.id, drop_app_length.
  replace (Z.to_nat (Z.of_nat (length a) + Z.of_nat (length b) - Z.of_nat (length a)))
    with (length b) by lia.
  by rewrite take_app_length.
Qed.

(** ** [strconv.Atoi] without an error *)

Lemma parseUint_bytes n s u :
  parseUint n s = Some u → u < MaxUint64 →
  Forall (fun c => isDigit c = true) s.
Proof.
  revert n. induction s as [|c s IH]; intros n; [by constructor|].
  simpl. destruct (isDigit c) eqn:Hc; [|done].
  destruct (MaxUint64 <? 10 * n + digitVal c).
  - intros [= <-]. lia.
  - intros Hu Hlt. constructor; [done | by eapply IH].
Qed.

(** A text that [Atoi] reads without an error is digits behind, at most, a
    sign. *)
Lemma AtoiErr_bytes s :
  AtoiErr s = false →
  Forall (fun c => isDigit c = true ∨ c = "+"%char ∨ c = "-"%char) (toBytes s).
Proof.
  unfold AtoiErr.
  assert (∀ (neg : bool) ds,
    match ds with
    | [] => true
    | _ :: _ => match parseUint 0 ds with
                | None => true
                | Some un => if neg then 2 ^ 63 <? un else 2 ^ 63 <=? un
                end
    end = false → Forall (fun c => isDigit c = true) ds) as Hds.
  { intros neg ds. destruct ds as [|c t]; [done|].
    destruct (parseUint 0 (c :: t)) as [un|] eqn:Hp; [|done].
    intros Hun. apply (parseUint_bytes _ _ _ Hp).
    unfold MaxUint64. destruct neg; [apply Z.ltb_ge in Hun | apply Z.leb_gt in Hun]; lia. }
  destruct (toBytes s) as [|c t]; [done|].
  destruct (Ascii.eqb_spec c "+") as [->|Hplus].
  { intros H. apply (Hds false) in H. constructor; [by right; left|].
    eapply Forall_impl; [exact H | by left]. }
  destruct (Ascii.eqb_spec c "-") as [->|Hminus].
  { intros H. apply (Hds true) in H. constructor; [by right; right|].
    eapply Forall_impl; [exact H | by left]. }
  intros H. apply (Hds false (c :: t)) in H.
  eapply Forall_impl; [exact H | by left].
Qed.

Lemma AtoiErr_lacks s c :
  AtoiErr s = false → isDigit c = false → c ≠ "+"%char → c ≠ "-"%char →
  lacks c s.
Proof.
  intros Hs Hd Hp Hm Hin. apply AtoiErr_bytes in Hs.
  rewrite Forall_forall in Hs. destruct (Hs c Hin) as [?|[?|?]]; congruence.
Qed.

(** ** The lines of a tags table *)

Lemma toBytes_symbolLine def name ln bo :
  toBytes (symbolLine def name ln bo)
  = toBytes def ++ DEL :: toBytes name ++ SOH :: toBytes ln
      ++ ","%char :: toBytes bo.
Proof.
  unfold symbolLine, Sprintf. cbn [foldr].
  rewrite !toBytes_app. simpl. by rewrite app_nil_r.
Qed.

Lemma toBytes_fileLine file size :
  toBytes (fileLine file size) = toBytes file ++ ","%char :: toBytes size.
Proof.
  unfold fileLine, Sprintf. cbn [foldr].
  rewrite !toBytes_app. simpl. by rewrite app_nil_r.
Qed.

Lemma HasPrefix_bang s :
  HasPrefix s "!" = match toBytes s with c :: _ => Ascii.eqb c "!" | [] => false end.
Proof.
  destruct s as [|c s]; [done|]. unfold HasPrefix. cbn [String.prefix toBytes String.list_ascii_of_string].
  destruct (ascii_dec "!" c) as [<-|Hne]; [by destruct s|].
  symmetry. apply Ascii.eqb_neq. congruence.
Qed.

(** What [parseLine] does with a line that has the byte [0x7f]. *)
Lemma parseLine_symbol_eq p line D N L B :
  toBytes line = D ++ DEL :: N ++ SOH :: L ++ ","%char :: B →
  DEL ∉ D → SOH ∉ N → ","%char ∉ L → HasPrefix line "!" = false →
  etags.parseLine p line
  = if AtoiErr (ofBytes L) then inl (etags.ErrLineNo line)
    else if AtoiErr (ofBytes B) then inl (etags.ErrByteOff line)
    else inr (addTag p {| etags.File := etags.curFile p;
                          etags.Def := ofBytes D;
                          etags.Name := ofBytes N;
                          etags.Line := Atoi (ofBytes L);
                          etags.ByteOff := Atoi (ofBytes B) |}).
Proof.
  intros Hb HD HN HL Hbang.
  assert ((len (TrimSpace line) =? 0)%nat = false) as Hink.
  { apply (TrimSpace_ink _ DEL); [done|]. rewrite Hb.
    apply elem_of_app. right. apply list_elem_of_here. }
  assert (line = ofBytes (D ++ (DEL :: N) ++ (SOH :: L) ++ ","%char :: B)) as Hline.
  { by rewrite <- (ofBytes_toBytes line), Hb. }
  set (n1 := Z.of_nat (length D)).
  set (n2 := Z.of_nat (length (DEL :: N))).
  set (n3 := Z.of_nat (length (SOH :: L))).
  assert (Index line etags.sepTag = n1) as HI1.
  { unfold Index. rewrite Hb. change (toBytes etags.sepTag) with [DEL].
    rewrite indexFrom_byte by done. lia. }
  assert (sliceFrom line n1 = ofBytes ((DEL :: N) ++ SOH :: L ++ ","%char :: B)) as HS1.
  { rewrite Hline. by apply sliceFrom_app. }
  assert (Index (sliceFrom line n1) etags.sepPos = n2) as HI2.
  { rewrite HS1. unfold Index. rewrite toBytes_ofBytes.
    change (toBytes etags.sepPos) with [SOH].
    rewrite (indexFrom_byte SOH (DEL :: N)); [lia|].
    apply not_elem_of_cons. split; [discriminate | done]. }
  assert (sliceFrom line (n1 + n2) = ofBytes ((SOH :: L) ++ ","%char :: B)) as HS2.
  { rewrite Hline, (app_assoc D). apply sliceFrom_app.
    rewrite length_app. lia. }
  assert (Index (sliceFrom line (n1 + n2)) etags.sepCol = n3) as HI3.
  { rewrite HS2. unfold Index. rewrite toBytes_ofBytes.
    change (toBytes etags.sepCol) with [","%char].
    rewrite (indexFrom_byte ","%char (SOH :: L)); [lia|].
    apply not_elem_of_cons. split; [discriminate | done]. }
  assert (slice line (n1 + n2 + 1) (n1 + n2 + n3) = ofBytes L) as HL1.
  { rewrite Hline.
    replace (D ++ (DEL :: N) ++ (SOH :: L) ++ ","%char :: B)
      with ((D ++ (DEL :: N) ++ [SOH]) ++ L ++ ","%char :: B)
      by (by rewrite <- !app_assoc).
    apply slice_app; [|unfold n3; cbn [length]; lia].
    rewrite !length_app. unfold n1, n2. cbn [length]. lia. }
  assert (sliceFrom line (n1 + n2 + n3 + 1) = ofBytes B) as HB1.
  { rewrite Hline.
    replace (D ++ (DEL :: N) ++ (SOH :: L) ++ ","%char :: B)
      with ((D ++ (DEL :: N) ++ (SOH :: L) ++ [","%char]) ++ B)
      by (by rewrite <- !app_assoc).
    apply sliceFrom_app. rewrite !length_app. unfold n1, n2, n3.
    cbn [length]. lia. }
  assert (slice line 0 n1 = ofBytes D) as HD1.
  { rewrite Hline. apply (slice_app []); [done | lia]. }
  assert (slice line (n1 + 1) (n1 + n2) = ofBytes N) as HN1.
  { rewrite Hline.
    replace (D ++ (DEL :: N) ++ (SOH :: L) ++ ","%char :: B)
      with ((D ++ [DEL]) ++ N ++ (SOH :: L) ++ ","%char :: B)
      by (by rewrite <- !app_assoc).
    apply slice_app; [|unfold n2; cbn [length]; lia].
    rewrite length_app. unfold n1. cbn [length]. lia. }
  unfold etags.parseLine. rewrite Hink, Hbang. cbn [orb]. cbv zeta.
  rewrite HI1.
  destruct (Z.ltb_spec n1 0) as [?|_]; [unfold n1 in *; lia|].
  rewrite HI2.
  destruct (Z.ltb_spec n2 0) as [?|_]; [unfold n2 in *; lia|].
  rewrite HI3.
  destruct (Z.ltb_spec n3 0) as [?|_]; [unfold n3 in *; lia|].
  rewrite HL1, HB1, HD1, HN1. done.
Qed.

(** A line with the byte [0x7f] and no byte [0x01] after it, or with no
    comma after that one, is an error. *)
Lemma parseLine_symbol_err p line D R :
  toBytes line = D ++ DEL :: R → DEL ∉ D → HasPrefix line "!" = false →
  (SOH ∉ R → etags.parseLine p line = inl (etags.ErrNoPos line)) ∧
  (∀ N R', R = N ++ SOH :: R' → SOH ∉ N → ","%char ∉ R' →
     etags.parseLine p line = inl (etags.ErrNoCol line)).
Proof.
  intros Hb HD Hbang.
  assert ((len (TrimSpace line) =? 0)%nat = false) as Hink.
  { apply (TrimSpace_ink _ DEL); [done|]. rewrite Hb.
    apply elem_of_app. right. apply list_elem_of_here. }
  assert (line = ofBytes (D ++ DEL :: R)) as Hline.
  { by rewrite <- (ofBytes_toBytes line), Hb. }
  set (n1 := Z.of_nat (length D)).
  assert (Index line etags.sepTag = n1) as HI1.
  { unfold Index. rewrite Hb. change (toBytes etags.sepTag) with [DEL].
    rewrite indexFrom_byte by done. lia. }
  assert (sliceFrom line n1 = ofBytes (DEL :: R)) as HS1.
  { rewrite Hline. by apply sliceFrom_app. }
  split.
  - intros HR. unfold etags.parseLine. rewrite Hink, Hbang. cbn [orb]. cbv zeta.
    rewrite HI1. destruct (Z.ltb_spec n1 0) as [?|_]; [unfold n1 in *; lia|].
    rewrite HS1. unfold Index at 1. rewrite toBytes_ofBytes.
    change (toBytes etags.sepPos) with [SOH].
    rewrite indexFrom_byte_none; [done|].
    apply not_elem_of_cons. split; [discriminate | done].
  - intros N R' -> HN HR'.
    set (n2 := Z.of_nat (length (DEL :: N))).
    assert (Index (sliceFrom line n1) etags.sepPos = n2) as HI2.
    { rewrite HS1. unfold Index. rewrite toBytes_ofBytes.
      change (toBytes etags.sepPos) with [SOH].
      change (DEL :: N ++ SOH :: R') with ((DEL :: N) ++ SOH :: R').
      rewrite (indexFrom_byte SOH (DEL :: N)); [lia|].
      apply not_elem_of_cons. split; [discriminate | done]. }
    assert (sliceFrom line (n1 + n2) = ofBytes (SOH :: R')) as HS2.
    { rewrite Hline.
      replace (D ++ DEL :: N ++ SOH :: R') with ((D ++ DEL :: N) ++ SOH :: R')
        by (by rewrite <- app_assoc).
      apply sliceFrom_app. rewrite length_app. lia. }
    unfold etags.parseLine. rewrite Hink, Hbang. cbn [orb]. cbv zeta.
    rewrite HI1. destruct (Z.ltb_spec n1 0) as [?|_]; [unfold n1 in *; lia|].
    rewrite HI2. destruct (Z.ltb_spec n2 0) as [?|_]; [unfold n2 in *; lia|].
    rewrite HS2. unfold Index at 1. rewrite toBytes_ofBytes.
    change (toBytes etags.sepCol) with [","%char].
    rewrite indexFrom_byte_none; [done|].
    apply not_elem_of_cons. split; [discriminate | done].
Qed.

(** What [parseLine] does with a line that has no byte [0x7f]. *)
Lemma parseLine_file_eq p line :
  (len (TrimSpace line) =? 0)%nat = false → HasPrefix line "!" = false →
  DEL ∉ toBytes line →
  etags.parseLine p line
  = let cmps := SplitSep line "," in
    if negb (length cmps =? 2)%nat then inl (etags.ErrFormat line)
    else if AtoiErr (cmps !!! 1%nat) then inl (etags.ErrSize line)
    else inr (openFile p (cmps !!! 0%nat)).
Proof.
  intros Hink Hbang HD. unfold etags.parseLine. rewrite Hink, Hbang.
  cbn [orb]. cbv zeta.
  assert (Index line etags.sepTag = -1) as ->.
  { unfold Index. change (toBytes etags.sepTag) with [DEL].
    by apply indexFrom_byte_none. }
  done.
Qed.

(** X15. A symbol line [def 0x7f name 0x01 line , offset] is recorded as
    one tag of the file of the last file line, with these four values. *)
Theorem symbol_line_recorded (p : etags.ETagsParser)
    (def name lineNo byteOff : string) :
  lacks DEL def → HasPrefix def "!" = false → lacks SOH name →
  AtoiErr lineNo = false → AtoiErr byteOff = false →
  etags.parseLine p (symbolLine def name lineNo byteOff)
  = inr (addTag p {| etags.File := etags.curFile p;
                     etags.Def := def;
                     etags.Name := name;
                     etags.Line := Atoi lineNo;
                     etags.ByteOff := Atoi byteOff |}).
Proof.
  intros Hdef Hbang Hname Hl Hb.
  rewrite (parseLine_symbol_eq p _ (toBytes def) (toBytes name)
             (toBytes lineNo) (toBytes byteOff)).
  - rewrite !ofBytes_toBytes. by rewrite Hl, Hb.
  - apply toBytes_symbolLine.
  - done.
  - done.
  - by apply AtoiErr_lacks.
  - rewrite HasPrefix_bang in Hbang |- *. rewrite toBytes_symbolLine.
    by destruct (toBytes def).
Qed.

Lemma symbol_line_recorded_witness :
  etags.parseLine (openFile (etags.NewParser allGo) "a.go")
    (symbolLine "func Foo(" "Foo" "3" "40")
  = inr (addTag (openFile (etags.NewParser allGo) "a.go")
           {| etags.File := "a.go";
              etags.Def := "func Foo(";
              etags.Name := "Foo";
              etags.Line := 3;
              etags.ByteOff := 40 |}).
Proof.
  apply (symbol_line_recorded (openFile (etags.NewParser allGo) "a.go")
           "func Foo(" "Foo" "3" "40");
    try reflexivity; unfold lacks; vm_compute; intros H;
    repeat (apply elem_of_cons in H as [H|H]; [discriminate|]);
    by apply elem_of_nil in H.
Defined.

(** X16. A file line [name,size] makes [name] the current file and lists
    it, last, among the files of its language; no tag is recorded. *)
Theorem file_line_opens (p : etags.ETagsParser) (file size : string) :
  lacks DEL file → lacks ","%char file → HasPrefix file "!" = false →
  AtoiErr size = false →
  etags.parseLine p (fileLine file size) = inr (openFile p file).
Proof.
  intros Hdel Hcomma Hbang Hsize.
  assert (lacks ","%char size) as Hc by by apply AtoiErr_lacks.
  assert (lacks DEL size) as Hd by by apply AtoiErr_lacks.
  rewrite parseLine_file_eq.
  - assert (SplitSep (fileLine file size) "," = [file; size]) as ->.
    { unfold SplitSep. rewrite toBytes_fileLine.
      change (toBytes ",") with [","%char].
      rewrite splitSep_byte_cons, splitSep_byte_last by done.
      cbn [rev app]. by rewrite !ofBytes_toBytes. }
    cbv zeta. change ([file; size] !!! 1%nat) with size.
    by rewrite Hsize.
  - apply (TrimSpace_ink _ ","%char); [done|]. rewrite toBytes_fileLine.
    apply elem_of_app. right. apply list_elem_of_here.
  - rewrite HasPrefix_bang in Hbang |- *. rewrite toBytes_fileLine.
    by destruct (toBytes file).
  - rewrite toBytes_fileLine. intros [Hin|Hin]%elem_of_app; [done|].
    apply elem_of_cons in Hin as [Hin|Hin]; [discriminate | done].
Qed.

Lemma file_line_opens_witness :
  etags.parseLine (etags.NewParser allGo) (fileLine "cmd/events/main.go" "8120")
  = inr (openFile (etags.NewParser allGo) "cmd/events/main.go").
Proof.
  apply (file_line_opens (etags.NewParser allGo) "cmd/events/main.go" "8120");
    try reflexivity; unfold lacks; vm_compute; intros H;
    repeat (apply elem_of_cons in H as [H|H]; [discriminate|]);
    by apply elem_of_nil in H.
Defined.

(** X17. The lines [parseLine] accepts are of three kinds, and of no other:
    a blank line or a line that begins with [!], which changes nothing; a
    file line, with one comma and a number behind it; a symbol line, with
    numbers for the line and the byte offset. *)
Theorem parseLine_accepts (p p' : etags.ETagsParser) (line : string) :
  etags.parseLine p line = inr p' →
  (p' = p ∧ (len (TrimSpace line) = 0%nat ∨ HasPrefix line "!" = true)) ∨
  (∃ file size,
     line = fileLine file size ∧ lacks DEL line ∧
     lacks ","%char file ∧ lacks ","%char size ∧
     AtoiErr size = false ∧ p' = openFile p file) ∨
  (∃ def name lineNo byteOff,
     line = symbolLine def name lineNo byteOff ∧
     lacks DEL def ∧ lacks SOH name ∧
     AtoiErr lineNo = false ∧ AtoiErr byteOff = false ∧
     p' = addTag p {| etags.File := etags.curFile p;
                      etags.Def := def;
                      etags.Name := name;
                      etags.Line := Atoi lineNo;
                      etags.ByteOff := Atoi byteOff |}).
Proof.
  intros H.
  destruct ((len (TrimSpace line) =? 0)%nat) eqn:Hblank.
  { left. unfold etags.parseLine in H. rewrite Hblank in H.
    cbn [orb] in H. injection H as <-. split; [done|].
    left. by apply Nat.eqb_eq. }
  destruct (HasPrefix line "!") eqn:Hbang.
  { left. unfold etags.parseLine in H. rewrite Hblank, Hbang in H.
    cbn [orb] in H. injection H as <-. split; [done | by right]. }
  right.
  destruct (first_byte DEL (toBytes line)) as [Hout | (D & R & Hb & HD)].
  - left. rewrite parseLine_file_eq in H by done. cbv zeta in H.
    destruct ((length (SplitSep line ",") =? 2)%nat) eqn:Hlen; [|done].
    cbn [negb] in H. apply Nat.eqb_eq in Hlen.
    destruct (splitSep_byte_two ","%char (toBytes line) Hlen)
      as (a & b & Hab & Ha & Hbb & Hsplit).
    unfold SplitSep in H. change (toBytes ",") with [","%char] in H.
    rewrite Hsplit in H. simpl in H.
    destruct (AtoiErr (ofBytes b)) eqn:Herr; [done|].
    injection H as <-. exists (ofBytes a), (ofBytes b).
    unfold lacks. rewrite !toBytes_ofBytes. split_and!; try done.
    apply toBytes_inj. by rewrite toBytes_fileLine, !toBytes_ofBytes.
  - right.
    destruct (first_byte SOH R) as [Hout | (N & R' & -> & HN)].
    { by rewrite (proj1 (parseLine_symbol_err p line D R Hb HD Hbang) Hout) in H. }
    destruct (first_byte ","%char R') as [Hout | (L & B & -> & HL)].
    { by rewrite (proj2 (parseLine_symbol_err p line D _ Hb HD Hbang)
                    N R' eq_refl HN Hout) in H. }
    rewrite (parseLine_symbol_eq p line D N L B Hb HD HN HL Hbang) in H.
    destruct (AtoiErr (ofBytes L)) eqn:HeL; [done|].
    destruct (AtoiErr (ofBytes B)) eqn:HeB; [done|].
    injection H as <-.
    exists (ofBytes D), (ofBytes N), (ofBytes L), (ofBytes B).
    unfold lacks. rewrite !toBytes_ofBytes. split_and!; try done.
    apply toBytes_inj. by rewrite toBytes_symbolLine, !toBytes_ofBytes.
Qed.

Lemma parseLine_accepts_witness :
  ∃ def name lineNo byteOff,
    symbolLine "type t struct" "t" "9" "100" = symbolLine def name lineNo byteOff ∧
    lacks DEL def ∧ lacks SOH name ∧
    AtoiErr lineNo = false ∧ AtoiErr byteOff = false.
Proof.
  destruct (parseLine_accepts (etags.NewParser allGo)
              (addTag (etags.NewParser allGo)
                 {| etags.File := EmptyString;
                    etags.Def := "type t struct";
                    etags.Name := "t";
                    etags.Line := 9;
                    etags.ByteOff := 100 |})
              (symbolLine "type t struct" "t" "9" "100") eq_refl)
    as [[_ [H|H]] | [(file & size & _ & H & _) | (def & name & l & b & H)]].
  - discriminate H.
  - discriminate H.
  - exfalso. apply H. vm_compute.
    do 13 apply list_elem_of_further. apply list_elem_of_here.
  - exists def, name, l, b.
    destruct H as (H1 & H2 & H3 & H4 & H5 & _). done.
Defined.

(** ** Reading a tags table *)

Lemma readStrings_no_newline cur s : LF ∉ s → etags.readStrings cur s = [].
Proof.
  revert cur. induction s as [|c s IH]; intros cur Hs; [done|].
  apply not_elem_of_cons in Hs as [Hc Hs]. cbn [etags.readStrings].
  assert (Ascii.eqb c LF = false) as -> by by apply Ascii.eqb_neq.
  by apply IH.
Qed.

Lemma readStrings_app cur s t :
  ∃ cur', etags.readStrings cur (s ++ t)
          = etags.readStrings cur s ++ etags.readStrings cur' t.
Proof.
  revert cur. induction s as [|c s IH]; intros cur.
  - by exists cur.
  - cbn [app etags.readStrings]. destruct (Ascii.eqb c LF).
    + destruct (IH []) as [cur' ->]. by exists cur'.
    + apply IH.
Qed.

Lemma readStrings_line cur l s :
  LF ∉ l →
  etags.readStrings cur (l ++ LF :: s)
  = ofBytes (rev cur ++ l ++ [LF]) :: etags.readStrings [] s.
Proof.
  revert cur. induction l as [|c l IH]; intros cur Hl.
  - cbn [app etags.readStrings]. rewrite Ascii.eqb_refl. done.
  - apply not_elem_of_cons in Hl as [Hc Hl]. cbn [app etags.readStrings].
    assert (Ascii.eqb c LF = false) as -> by by apply Ascii.eqb_neq.
    rewrite IH by done. cbn [rev]. by rewrite <- !app_assoc.
Qed.

Lemma parseAll_app_err p l1 l2 e :
  snd (etags.parseAll p l1) = Some e →
  etags.parseAll p (l1 ++ l2) = etags.parseAll p l1.
Proof.
  revert p. induction l1 as [|l l1 IH]; intros p; [done|].
  cbn [app etags.parseAll].
  destruct (etags.parseLine p (TrimRight l etags.CRLF)) as [e'|p']; [done|].
  apply IH.
Qed.

Lemma parseAll_ext p l1 l2 :
  (fun l => TrimRight l etags.CRLF) <$> l1
  = (fun l => TrimRight l etags.CRLF) <$> l2 →
  etags.parseAll p l1 = etags.parseAll p l2.
Proof.
  revert p l2. induction l1 as [|a l1 IH]; intros p [|b l2]; try done.
  cbn [fmap list_fmap etags.parseAll]. intros [= Hab Hl]. rewrite Hab.
  destruct (etags.parseLine p (TrimRight b etags.CRLF)); [done|].
  by apply IH.
Qed.

Lemma dropWhile_app_all {A} (f : A → bool) a b :
  Forall (fun x => f x = true) a → dropWhile f (a ++ b) = dropWhile f b.
Proof.
  induction 1 as [|x a Hx _ IH]; [done|]. cbn [app dropWhile]. by rewrite Hx.
Qed.

Lemma TrimRight_app s t cutset :
  Forall (fun c => c ∈ toBytes cutset) (toBytes t) →
  TrimRight (s +:+ t) cutset = TrimRight s cutset.
Proof.
  intros Ht. unfold TrimRight. rewrite toBytes_app, rev_app_distr.
  rewrite dropWhile_app_all; [done|].
  apply Forall_rev. eapply Forall_impl; [exact Ht|].
  intros c Hc. by apply bool_decide_eq_true.
Qed.

Lemma toBytes_joinLines eol ls :
  toBytes (joinLines eol ls) = ls ≫= (fun l => toBytes l ++ toBytes eol).
Proof.
  unfold joinLines, Sprintf. induction ls as [|l ls IH]; [done|].
  cbn [fmap list_fmap foldr]. rewrite !toBytes_app, IH. done.
Qed.

Lemma readStrings_joinLines e ls :
  LF ∉ e → Forall (lacks LF) ls →
  etags.readStrings [] (ls ≫= (fun l => toBytes l ++ e ++ [LF]))
  = (fun l => l +:+ ofBytes (e ++ [LF])) <$> ls.
Proof.
  intros He. induction 1 as [|l ls Hl _ IH]; [done|].
  cbn [mbind list_bind fmap list_fmap].
  replace ((toBytes l ++ e ++ [LF]) ++ (ls ≫= (fun l => toBytes l ++ e ++ [LF])))
    with ((toBytes l ++ e) ++ LF :: (ls ≫= (fun l => toBytes l ++ e ++ [LF])))
    by (by rewrite <- !app_assoc).
  rewrite readStrings_line.
  - rewrite IH. f_equal. cbn [rev app].
    rewrite <- app_assoc, ofBytes_app. by rewrite ofBytes_toBytes.
  - intros [?|?]%elem_of_app; [by apply Hl | by apply He].
Qed.

(** X18. What follows the last newline of a tags table is not read: a table
    whose last line has no newline loses that line. *)
Theorem unterminated_line_dropped (p : etags.ETagsParser) (s rest : string) :
  lacks LF rest → etags.Parse p (s +:+ rest) = etags.Parse p s.
Proof.
  intros Hrest. unfold etags.Parse. f_equal. rewrite toBytes_app.
  destruct (readStrings_app [] (toBytes s) (toBytes rest)) as [cur' ->].
  rewrite (readStrings_no_newline cur' (toBytes rest)) by exact Hrest.
  by rewrite app_nil_r.
Qed.

Lemma unterminated_line_dropped_witness :
  etags.Parse (etags.NewParser allGo)
    (tagsTable +:+ symbolLine "func Bar(" "Bar" "50" "900")
  = etags.Parse (etags.NewParser allGo) tagsTable.
Proof.
  apply (unterminated_line_dropped (etags.NewParser allGo) tagsTable
           (symbolLine "func Bar(" "Bar" "50" "900")).
  unfold lacks. vm_compute. intros H.
  repeat (apply elem_of_cons in H as [H|H]; [discriminate|]).
  by apply elem_of_nil in H.
Defined.

(** X19. Lines that end in a carriage return and a newline are read as
    lines that end in a newline. *)
Theorem crlf_as_newline (p : etags.ETagsParser) (ls : list string) :
  Forall (lacks LF) ls →
  etags.Parse p (joinLines etags.CRLF ls) = etags.Parse p (joinLines nl ls).
Proof.
  intros Hls. unfold etags.Parse. rewrite !toBytes_joinLines.
  change (toBytes etags.CRLF) with ([ascii_of_nat 13] ++ [LF]).
  change (toBytes nl) with ([] ++ [LF]).
  rewrite !readStrings_joinLines; [|by apply not_elem_of_nil | done | | done].
  - apply parseAll_ext. rewrite <- !list_fmap_compose.
    apply list_fmap_ext. intros _ l _. cbn [compose].
    rewrite !TrimRight_app; [done | |].
    + rewrite toBytes_ofBytes. vm_compute. repeat constructor.
    + rewrite toBytes_ofBytes. vm_compute. repeat constructor.
  - intros [?|?]%elem_of_cons; [discriminate | by eapply not_elem_of_nil].
Qed.

Lemma crlf_as_newline_witness :
  etags.Parse (etags.NewParser allGo)
    (joinLines etags.CRLF [fileLine "a.go" "120"; symbolLine "func Foo(" "Foo" "3" "40"])
  = etags.Parse (etags.NewParser allGo)
      (joinLines nl [fileLine "a.go" "120"; symbolLine "func Foo(" "Foo" "3" "40"]).
Proof.
  apply (crlf_as_newline (etags.NewParser allGo)
           [fileLine "a.go" "120"; symbolLine "func Foo(" "Foo" "3" "40"]).
  repeat constructor; unfold lacks; vm_compute; intros H;
    repeat (apply elem_of_cons in H as [H|H]; [discriminate|]);
    by apply elem_of_nil in H.
Defined.

(** X20. [Parse] stops at the first line that is an error: what follows it
    in the table is not read, and makes no difference. *)
Theorem Parse_stops_at_error (p : etags.ETagsParser) (s rest : string)
    (e : etags.error) :
  snd (etags.Parse p s) = Some e →
  etags.Parse p (s +:+ rest) = etags.Parse p s.
Proof.
  unfold etags.Parse. intros He. rewrite toBytes_app.
  destruct (readStrings_app [] (toBytes s) (toBytes rest)) as [cur' ->].
  by eapply parseAll_app_err.
Qed.

Lemma Parse_stops_at_error_witness :
  etags.Parse (etags.NewParser allGo)
    (Sprintf [fileLine "a.go" "120"; nl; "a.go"; nl] +:+ tagsTable)
  = etags.Parse (etags.NewParser allGo)
      (Sprintf [fileLine "a.go" "120"; nl; "a.go"; nl]).
Proof.
  apply (Parse_stops_at_error (etags.NewParser allGo)
           (Sprintf [fileLine "a.go" "120"; nl; "a.go"; nl]) tagsTable
           (etags.ErrFormat "a.go")).
  vm_compute. reflexivity.
Defined.

(** ** What [Parse] keeps *)

Lemma parseLine_result p line p' :
  etags.parseLine p line = inr p' →
  p' = p ∨ (∃ file, p' = openFile p file) ∨
  (∃ tag, etags.File tag = etags.curFile p ∧ p' = addTag p tag).
Proof.
  unfold etags.parseLine. cbv zeta.
  repeat match goal with
         | |- context [if ?b then _ else _] => destruct b
         end; intros [= <-].
  - by left.
  - right. left. by eexists.
  - right. right. eexists. split; [|reflexivity]. reflexivity.
Qed.

Lemma openFile_files p file l :
  filesOf (openFile p file) l
  = if decide (l = etags.Lang (etags.config p) file)
    then filesOf p l ++ [file] else filesOf p l.
Proof.
  unfold filesOf, openFile. cbn [etags.langFiles].
  destruct (decide (l = etags.Lang (etags.config p) file)) as [->|Hne].
  - by rewrite lookup_insert_eq.
  - by rewrite lookup_insert_ne.
Qed.

Lemma registered_filesOf p f : registered p f ↔ ∃ l, f ∈ filesOf p l.
Proof.
  unfold registered, filesOf. split.
  - intros (l & fs & Hl & Hf). exists l. by rewrite Hl.
  - intros (l & Hf). destruct (etags.langFiles p !! l) as [fs|] eqn:Hl.
    + by exists l, fs.
    + by apply elem_of_nil in Hf.
Qed.

Lemma openFile_registered p file f :
  registered (openFile p file) f ↔ registered p f ∨ f = file.
Proof.
  rewrite !registered_filesOf. split.
  - intros (l & Hf). rewrite openFile_files in Hf.
    destruct (decide (l = etags.Lang (etags.config p) file)) as [->|Hne].
    + apply elem_of_app in Hf as [Hf|Hf]; [left; by eexists|].
      right. by apply list_elem_of_singleton in Hf.
    + left. by eexists.
  - intros [(l & Hf) | ->].
    + exists l. rewrite openFile_files. destruct (decide _); [|done].
      apply elem_of_app. by left.
    + exists (etags.Lang (etags.config p) file). rewrite openFile_files.
      rewrite decide_True by done. apply elem_of_app. right.
      apply list_elem_of_here.
Qed.

Lemma parseLine_grows p line p' :
  etags.parseLine p line = inr p' →
  etags.config p' = etags.config p ∧
  etags.tags p `prefix_of` etags.tags p' ∧
  (∀ lang, filesOf p lang `prefix_of` filesOf p' lang) ∧
  (∀ f, registered p f → registered p' f) ∧
  (etags.curFile p' = etags.curFile p ∨ registered p' (etags.curFile p')) ∧
  (∀ t, t ∈ etags.tags p' →
        t ∈ etags.tags p ∨ etags.File t = etags.curFile p).
Proof.
  intros [-> | [(file & ->) | (tag & Htag & ->)]]%parseLine_result.
  - split_and!; try done; by left.
  - split_and!; try done.
    + intros l. rewrite openFile_files. destruct (decide _); [|done].
      by apply prefix_app_r.
    + intros f Hf. apply openFile_registered. by left.
    + right. apply openFile_registered. by right.
    + by left.
  - split_and!; try done.
    + by apply prefix_app_r.
    + by left.
    + intros t [Hin|Hin]%elem_of_app; [by left|].
      apply list_elem_of_singleton in Hin as ->. by right.
Qed.

Lemma parseAll_grows p lines :
  etags.config (etags.parseAll p lines).1 = etags.config p ∧
  etags.tags p `prefix_of` etags.tags (etags.parseAll p lines).1 ∧
  (∀ lang, filesOf p lang `prefix_of` filesOf (etags.parseAll p lines).1 lang) ∧
  (∀ f, registered p f → registered (etags.parseAll p lines).1 f) ∧
  ((∀ t, t ∈ etags.tags p → registered p (etags.File t) ∨ etags.File t = EmptyString) →
   (etags.curFile p = EmptyString ∨ registered p (etags.curFile p)) →
   ∀ t, t ∈ etags.tags (etags.parseAll p lines).1 →
        registered (etags.parseAll p lines).1 (etags.File t)
        ∨ etags.File t = EmptyString).
Proof.
  revert p. induction lines as [|l ls IH]; intros p.
  { simpl. split_and!; done. }
  cbn [etags.parseAll].
  destruct (etags.parseLine p (TrimRight l etags.CRLF)) as [e|p'] eqn:Hl.
  { simpl. split_and!; done. }
  destruct (parseLine_grows _ _ _ Hl) as (Hc & Ht & Hf & Hr & Hcur & Hnew).
  destruct (IH p') as (Hc' & Ht' & Hf' & Hr' & Hinv').
  split_and!.
  - congruence.
  - by etrans.
  - intros lang. etrans; [apply Hf | apply Hf'].
  - intros f Hreg. by apply Hr', Hr.
  - intros Htags Hcf. apply Hinv'.
    + intros t Hin. destruct (Hnew t Hin) as [Hold | Hfile].
      * destruct (Htags t Hold) as [?|?]; [left; by apply Hr | by right].
      * rewrite Hfile. destruct Hcf as [?|?]; [by right | left; by apply Hr].
    + destruct Hcur as [Heq | ?]; [|by right]. rewrite Heq.
      destruct Hcf as [?|?]; [by left | right; by apply Hr].
Qed.

(** X21. [Parse] adds to what the parser holds: the tags it had stay, first
    and in their order, and so do the files of every language; the
    configuration is the same. *)
Theorem Parse_appends (p : etags.ETagsParser) (s : string) :
  etags.config (etags.Parse p s).1 = etags.config p ∧
  etags.tags p `prefix_of` etags.tags (etags.Parse p s).1 ∧
  ∀ lang, filesOf p lang `prefix_of` filesOf (etags.Parse p s).1 lang.
Proof.
  unfold etags.Parse.
  destruct (parseAll_grows (rewound p) (etags.readStrings [] (toBytes s)))
    as (Hc & Ht & Hf & _).
  split_and!; done.
Qed.

(** X22. Every tag has the name of a file that a file line has given, or
    the empty name: the tags of the symbol lines that [Parse] meets before
    the first file line of a table. *)
Theorem tags_of_listed_files (p : etags.ETagsParser) (s : string)
    (t : etags.ETag) :
  (∀ t0, t0 ∈ etags.tags p →
         registered p (etags.File t0) ∨ etags.File t0 = EmptyString) →
  t ∈ etags.tags (etags.Parse p s).1 →
  registered (etags.Parse p s).1 (etags.File t) ∨ etags.File t = EmptyString.
Proof.
  intros Hold Hin. unfold etags.Parse in *.
  destruct (parseAll_grows (rewound p) (etags.readStrings [] (toBytes s)))
    as (_ & _ & _ & _ & Hinv).
  apply Hinv; [exact Hold | by left | exact Hin].
Qed.

Lemma tags_of_listed_files_witness :
  registered (etags.Parse (etags.NewParser allGo) tagsTable).1 "a.go"
  ∨ "a.go" = EmptyString.
Proof.
  apply (tags_of_listed_files (etags.NewParser allGo) tagsTable
           {| etags.File := "a.go"; etags.Def := "type t struct";
              etags.Name := "t"; etags.Line := 9; etags.ByteOff := 100 |}).
  - intros t0 Hin. by apply elem_of_nil in Hin.
  - vm_compute. apply list_elem_of_further, list_elem_of_here.
Defined.

(** ** [Defs] *)

Lemma uint32_wrap z : etags.uint32 (GoInt.wrap z) = etags.uint32 z.
Proof.
  unfold etags.uint32, GoInt.wrap.
  rewrite (Z.mod_eq (z + 2 ^ 63) (2 ^ 64)) by lia.
  replace (z + 2 ^ 63 - 2 ^ 64 * ((z + 2 ^ 63) / 2 ^ 64) - 2 ^ 63)
    with (z + (- (2 ^ 32 * ((z + 2 ^ 63) / 2 ^ 64))) * 2 ^ 32) by lia.
  apply Z_mod_plus_full.
Qed.

Lemma uint32_add a b : etags.uint32 (GoInt.add a b) = etags.uint32 (a + b).
Proof. apply uint32_wrap. Qed.

Lemma uint32_add_l a b :
  etags.uint32 (GoInt.wrap a + b) = etags.uint32 (a + b).
Proof.
  unfold etags.uint32. rewrite Zplus_mod. fold (etags.uint32 (GoInt.wrap a)).
  rewrite uint32_wrap. unfold etags.uint32. by rewrite <- Zplus_mod.
Qed.

Lemma foldl_defsStep_None p l : foldl (etags.defsStep p) None l = None.
Proof. by induction l. Qed.

Lemma defsStep_eq p names defs tag :
  etags.defsStep p (Some (names, defs)) tag
  = match names !! etags.File tag with
    | None => None
    | Some m =>
        let c := counter names (etags.File tag) (etags.Name tag) in
        Some (<[etags.File tag := <[etags.Name tag := GoInt.add c 1]> m]> names,
              if named tag
              then defs ++
                   [{| etags.Key :=
                         {| etags.UnitType :=
                              etags.langUnitType
                                (etags.Lang (etags.config p) (etags.File tag));
                            etags.Unit := ".";
                            etags.Path := pathOf (etags.File tag) (etags.Name tag) c |};
                       etags.DefName := etags.Name tag;
                       etags.DefFile := etags.File tag;
                       etags.DefStart :=
                         etags.uint32 (GoInt.add (etags.ByteOff tag)
                                         (Index (etags.Def tag) (etags.Name tag)));
                       etags.DefEnd :=
                         etags.uint32
                           (GoInt.add (GoInt.add (etags.ByteOff tag)
                                         (Index (etags.Def tag) (etags.Name tag)))
                                      (Z.of_nat (len (etags.Name tag))));
                       etags.Exported := true;
                       etags.Local_ := false;
                       etags.Data := etags.defFormatDataFromTag tag |}]
              else defs)
    end.
Proof.
  unfold etags.defsStep, named, counter. cbn [mbind option_bind].
  destruct (names !! etags.File tag) as [m|]; [|done].
  cbn [mbind option_bind]. cbv zeta.
  destruct (Z.ltb_spec (Index (etags.Def tag) (etags.Name tag)) 0) as [Hlt|Hge].
  - assert ((0 <=? Index (etags.Def tag) (etags.Name tag)) = false) as ->
      by (apply Z.leb_gt; lia). done.
  - assert ((0 <=? Index (etags.Def tag) (etags.Name tag)) = true) as ->
      by (apply Z.leb_le; lia). done.
Qed.

Lemma fileDefNames0_lookup p f :
  (etags.fileDefNames0 p !! f = Some ∅ ∧ registered p f) ∨
  (etags.fileDefNames0 p !! f = None ∧ ¬ registered p f).
Proof.
  unfold etags.fileDefNames0.
  assert (∀ l : list string,
    (foldr (fun file m => <[file := ∅]> m) (∅ : gmap string (gmap string Z)) l !! f
       = Some ∅ ∧ f ∈ l) ∨
    (foldr (fun file m => <[file := ∅]> m) (∅ : gmap string (gmap string Z)) l !! f
       = None ∧ f ∉ l)) as Hl.
  { induction l as [|x l IH]; simpl.
    - right. split; [apply lookup_empty | apply not_elem_of_nil].
    - destruct (decide (f = x)) as [->|Hne].
      + left. rewrite lookup_insert_eq. split; [done | apply list_elem_of_here].
      + rewrite lookup_insert_ne by done. destruct IH as [[? ?]|[? ?]].
        * left. split; [done | by apply list_elem_of_further].
        * right. split; [done|]. by apply not_elem_of_cons. }
  assert (f ∈ (map_to_list (etags.langFiles p) ≫= snd) ↔ registered p f) as Hreg.
  { rewrite list_elem_of_bind. unfold registered. split.
    - intros ([l fs] & Hf & Hin). apply elem_of_map_to_list in Hin.
      by exists l, fs.
    - intros (l & fs & Hl' & Hf). exists (l, fs). split; [done|].
      by apply elem_of_map_to_list. }
  destruct (Hl (map_to_list (etags.langFiles p) ≫= snd)) as [[? ?]|[? ?]].
  - left. split; [done | by apply Hreg].
  - right. split; [done|]. by rewrite <- Hreg.
Qed.

Lemma Defs_fold_None p l names defs :
  (∀ f, is_Some (names !! f) ↔ registered p f) →
  foldl (etags.defsStep p) (Some (names, defs)) l = None
  ↔ ∃ t, t ∈ l ∧ ¬ registered p (etags.File t).
Proof.
  revert names defs. induction l as [|t l IH]; intros names defs Hdom.
  { simpl. split; [done|]. intros (t & Hin & _). by apply elem_of_nil in Hin. }
  cbn [foldl]. rewrite defsStep_eq.
  destruct (names !! etags.File t) as [m|] eqn:Hm.
  - cbv zeta. rewrite IH.
    + split.
      * intros (t' & Hin & Hno). exists t'. split; [by apply list_elem_of_further | done].
      * intros (t' & Hin & Hno). apply elem_of_cons in Hin as [->|Hin].
        -- exfalso. apply Hno, Hdom. by rewrite Hm.
        -- by exists t'.
    + intros f. rewrite <- Hdom. destruct (decide (f = etags.File t)) as [->|Hne].
      * rewrite lookup_insert_eq, Hm. split; by eexists.
      * by rewrite lookup_insert_ne.
  - rewrite foldl_defsStep_None. split; [|done]. intros _.
    exists t. split; [apply list_elem_of_here|].
    intros Hreg%Hdom. rewrite Hm in Hreg. by destruct Hreg.
Qed.

(** X23. [Defs] panics when a tag has the name of a file that no file line
    has given, and only then. *)
Theorem Defs_panics_iff (p : etags.ETagsParser) :
  etags.Defs p = None
  ↔ ∃ t, t ∈ etags.tags p ∧ ¬ registered p (etags.File t).
Proof.
  unfold etags.Defs, etags.Tags. rewrite fmap_None.
  apply Defs_fold_None. intros f.
  destruct (fileDefNames0_lookup p f) as [[-> Hr]|[-> Hr]].
  - split; [done | by eexists].
  - split; [by intros [? ?] | done].
Qed.

(** A table that begins with a symbol line: [Parse] reads it, and [Defs]
    panics. *)
Example Defs_panics_sample :
  snd (etags.Parse (etags.NewParser allGo)
         (symbolLine "func Foo(" "Foo" "3" "40" +:+ nl)) = None ∧
  etags.Defs (etags.Parse (etags.NewParser allGo)
                (symbolLine "func Foo(" "Foo" "3" "40" +:+ nl)).1 = None.
Proof. split; vm_compute; reflexivity. Qed.

Lemma defFormatData_named tag :
  named tag = true → is_Some (etags.defFormatDataFromTag tag).
Proof.
  unfold named, etags.defFormatDataFromTag. intros H%Z.leb_le. cbv zeta.
  destruct (Z.ltb_spec (Index (etags.Def tag) (etags.Name tag)) 0); [lia|].
  match goal with |- context [let '(_, _) := ?x in _] => destruct x end.
  by eexists.
Qed.

Lemma Defs_fold_defs p l names defs names' defs' :
  foldl (etags.defsStep p) (Some (names, defs)) l = Some (names', defs') →
  ∃ new, defs' = defs ++ new ∧ Forall2 (defOf p) (List.filter named l) new.
Proof.
  revert names defs. induction l as [|t l IH]; intros names defs.
  { simpl. intros [= <- <-]. exists []. by rewrite app_nil_r. }
  cbn [foldl List.filter]. rewrite defsStep_eq.
  destruct (names !! etags.File t) as [m|]; [|by rewrite foldl_defsStep_None].
  cbv zeta. destruct (named t) eqn:Hn.
  - intros (new & -> & Hnew)%IH. eexists (_ :: new).
    split; [by rewrite <- app_assoc|]. constructor; [|done].
    unfold defOf. cbn. split_and!; try done.
    + apply uint32_add.
    + unfold GoInt.add. by rewrite uint32_wrap, uint32_add_l.
    + by apply defFormatData_named.
  - apply IH.
Qed.

(** X24. [Defs] gives one def for each tag whose name is found in its
    definition text, in the order of the tags, and none for the others; the
    def has the name and the file of the tag, spans the name, and has its
    formatting data: [defFormatDataFromTag] is never asked for a tag it
    has no answer for. *)
Theorem Defs_of_tags (p : etags.ETagsParser) (defs : list etags.Def_) :
  etags.Defs p = Some defs →
  Forall2 (defOf p) (List.filter named (etags.tags p)) defs.
Proof.
  unfold etags.Defs, etags.Tags. intros Hd.
  apply fmap_Some in Hd as ([names' defs'] & Hfold & ->).
  apply Defs_fold_defs in Hfold as (new & -> & Hnew). done.
Qed.

Lemma Defs_of_tags_witness :
  ∃ defs,
    etags.Defs (etags.Parse (etags.NewParser allGo) tagsTable).1 = Some defs ∧
    Forall2 (defOf (etags.Parse (etags.NewParser allGo) tagsTable).1)
      (List.filter named (etags.tags (etags.Parse (etags.NewParser allGo) tagsTable).1))
      defs.
Proof.
  eexists. split; [vm_compute; reflexivity|].
  apply (Defs_of_tags (etags.Parse (etags.NewParser allGo) tagsTable).1).
  vm_compute. reflexivity.
Defined.

Lemma pathOf_inj f n c1 c2 : pathOf f n c1 = pathOf f n c2 → c1 = c2.
Proof.
  unfold pathOf, Sprintf. cbn [foldr]. intros H.
  apply (f_equal toBytes) in H. rewrite !toBytes_app in H.
  repeat apply app_inv_head in H. rewrite !app_nil_r in H.
  repeat apply app_inv_head in H.
  apply toBytes_inj in H. by apply (inj pretty).
Qed.

Lemma counter_insert names f n v m f' n' :
  names !! f = Some m →
  counter (<[f := <[n := v]> m]> names) f' n'
  = if decide (f' = f ∧ n' = n) then v else counter names f' n'.
Proof.
  intros Hm. unfold counter.
  destruct (decide (f' = f)) as [->|Hf].
  - rewrite lookup_insert_eq, Hm. cbn [mbind option_bind].
    destruct (decide (n' = n)) as [->|Hn].
    + rewrite lookup_insert_eq, decide_True by done. done.
    + rewrite lookup_insert_ne by done. rewrite decide_False; [done|].
      by intros [_ ?].
  - rewrite lookup_insert_ne by done. rewrite decide_False; [done|].
    by intros [? _].
Qed.

Lemma Defs_fold_paths p l k names defs names' defs' :
  (∀ f n, 0 ≤ counter names f n ≤ Z.of_nat k) →
  (∀ d, d ∈ defs → ∃ c,
        0 ≤ c < counter names (etags.DefFile d) (etags.DefName d) ∧
        etags.Path (etags.Key d) = pathOf (etags.DefFile d) (etags.DefName d) c) →
  distinctPaths defs →
  Z.of_nat (k + length l) ≤ GoInt.MaxInt64 →
  foldl (etags.defsStep p) (Some (names, defs)) l = Some (names', defs') →
  distinctPaths defs'.
Proof.
  revert k names defs. induction l as [|t l IH]; intros k names defs Hcnt Hdefs Hdist Hlen.
  { simpl. by intros [= <- <-]. }
  cbn [foldl]. rewrite defsStep_eq.
  destruct (names !! etags.File t) as [m|] eqn:Hm; [|by rewrite foldl_defsStep_None].
  cbv zeta. set (c := counter names (etags.File t) (etags.Name t)).
  pose proof (Hcnt (etags.File t) (etags.Name t)) as Hc. fold c in Hc.
  cbn [length] in Hlen.
  assert (GoInt.add c 1 = c + 1) as Hadd.
  { apply add_exact. unfold GoInt.inRange, GoInt.MinInt64. lia. }
  rewrite Hadd.
  assert (∀ f n, counter names f n
                 ≤ counter (<[etags.File t := <[etags.Name t := c + 1]> m]> names) f n
                 ≤ Z.of_nat (S k)) as Hmono.
  { intros f n. rewrite (counter_insert _ _ _ _ m) by done.
    pose proof (Hcnt f n). destruct (decide _) as [[-> ->]|_]; [fold c|]; lia. }
  apply (IH (S k)).
  - intros f n. pose proof (Hmono f n). pose proof (Hcnt f n). lia.
  - intros d Hin.
    assert (d ∈ defs → ∃ c0,
        0 ≤ c0 < counter (<[etags.File t := <[etags.Name t := c + 1]> m]> names)
                   (etags.DefFile d) (etags.DefName d) ∧
        etags.Path (etags.Key d) = pathOf (etags.DefFile d) (etags.DefName d) c0)
      as Hold.
    { intros (c0 & Hc0 & Hp)%Hdefs. exists c0. split; [|done].
      pose proof (Hmono (etags.DefFile d) (etags.DefName d)). lia. }
    destruct (named t); [|by apply Hold].
    apply elem_of_app in Hin as [Hin|Hin]; [by apply Hold|].
    apply list_elem_of_singleton in Hin as ->. cbn.
    exists c. split; [|done].
    rewrite (counter_insert _ _ _ _ m) by done. rewrite decide_True by done. lia.
  - destruct (named t); [|done].
    intros i j d1 d2 Hi Hj Hij Hf Hn Hpath.
    assert (∀ i' d d', defs !! i' = Some d →
              etags.DefFile d' = etags.File t → etags.DefName d' = etags.Name t →
              etags.Path (etags.Key d') = pathOf (etags.File t) (etags.Name t) c →
              etags.DefFile d = etags.DefFile d' →
              etags.DefName d = etags.DefName d' →
              etags.Path (etags.Key d) ≠ etags.Path (etags.Key d')) as Hnew.
    { intros i' d d' Hd Hf' Hn' Hp' Hff Hnn Hpp.
      destruct (Hdefs d) as (c0 & Hc0 & Hp0); [by eapply list_elem_of_lookup_2|].
      rewrite Hff, Hnn, Hf', Hn' in Hc0, Hp0. fold c in Hc0.
      rewrite Hpp, Hp' in Hp0. apply pathOf_inj in Hp0. lia. }
    destruct (decide (i < length defs)%nat) as [Hi'|Hi'];
      destruct (decide (j < length defs)%nat) as [Hj'|Hj'].
    + rewrite lookup_app_l in Hi, Hj by done. by eapply (Hdist i j).
    + rewrite lookup_app_l in Hi by done. rewrite lookup_app_r in Hj by lia.
      apply list_lookup_singleton_Some in Hj as [_ <-].
      by eapply (Hnew i d1).
    + rewrite lookup_app_l in Hj by done. rewrite lookup_app_r in Hi by lia.
      apply list_lookup_singleton_Some in Hi as [_ <-].
      symmetry in Hpath, Hf, Hn. by eapply (Hnew j d2).
    + rewrite lookup_app_r in Hi, Hj by lia.
      apply list_lookup_singleton_Some in Hi as [Hi _].
      apply list_lookup_singleton_Some in Hj as [Hj _]. lia.
  - lia.
Qed.

(** X25. The defs of one name of one file have paths that differ: the
    number behind the [$] counts the tags of that name met in the file
    before. *)
Theorem Defs_paths_differ (p : etags.ETagsParser) (defs : list etags.Def_) :
  Z.of_nat (length (etags.tags p)) ≤ GoInt.MaxInt64 →
  etags.Defs p = Some defs → distinctPaths defs.
Proof.
  unfold etags.Defs, etags.Tags. intros Hlen Hd.
  apply fmap_Some in Hd as ([names' defs'] & Hfold & ->).
  apply (Defs_fold_paths p (etags.tags p) 0 (etags.fileDefNames0 p) [] names' defs').
  - intros f n. unfold counter.
    destruct (fileDefNames0_lookup p f) as [[-> _]|[-> _]]; simpl; [|lia].
    rewrite lookup_empty. simpl. lia.
  - intros d Hin. by apply elem_of_nil in Hin.
  - intros i j d1 d2 Hi. by rewrite lookup_nil in Hi.
  - exact Hlen.
  - exact Hfold.
Qed.

Lemma Defs_paths_differ_witness :
  ∃ defs,
    etags.Defs (etags.Parse (etags.NewParser allGo) tagsTable).1 = Some defs ∧
    etags.Path <$> (etags.Key <$> defs) = ["a.go:Foo$0"; "a.go:t$0"; "a.go:Foo$1"] ∧
    distinctPaths defs.
Proof.
  eexists. split; [vm_compute; reflexivity|]. split; [vm_compute; reflexivity|].
  apply (Defs_paths_differ (etags.Parse (etags.NewParser allGo) tagsTable).1).
  - vm_compute. discriminate.
  - vm_compute. reflexivity.
Defined.

(** Defs of different names, or of different files, may have one path. *)
Example paths_not_unique :
  etags.Path <$> (etags.Key <$>
    default []
      (etags.Defs
         (etags.Parse (etags.NewParser allGo)
            (Sprintf [fileLine "a" "1"; nl; symbolLine "b:c" "b:c" "1" "0"; nl;
                      fileLine "a:b" "1"; nl; symbolLine "c" "c" "1" "0"; nl])).1))
  = ["a:b:c$0"; "a:b:c$0"].
Proof. vm_compute. reflexivity. Qed.

(** * The commit data *)

(** ** [strings.Replace] *)

Lemma hasPrefixB_app p s : hasPrefixB (p ++ s) p = true.
Proof.
  induction p as [|c p IH]; [apply hasPrefixB_nil|].
  cbn [app hasPrefixB]. by rewrite Ascii.eqb_refl, IH.
Qed.

Lemma replaceGo_absent old new n s i :
  0 ≤ i → indexFrom old s i = -1 → replaceGo old new n 0 s = s.
Proof.
  revert i. induction s as [|c s IH]; intros i Hi; [done|].
  cbn [indexFrom replaceGo].
  destruct (hasPrefixB (c :: s) old); [lia|].
  rewrite andb_false_r. intros Hs. f_equal. apply (IH (i + 1)); [lia | done].
Qed.

Lemma replaceGo_skip old new n a s :
  replaceGo old new n (length a) (a ++ s) = replaceGo old new n 0 s.
Proof. induction a as [|c a IH]; [done | exact IH]. Qed.

Lemma replaceGo_zero old new s : replaceGo old new 0 0 s = s.
Proof. induction s as [|c s IH]; [done|]. cbn [replaceGo]. simpl. by rewrite IH. Qed.

Lemma replaceGo_prefix old new n s :
  old ≠ [] → n ≠ 0 →
  replaceGo old new n 0 (old ++ s)
  = new ++ replaceGo old new (if n <? 0 then n else n - 1) 0 s.
Proof.
  intros Hold Hn. destruct old as [|c old]; [done|].
  change ((c :: old) ++ s) with (c :: old ++ s). cbn [replaceGo].
  change (c :: old ++ s) with ((c :: old) ++ s). rewrite hasPrefixB_app.
  assert ((n =? 0) = false) as -> by by apply Z.eqb_neq.
  cbn [negb andb].
  replace (length (c :: old) - 1)%nat with (length old) by (cbn [length]; lia).
  by rewrite replaceGo_skip.
Qed.

Lemma replaceGo_byte_first x new a b :
  x ∉ a → replaceGo [x] new 1 0 (a ++ x :: b) = a ++ new ++ b.
Proof.
  induction a as [|c a IH]; intros Hx.
  - change ([] ++ x :: b) with ([x] ++ b).
    rewrite replaceGo_prefix by done. simpl. by rewrite replaceGo_zero.
  - apply not_elem_of_cons in Hx as [Hc Ha].
    cbn [app replaceGo]. rewrite hasPrefixB_byte.
    assert (Ascii.eqb x c = false) as -> by by apply Ascii.eqb_neq.
    rewrite andb_false_r. by rewrite IH.
Qed.

Lemma HasSuffix_app s suffix : HasSuffix (s +:+ suffix) suffix = true.
Proof.
  unfold HasSuffix. rewrite toBytes_app, rev_app_distr. apply hasPrefixB_app.
Qed.

(** ** [generateURL] and the URL of the repository *)

(** X26. [generateURL] gives [https://<repository>/commit/<hash>], with
    github.com for a sourcegraph.com at the head of the repository. *)
Theorem generateURL_hosts (path hash : string) :
  Index path "sourcegraph.com" = -1 →
  generateURL path hash = Sprintf ["https://"; path; "/commit/"; hash] ∧
  generateURL ("sourcegraph.com" +:+ path) hash
  = Sprintf ["https://github.com"; path; "/commit/"; hash].
Proof.
  unfold Index. intros Hno.
  assert (Replace path "sourcegraph.com" "github.com" (-1) = path) as Hsame.
  { unfold Replace. rewrite (replaceGo_absent _ _ _ _ 0) by done.
    apply ofBytes_toBytes. }
  unfold generateURL. cbv zeta. split; [by rewrite Hsame|].
  assert (Replace ("sourcegraph.com" +:+ path) "sourcegraph.com" "github.com" (-1)
          = "github.com" +:+ path) as ->.
  { unfold Replace. rewrite toBytes_app, replaceGo_prefix by done.
    change (if -1 <? 0 then -1 else -1 - 1) with (-1).
    rewrite (replaceGo_absent _ _ _ _ 0) by done.
    by rewrite ofBytes_app, !ofBytes_toBytes. }
  reflexivity.
Qed.

Lemma generateURL_hosts_witness :
  generateURL "github.com/sourcegraph/tag-server" "0123abcd"
  = "https://github.com/sourcegraph/tag-server/commit/0123abcd" ∧
  generateURL "sourcegraph.com/sourcegraph/tag-server" "0123abcd"
  = "https://github.com/sourcegraph/tag-server/commit/0123abcd".
Proof.
  split.
  - apply (generateURL_hosts "github.com/sourcegraph/tag-server" "0123abcd").
    vm_compute. reflexivity.
  - apply (generateURL_hosts "/sourcegraph/tag-server" "0123abcd").
    vm_compute. reflexivity.
Defined.

(** X27. For the remote [git@<host>:<path>.git] the URL of the repository
    is [<host>/<path>]; without the [.git] at the end it is the same. *)
Theorem ssh_remote_url (host path : string) :
  lacks ":"%char host →
  remoteURLOf (Sprintf ["git@"; host; ":"; path; ".git"]) = Sprintf [host; "/"; path] ∧
  (HasSuffix (Sprintf [host; "/"; path]) ".git" = false →
   remoteURLOf (Sprintf ["git@"; host; ":"; path]) = Sprintf [host; "/"; path]).
Proof.
  intros Hhost.
  assert (∀ tail, Replace (Replace (Sprintf ["git@"; host; ":"; path; tail])
                             "git@" EmptyString 1) ":" "/" 1
                  = Sprintf [host; "/"; path] +:+ tail) as Hrep.
  { intros tail. unfold Replace at 2.
    assert (toBytes (Sprintf ["git@"; host; ":"; path; tail])
            = toBytes "git@" ++ toBytes host ++ ":"%char :: toBytes path ++ toBytes tail)
      as ->.
    { unfold Sprintf. cbn [foldr]. rewrite !toBytes_app. simpl.
      by rewrite app_nil_r. }
    rewrite replaceGo_prefix by done. simpl (if _ <? _ then _ else _).
    rewrite replaceGo_zero. cbn [toBytes String.list_ascii_of_string app].
    unfold Replace. rewrite toBytes_ofBytes.
    change (toBytes ":") with [":"%char].
    rewrite replaceGo_byte_first by exact Hhost.
    apply toBytes_inj. rewrite toBytes_ofBytes. unfold Sprintf. cbn [foldr].
    rewrite !toBytes_app. simpl. by rewrite app_nil_r, <- !app_assoc. }
  unfold remoteURLOf. cbv zeta. split.
  - rewrite Hrep, HasSuffix_app. unfold slice.
    rewrite <- !len_toBytes, toBytes_app, length_app.
    replace (Z.to_nat (Z.of_nat (length (toBytes (Sprintf [host; "/"; path]))
                                 + length (toBytes ".git"))
                       - Z.of_nat (length (toBytes ".git")) - 0))
      with (length (toBytes (Sprintf [host; "/"; path]))) by lia.
    rewrite drop_0, take_app_length. apply ofBytes_toBytes.
  - intros Hsuf.
    assert (Sprintf ["git@"; host; ":"; path]
            = Sprintf ["git@"; host; ":"; path; EmptyString]) as ->.
    { apply toBytes_inj. unfold Sprintf. cbn [foldr]. rewrite !toBytes_app.
      simpl. by rewrite !app_nil_r. }
    rewrite Hrep.
    assert (Sprintf [host; "/"; path] +:+ EmptyString = Sprintf [host; "/"; path])
      as ->.
    { apply toBytes_inj. rewrite toBytes_app. simpl. by rewrite app_nil_r. }
    by rewrite Hsuf.
Qed.

Lemma ssh_remote_url_witness :
  remoteURLOf "git@github.com:sourcegraph/tag-server.git"
  = "github.com/sourcegraph/tag-server" ∧
  remoteURLOf "git@github.com:sourcegraph/tag-server"
  = "github.com/sourcegraph/tag-server".
Proof.
  destruct (ssh_remote_url "github.com" "sourcegraph/tag-server") as [H1 H2].
  - unfold lacks. vm_compute. intros H.
    repeat (apply elem_of_cons in H as [H|H]; [discriminate|]).
    by apply elem_of_nil in H.
  - split; [exact H1 | apply H2; vm_compute; reflexivity].
Defined.

(** A remote that is given with [https://] loses its colon too. *)
Example https_remote_url :
  remoteURLOf "https://github.com/sourcegraph/tag-server.git"
  = "https///github.com/sourcegraph/tag-server" ∧
  originOf originOut = Returns ("master", "github.com/sourcegraph/tag-server").
Proof. split; vm_compute; reflexivity. Qed.

(** ** The line of the author *)

Lemma splitSep_colons_last cur s :
  ":"%char ∉ s →
  splitSep [":"%char; ":"%char] 0 cur s = [ofBytes (rev cur ++ s)].
Proof.
  revert cur. induction s as [|c s IH]; intros cur Hs.
  - by rewrite app_nil_r.
  - apply not_elem_of_cons in Hs as [Hc Hs]. cbn [splitSep hasPrefixB].
    assert (Ascii.eqb ":" c = false) as -> by by apply Ascii.eqb_neq.
    cbn [andb]. rewrite IH by done. cbn [rev]. by rewrite <- app_assoc.
Qed.

Lemma splitSep_colons_cons cur a rest :
  ":"%char ∉ a →
  splitSep [":"%char; ":"%char] 0 cur (a ++ ":"%char :: ":"%char :: rest)
  = ofBytes (rev cur ++ a) :: splitSep [":"%char; ":"%char] 0 [] rest.
Proof.
  revert cur. induction a as [|c a IH]; intros cur Ha.
  - cbn [app splitSep hasPrefixB]. rewrite Ascii.eqb_refl, hasPrefixB_nil.
    cbn [andb length Nat.sub]. by rewrite app_nil_r.
  - apply not_elem_of_cons in Ha as [Hc Ha]. cbn [app splitSep hasPrefixB].
    assert (Ascii.eqb ":" c = false) as -> by by apply Ascii.eqb_neq.
    cbn [andb]. rewrite IH by done. cbn [rev]. by rewrite <- app_assoc.
Qed.

Lemma runeLen_ascii c t : utf8.isASCII c = true → utf8.runeLen (c :: t) = 1%nat.
Proof.
  unfold utf8.isASCII, utf8.runeLen, utf8.between. intros H%N.ltb_lt.
  assert ((194 <=? utf8.code c)%N = false) as -> by (apply N.leb_gt; lia).
  assert ((224 <=? utf8.code c)%N = false) as -> by (apply N.leb_gt; lia).
  assert ((240 <=? utf8.code c)%N = false) as -> by (apply N.leb_gt; lia).
  done.
Qed.

Lemma DecodeRune_ascii c t :
  utf8.isASCII c = true → rune.DecodeRune (c :: t) = (rune.byteVal c, 1%nat).
Proof.
  intros Hc. unfold rune.DecodeRune. rewrite runeLen_ascii by done.
  by rewrite Hc.
Qed.

Lemma DecodeLastRune_ascii s c :
  utf8.isASCII c = true → rune.DecodeLastRune (s ++ [c]) = (rune.byteVal c, 1%nat).
Proof.
  intros Hc. unfold rune.DecodeLastRune. rewrite last_snoc. by rewrite Hc.
Qed.

Lemma ink_inv c :
  ink c = true →
  utf8.isASCII c = true ∧ rune.IsSpace (rune.byteVal c) = false.
Proof.
  unfold ink. intros [? ?%negb_true_iff]%andb_true_iff. done.
Qed.

Lemma blank_inv c :
  blank c = true →
  utf8.isASCII c = true ∧ rune.IsSpace (rune.byteVal c) = true.
Proof. unfold blank. by intros [? ?]%andb_true_iff. Qed.

(** The end of a text that ends in white space behind the byte [c]. *)
Lemma lastIndexNotSpace_blanks fuel w c sp more :
  ink c = true → Forall (fun b => blank b = true) sp →
  (length w + 1 + length sp ≤ fuel)%nat →
  lastIndexNotSpace fuel (w ++ [c] ++ sp ++ more) (length w + 1 + length sp)
  = Z.of_nat (length w).
Proof.
  intros [Hc Hns]%ink_inv. revert fuel more.
  induction sp as [|b sp IH] using rev_ind; intros fuel more Hsp Hfuel.
  - cbn [length] in *. destruct fuel as [|fuel]; [lia|].
    replace (length w + 1 + 0)%nat with (S (length w)) by lia.
    cbn [lastIndexNotSpace app].
    replace (take (S (length w)) (w ++ c :: more)) with (w ++ [c]).
    + rewrite DecodeLastRune_ascii by done. rewrite Hns. lia.
    + replace (w ++ c :: more) with ((w ++ [c]) ++ more) by (by rewrite <- app_assoc).
      rewrite take_app_length'; [done|]. rewrite length_app. simpl. lia.
  - apply Forall_app in Hsp as [Hsp Hb]. apply Forall_inv in Hb.
    apply blank_inv in Hb as [Hb Hbs].
    rewrite length_app in Hfuel |- *. cbn [length] in Hfuel |- *.
    destruct fuel as [|fuel]; [lia|].
    replace (length w + 1 + (length sp + 1))%nat
      with (S (length w + 1 + length sp)) by lia.
    cbn [lastIndexNotSpace].
    replace (take (S (length w + 1 + length sp)) (w ++ [c] ++ (sp ++ [b]) ++ more))
      with ((w ++ [c] ++ sp) ++ [b]).
    + rewrite DecodeLastRune_ascii by done. rewrite Hbs.
      replace (S (length w + 1 + length sp) - 1)%nat
        with (length w + 1 + length sp)%nat by lia.
      replace (w ++ [c] ++ (sp ++ [b]) ++ more)
        with (w ++ [c] ++ sp ++ ([b] ++ more)) by (by rewrite <- !app_assoc).
      apply IH; [done | lia].
    + replace (w ++ [c] ++ (sp ++ [b]) ++ more)
        with (((w ++ [c] ++ sp) ++ [b]) ++ more) by (by rewrite <- !app_assoc).
      rewrite take_app_length'; [done|]. rewrite !length_app. simpl. lia.
Qed.

(** [TrimSpace] cuts the white space behind a text that begins and ends
    with an ASCII byte that is none. *)
Lemma TrimSpace_word w c sp :
  (∃ c0 t, w ++ [c] = c0 :: t ∧ ink c0 = true) → ink c = true →
  Forall (fun b => blank b = true) sp →
  TrimSpace (ofBytes (w ++ [c] ++ sp)) = ofBytes (w ++ [c]).
Proof.
  intros (c0 & t & Hhead & Hc0) Hc Hsp. unfold TrimSpace.
  rewrite toBytes_ofBytes. f_equal.
  assert (trimLeftSpace (length (w ++ [c] ++ sp)) (w ++ [c] ++ sp) = w ++ [c] ++ sp)
    as ->.
  { rewrite (app_assoc w), Hhead. cbn [app length trimLeftSpace].
    apply ink_inv in Hc0 as [Ha Hs]. rewrite DecodeRune_ascii by done.
    by rewrite Hs. }
  unfold trimRightSpace.
  pose proof (lastIndexNotSpace_blanks (length w + 1 + length sp) w c sp [] Hc Hsp)
    as Hi.
  rewrite app_nil_r in Hi.
  replace (length (w ++ [c] ++ sp)) with (length w + 1 + length sp)%nat
    by (rewrite !length_app; simpl; lia).
  rewrite Hi by lia.
  destruct (Z.ltb_spec (Z.of_nat (length w)) 0) as [?|_]; [lia|].
  rewrite Nat2Z.id.
  assert ((w ++ [c] ++ sp) !! length w = Some c) as ->.
  { by rewrite lookup_app_r, Nat.sub_diag by lia. }
  apply ink_inv in Hc as [-> _].
  replace (Z.to_nat (Z.of_nat (length w) + 1)) with (length (w ++ [c]))
    by (rewrite length_app; simpl; lia).
  rewrite (app_assoc w). by rewrite take_app_length.
Qed.

(** The first field of a text that begins with a word. *)
Lemma fields_word fuel acc w rest :
  Forall (fun c => ink c = true) w →
  (rest = [] ∨ ∃ b rest', rest = b :: rest' ∧ blank b = true) →
  (length w + length rest ≤ fuel)%nat →
  fields fuel (Some acc) (w ++ rest) !! 0%nat = Some (ofBytes (rev acc ++ w)).
Proof.
  intros Hw Hrest. revert fuel acc.
  induction Hw as [|x w Hx _ IH]; intros fuel acc Hfuel.
  - rewrite app_nil_r. cbn [app].
    destruct Hrest as [-> | (b & rest' & -> & Hb)].
    + by destruct fuel.
    + cbn [length] in Hfuel. destruct fuel as [|fuel]; [lia|].
      cbn [fields]. apply blank_inv in Hb as [Ha Hs].
      rewrite DecodeRune_ascii by done. by rewrite Hs.
  - cbn [length] in Hfuel. destruct fuel as [|fuel]; [lia|].
    cbn [app fields]. apply ink_inv in Hx as [Ha Hs].
    rewrite DecodeRune_ascii by done. rewrite Hs.
    change (fields fuel (Some (x :: acc)) (w ++ rest) !! 0%nat
            = Some (ofBytes (rev acc ++ x :: w))).
    rewrite IH by lia. cbn [rev]. by rewrite <- app_assoc.
Qed.

Lemma Fields_first x w rest :
  Forall (fun c => ink c = true) (x :: w) →
  (rest = [] ∨ ∃ b rest', rest = b :: rest' ∧ blank b = true) →
  Fields (ofBytes ((x :: w) ++ rest)) !! 0%nat = Some (ofBytes (x :: w)).
Proof.
  intros Hw Hrest. unfold Fields. rewrite <- len_toBytes, toBytes_ofBytes.
  apply Forall_cons in Hw as [Hx Hw]. apply ink_inv in Hx as [Ha Hs].
  cbn [app length fields]. rewrite DecodeRune_ascii by done. rewrite Hs.
  change (fields (length (w ++ rest)) (Some [x]) (w ++ rest) !! 0%nat
          = Some (ofBytes (x :: w))).
  rewrite fields_word; [done | done | done |]. rewrite length_app. lia.
Qed.

Lemma fields_blank fuel s :
  Forall (fun b => blank b = true) s → fields fuel None s = [].
Proof.
  intros Hs. revert fuel. induction Hs as [|b s Hb _ IH]; intros fuel.
  - by destruct fuel.
  - destruct fuel as [|fuel]; [done|]. cbn [fields].
    apply blank_inv in Hb as [Ha Hsp]. rewrite DecodeRune_ascii by done.
    rewrite Hsp. cbn [drop]. apply IH.
Qed.

Lemma AtoiErr_ink s :
  AtoiErr s = false →
  toBytes s ≠ [] ∧ Forall (fun c => ink c = true) (toBytes s).
Proof.
  intros Hs. split.
  - intros He. unfold AtoiErr in Hs. by rewrite He in Hs.
  - eapply Forall_impl; [by apply AtoiErr_bytes|].
    intros c [Hd | [-> | ->]]; [|done..].
    apply isDigit_ascii in Hd as [Ha Hd]. unfold ink. rewrite Ha. cbn [andb].
    apply negb_true_iff. revert Hd.
    unfold isDigit, utf8.between, rune.IsSpace, rune.byteVal.
    intros [H1 H2]%andb_true_iff. apply N.leb_le in H1, H2.
    repeat match goal with
           | |- context [?a <=? ?b] => destruct (Z.leb_spec a b)
           | |- context [?a =? ?b] => destruct (Z.eqb_spec a b)
           end; simpl; try done; lia.
Qed.

Lemma toBytes_authorLine name email seconds tail :
  toBytes (Sprintf [name; "::"; email; "::"; seconds; tail])
  = toBytes name ++ ":"%char :: ":"%char :: toBytes email
      ++ ":"%char :: ":"%char :: toBytes seconds ++ toBytes tail.
Proof.
  unfold Sprintf. cbn [foldr]. rewrite !toBytes_app. simpl.
  by rewrite app_nil_r.
Qed.

Lemma SplitSep_authorLine name email seconds tail :
  lacks ":"%char name → lacks ":"%char email → lacks ":"%char seconds →
  lacks ":"%char tail →
  SplitSep (Sprintf [name; "::"; email; "::"; seconds; tail]) "::"
  = [name; email; seconds +:+ tail].
Proof.
  intros Hn He Hs Ht. unfold SplitSep. rewrite toBytes_authorLine.
  change (toBytes "::") with [":"%char; ":"%char].
  rewrite !splitSep_colons_cons by done.
  rewrite splitSep_colons_last.
  - cbn [rev app]. by rewrite !ofBytes_toBytes, ofBytes_app, !ofBytes_toBytes.
  - intros [?|?]%elem_of_app; [by apply Hs | by apply Ht].
Qed.

(** X28. The output [<name>::<address>::<seconds>] of [git show], with a
    newline behind it, is read as it is written: the name, the address,
    the seconds as a number, and for the first name the first word of the
    name. *)
Theorem author_line_read (name email seconds : string) (first rest : bytes) :
  lacks ":"%char name → lacks ":"%char email → AtoiErr seconds = false →
  toBytes name = first ++ rest → first ≠ [] →
  Forall (fun c => ink c = true) first →
  (rest = [] ∨ ∃ b rest', rest = b :: rest' ∧ blank b = true) →
  authorOf (Sprintf [name; "::"; email; "::"; seconds; nl])
  = Returns (name, ofBytes first, email, Atoi seconds).
Proof.
  intros Hn He Hs Hname Hne Hfirst Hrest.
  destruct (AtoiErr_ink seconds Hs) as [Hsne Hsink].
  unfold authorOf. rewrite SplitSep_authorLine; try done.
  - cbv zeta. cbn [length Nat.eqb negb].
    change ([name; email; seconds +:+ nl] !!! 0%nat) with name.
    change ([name; email; seconds +:+ nl] !!! 1%nat) with email.
    change ([name; email; seconds +:+ nl] !!! 2%nat) with (seconds +:+ nl).
    destruct first as [|x w]; [done|].
    rewrite <- (ofBytes_toBytes name) at 1. rewrite Hname.
    rewrite Fields_first by done.
    assert (TrimSpace (seconds +:+ nl) = seconds) as ->.
    { destruct (toBytes seconds) as [|c0 t] eqn:Hb using rev_ind; [done|].
      clear IHt. apply Forall_app in Hsink as [Ht Hc0].
      apply Forall_inv in Hc0.
      rewrite <- (ofBytes_toBytes (seconds +:+ nl)), toBytes_app, Hb.
      rewrite <- app_assoc. rewrite TrimSpace_word.
      - by rewrite <- Hb, ofBytes_toBytes.
      - destruct t as [|c1 t].
        + by exists c0, [].
        + exists c1, (t ++ [c0]). split; [done|]. by apply Forall_inv in Ht.
      - done.
      - by repeat constructor. }
    by rewrite Hs.
  - by apply AtoiErr_lacks.
  - intros [?|?]%elem_of_cons; [discriminate | by eapply not_elem_of_nil].
Qed.

Lemma author_line_read_witness :
  authorOf (Sprintf ["Ada Lovelace"; "::"; "ada@example.com"; "::"; "1467000000"; nl])
  = Returns ("Ada Lovelace", "Ada", "ada@example.com", 1467000000).
Proof.
  apply (author_line_read "Ada Lovelace" "ada@example.com" "1467000000"
           (toBytes "Ada") (toBytes " Lovelace")).
  - unfold lacks. vm_compute. intros H.
    repeat (apply elem_of_cons in H as [H|H]; [discriminate|]).
    by apply elem_of_nil in H.
  - unfold lacks. vm_compute. intros H.
    repeat (apply elem_of_cons in H as [H|H]; [discriminate|]).
    by apply elem_of_nil in H.
  - reflexivity.
  - reflexivity.
  - discriminate.
  - repeat constructor.
  - right. eexists _, _. split; reflexivity.
Defined.

(** X29. A name of the author that is empty, or white space only, makes
    [Execute] panic: the first name is element 0 of no fields. *)
Theorem blank_author_panics (name email seconds : string) :
  Forall (fun b => blank b = true) (toBytes name) →
  lacks ":"%char email → lacks ":"%char seconds →
  authorOf (Sprintf [name; "::"; email; "::"; seconds]) = Panics.
Proof.
  intros Hname He Hs.
  assert (lacks ":"%char name) as Hn.
  { intros Hin. rewrite Forall_forall in Hname. by apply Hname in Hin. }
  assert (Sprintf [name; "::"; email; "::"; seconds]
          = Sprintf [name; "::"; email; "::"; seconds; EmptyString]) as ->.
  { apply toBytes_inj. unfold Sprintf. cbn [foldr]. rewrite !toBytes_app.
    simpl. by rewrite !app_nil_r. }
  unfold authorOf. rewrite SplitSep_authorLine; try done.
  - cbv zeta. cbn [length Nat.eqb negb].
    change ([name; email; seconds +:+ EmptyString] !!! 0%nat) with name.
    unfold Fields. by rewrite fields_blank.
  - apply not_elem_of_nil.
Qed.

Lemma blank_author_panics_witness :
  authorOf (Sprintf [" "; "::"; "ada@example.com"; "::"; "1467000000"]) = Panics.
Proof.
  apply (blank_author_panics " " "ada@example.com" "1467000000").
  - repeat constructor.
  - unfold lacks. vm_compute. intros H.
    repeat (apply elem_of_cons in H as [H|H]; [discriminate|]).
    by apply elem_of_nil in H.
  - unfold lacks. vm_compute. intros H.
    repeat (apply elem_of_cons in H as [H|H]; [discriminate|]).
    by apply elem_of_nil in H.
Defined.

(** The three outputs of git for a commit of this repository. *)
Example commitData_sample :
  commitData (Sprintf ["0123abcd"; nl])
    (Sprintf ["Ada Lovelace::ada@example.com::1467000000"; nl]) originOut
  = Returns {| remoteURL := "github.com/sourcegraph/tag-server";
               commitURL := "https://github.com/sourcegraph/tag-server/commit/0123abcd";
               commitHash := "0123abcd";
               branch := "master";
               authorName := "Ada Lovelace";
               authorFirstName := "Ada";
               authorEmail := "ada@example.com";
               commitTimestamp := 1467000000 |}.
Proof. vm_compute. reflexivity. Qed.
